(* ===== verification/_CoqProject ===== *)
-Q . S2P
Prelude.v
PyDict.v
PyValue.v
Paths.v
Graph.v
Lang.v
Aggregator.v
Cli.v
Widgets.v
LangMachine.v
Package.v
