(* ===== verification/Prelude.v ===== *)
(** * Verification of imery's YAML module resolution

    imery describes a user interface by YAML modules that import each
    other and contribute widgets, data and one [app] block.  Two programs
    of the repository resolve a main module into one document:

    - [Lang] (src/src/imery/lang.py), the runtime loader: a breadth-first
      traversal from the main module and ["builtin"], strict on every
      duplicate, with widgets stored under [module.widget];
    - [YAMLAggregator] (src/scripts/aggregate_demo_yaml.py), the
      documentation aggregator: a depth-first recursion that merges a
      module after its imports, overwrites duplicates after a warning and
      stores widgets under their bare name with their module, then builds
      the output document through [process_widget_references]; [save] and
      [main] write it after a provenance header.

    Both use the same locator (the first search path holding
    [name-with-dots-as-slashes.yaml]) and a loader around [yaml.safe_load].

    ** Files

    - [Prelude] (this file): the state/error monad [M S E A = S -> outcome
      E A * S] in which every method is written, with [outcome] = [Ok] |
      [Err] (a [Result.error]) | [Raise] (a Python exception that escapes)
      | [NoFuel] (the recursion bound ran out); the frame and fuel lemmas
      of chains ([respects], [fuel_free], [bind_no_fuel]); the tactics
      [unfold_M], [inv_bind], [solve_M_prop]; the hint databases [imery]
      and [imery_rw]; list lemmas (the measure [unvisited], [fresh_keys],
      last-writer folds).
    - [PyDict]: Python dicts as insertion-ordered association lists
      ([dict_get], [dict_set], ...) refined to stdpp's [gmap].
    - [PyValue]: the values [yaml.safe_load] returns ([yaml]) and the
      Python operations the code applies to them ([.get], [.items],
      iteration, truthiness, hashing), each returning the exception it
      raises; [yaml_wf]: dicts without repeated keys.
    - [Paths]: [pathlib] paths by their normal form, the filesystem as a
      finite map to directories and parsed files, the locator
      [find_first]/[find_module_file] and the two loaders.
    - [Graph]: the import graph as an edge function, [reachable], and the
      reference traversals [wl_bfs] (FIFO worklist) and [wl_dfs]
      (recursive, post-order) with their correctness theorems, and the
      import depth [within]/[depth_le] with [wl_bfs_layered]: proved on a
      copy [lbfs] of the traversal whose queue labels each module with
      the length of the path that queued it.
    - [Lang]: Module [Lang], the record [lang] of the object's fields and
      one definition per method ([init], [load_main_module] through
      [bfs]/[visit]/[process_content]/[merge_widgets]/[merge_data]/
      [merge_app]/[validate], [dispose], and the read-only properties
      [get_widget_definitions]/[get_data_definitions]/[get_app_config]).
    - [Aggregator]: Module [Aggregator], the record [aggregator] of the
      object's fields plus the printed lines ([log]), [process_module],
      its merge loops, [process_widget_references] and [aggregate].
    - [Cli]: Module [Cli], [save] and [main]: the provenance [header],
      [mkdir_parents] (pathlib's [mkdir(parents=True, exist_ok=True)]),
      [write_file] ([open(.., 'w')]) on the filesystem, the output path
      and the exit statuses; [yaml.dump] and what [yaml.safe_load] reads
      back from the written text are parameters.
    - [Widgets]: Module [Widgets], the widget classes of
      src/src/imery/frontend/widgets ([Listbox], [OpenPopup],
      [CloseCurrentPopup]) against the class [WidgetRuntime], the
      interface of the runtime they call (the [Widget] base class and
      imgui are not in the repository), with its law
      [WidgetRuntimeLaws] and the implementation [dict_runtime].
    - [LangMachine]: Module [LangMachine], the [while queue] loop of
      [Lang.load_main_module] as a transition system: configurations
      [config] (loop test with deque, visited set and object, or the end
      of the loop) and the relation [step] (one iteration of the body),
      with the loop invariant [loop_inv].
    - [Package]: Module [Package], [__version__] of
      src/src/imery/__init__.py with the metadata lookup as a parameter.

    ** Theorems

    - Lang: a successful load visits exactly the modules reachable from
      the main module and ["builtin"], once each (C1, by refinement of
      [bfs] to [wl_bfs]), in nondecreasing import depth (C30); it always
      returns (C2); the merged collections are the modules' contributions
      in visit order, with fresh keys (C3); a data key of two visited
      modules fails the load (C4), and so do two reachable modules whose
      qualified widget names [module.widget] coincide, although qualified
      names were meant to keep modules apart (C8); a second load on the
      same object fails (C5) while [dispose] restores a fresh object
      (C6); [init] checks the search paths in order (C9); a bare-string
      import is read character by character (C7).
    - Lang's loop as a transition system ([LangMachine]): every
      configuration reachable from the start of [load_main_module]
      satisfies the loop invariant (C33, by induction on the steps); the
      file also proves that the machine and the fuelled [bfs] agree and
      that every run of the loop ends.
    - Lang, strict policies: two app blocks fail the load (C27), and so
      does a reachable module that is missing or does not load (C28);
      the aggregator only prints a parse error and goes on (C29).
    - Locator: first match in search-path order (C10); a leading dot in a
      module name escapes the search paths (C11); the names [s.t] and
      [s..t] locate the same file, so one file can be imported under two
      names (C12).  [Paths] also proves that [str] and [Path] are inverse
      on normal paths, and [PyDict] that the dict model refines [gmap].
    - Aggregator: a run is the reference depth-first search with merges in
      post-order (C13, by refinement of [process_module] to [wl_dfs]); it
      always returns (C14); last writer wins for widgets (with their
      owner) and data (C15) and for the app block, a null block included
      (C16); [process_widget_references] is the identity on YAML values
      (C17), although the script's docstring says it renames references;
      a missing module is only a warning (C20); the output re-aggregates
      to itself (C21); the output is a dict without repeated keys whose
      sections come in the order app, widgets, data, each present only
      when it has content (C32).
    - Command line: [main] rejects a missing or non-directory path (C18);
      otherwise, when no ancestor of [-o] (or of
      [docs/examples/<name>.yaml]) is a file and the output is not a
      directory, it makes the parent directories and writes header and
      dump there, keeping every other entry, and an [OSError] escapes
      when the parent is a file or the output a directory (C19); the
      written file, found again as the only module of a new run,
      aggregates to the document that was dumped (C34).
    - Widgets: a [Listbox] stores the item the user picks (C22) and
      nothing else otherwise (C23), after its guards (C24); the popups
      open the id of their data bag and close the current popup (C25); a
      [Listbox] whose items are not strings always opens on item 0
      (C26); the index a [Listbox] opens on is a valid position of its
      items, or 0 when there is none (C31).

    ** Fuel

    Python's loops and recursion become functions with a fuel argument
    whose exhaustion is the outcome [NoFuel]; the theorems C2 and C14
    show that the fuel the top-level definitions pass never runs out.
    [lang_fuel = 3 + (n + 1) * n], [n] the length of the universe (the
    seeds and every import value of every file): each iteration either
    pops a visited name or visits a new name of the universe and queues at
    most [n] values, so [length queue + (n + 1) * unvisited] decreases.
    [agg_fuel = 1 + n], [n] the length of the universe (the main module
    and every import value of every file): each nested call is made after
    a new name of the universe entered [visited_modules], so the depth of
    the recursion is at most one more than the number of those names.

    ** Not modelled

    The YAML parser and serializer (a file is a parsed value or a parse
    failure; [yaml.dump] and the reading back of the written text are
    parameters), the bytes of files (the filesystem holds what
    [yaml.safe_load] makes of them), argparse, the widget runtime and imgui
    (an interface; what [imgui.list_box] returns is a parameter, as is
    [str] of a non-string value), and [importlib.metadata] (a parameter
    of [Package.package_version]).  Strings are Rocq's [string], lists of
    8-bit characters: a module name or a path with non-ASCII text is a
    sequence of bytes, not of Python's code points, so [len], indexing and
    [str.index] on such text (the [Listbox] items) count bytes where
    Python counts characters; the code the theorems are about only
    compares, concatenates and splits at ['.'] and ['/'], which agree on
    UTF-8 bytes.  Python's recursion limit is not
    modelled: [agg_fuel] bounds the depth of [process_module]'s recursion
    by the number of module names only, and an import chain longer than
    the interpreter's limit raises [RecursionError] in the script. *)

From stdpp Require Import base list strings gmap.
From Stdlib Require Import ZArith.

Declare Scope imery_scope.
Delimit Scope imery_scope with imery.

(** ** Python exceptions that escape the modelled code

    The code catches nothing but the exceptions around [open] and
    [yaml.safe_load]; every other exception ([AttributeError] when
    [.get]/[.items]/[.replace] is called on a value of the wrong type,
    [TypeError] when a value is not iterable or not hashable, [OSError]
    when the output file cannot be created) escapes to the caller.  The
    model keeps them as a value. *)
Inductive pyexn : Type :=
  | AttributeError
  | TypeError
  | OSError.

#[export] Instance pyexn_eq_dec : EqDecision pyexn.
Proof. solve_decision. Defined.

(** ** Outcomes

    [Ok] is normal return, [Err] is a [Result.error] returned by the code,
    [Raise] an escaping Python exception, and [NoFuel] the model's own
    outcome when the fuel bound of a loop is exhausted (the termination
    theorems show it never happens with the fuel the development chooses). *)
Inductive outcome (E A : Type) : Type :=
  | Ok (a : A)
  | Err (e : E)
  | Raise (x : pyexn)
  | NoFuel.
Arguments Ok {E A} a.
Arguments Err {E A} e.
Arguments Raise {E A} x.
Arguments NoFuel {E A}.

(** Whether an outcome is a normal return. *)
Definition is_ok {E A} (o : outcome E A) : bool :=
  match o with Ok _ => true | _ => false end.

Lemma is_ok_false {E A} (o : outcome E A) : is_ok o = false ↔ ∀ a, o ≠ Ok a.
Proof. destruct o; simpl; split; try done; intros H; by destruct (H a). Qed.

(** ** A state and error monad

    The Python objects mutate their fields and then may return an error or
    raise: the state reached at that point is kept, so [M] returns the
    outcome together with the final state.  It is registered with stdpp's
    monad classes, so [x ← c; k] and [c ;; k] read as the code does. *)
Definition M (S E A : Type) : Type := S -> outcome E A * S.

#[export] Instance M_ret {S E} : MRet (M S E) := λ A a s, (Ok a, s).
#[export] Instance M_bind {S E} : MBind (M S E) := λ A B f c s,
  match c s with
  | (Ok a, s') => f a s'
  | (Err e, s') => (Err e, s')
  | (Raise x, s') => (Raise x, s')
  | (NoFuel, s') => (NoFuel, s')
  end.

Definition get_st {S E} : M S E S := λ s, (Ok s, s).
Definition put_st {S E} (s : S) : M S E unit := λ _, (Ok tt, s).
Definition modify_st {S E} (f : S -> S) : M S E unit := λ s, (Ok tt, f s).
Definition throw {S E A} (e : E) : M S E A := λ s, (Err e, s).
Definition raise {S E A} (x : pyexn) : M S E A := λ s, (Raise x, s).
Definition out_of_fuel {S E A} : M S E A := λ s, (NoFuel, s).

(** A pure computation that may raise, lifted into [M]. *)
Definition lift_py {S E A} (r : pyexn + A) : M S E A :=
  match r with inl x => raise x | inr a => mret a end.

(** Run a computation on a start state. *)
Notation "c '@@' s" := (c s) (at level 20, only parsing) : imery_scope.

Open Scope imery_scope.

Create HintDb imery discriminated.
Create Rewrite HintDb imery_rw.

Section monad_laws.
Context {S E : Type}.

Lemma bind_Ok {A B} (c : M S E A) (f : A -> M S E B) s a s' :
  c s = (Ok a, s') -> (c ≫= f) s = f a s'.
Proof. intros H. unfold mbind, M_bind. by rewrite H. Qed.

Lemma bind_not_Ok {A B} (c : M S E A) (f : A -> M S E B) s o s' :
  c s = (o, s') -> (∀ a, o ≠ Ok a) ->
  ∃ o', (c ≫= f) s = (o', s') ∧ (∀ b, o' ≠ Ok b) ∧ (o = NoFuel ↔ o' = NoFuel).
Proof.
  intros H Hn. unfold mbind, M_bind. rewrite H.
  destruct o as [a|e|x|].
  - by destruct (Hn a).
  - eexists; split; [done|]; split; [congruence|split; congruence].
  - eexists; split; [done|]; split; [congruence|split; congruence].
  - eexists; split; [done|]; split; [congruence|done].
Qed.

Lemma ret_bind {A B} (a : A) (f : A -> M S E B) s :
  (mret a ≫= f) s = f a s.
Proof. done. Qed.

Lemma lift_py_inr {A} (a : A) s : (lift_py (S:=S) (E:=E) (inr a)) s = (Ok a, s).
Proof. done. Qed.

Lemma lift_py_inl {A} x s : (lift_py (S:=S) (E:=E) (A:=A) (inl x)) s = (Raise x, s).
Proof. done. Qed.
Lemma lift_py_Ok {A} (r : pyexn + A) s a s' :
  lift_py (S:=S) (E:=E) r s = (Ok a, s') -> r = inr a ∧ s' = s.
Proof. destruct r; unfold lift_py, raise, mret, M_ret; intros [=]; by subst. Qed.
End monad_laws.

#[export] Hint Rewrite @ret_bind @lift_py_inr @lift_py_inl : imery_rw.

(** ** Reasoning about whole computations *)

Section M_props.
Context {S E : Type}.

(** A successful bind is a successful first step and a successful rest. *)
Lemma bind_Ok_inv {A B} (c : M S E A) (f : A -> M S E B) s b s'' :
  (c ≫= f) s = (Ok b, s'') -> ∃ a s', c s = (Ok a, s') ∧ f a s' = (Ok b, s'').
Proof.
  unfold mbind, M_bind. destruct (c s) as [[a|e|x|] s']; intros H; try done.
  eauto.
Qed.

(** [c] only moves the state along the preorder [R] (e.g. it keeps a
    field unchanged), whatever its outcome. *)
Definition respects (R : relation S) {A} (c : M S E A) : Prop :=
  ∀ s o s', c s = (o, s') -> R s s'.

(** [c] never runs out of fuel. *)
Definition fuel_free {A} (c : M S E A) : Prop := ∀ s s', c s ≠ (NoFuel, s').

Context (R : relation S) `{!PreOrder R}.

Lemma respects_ret {A} (a : A) : respects R (mret a).
Proof. by intros s o s' [= _ <-]. Qed.
Lemma respects_get : respects R get_st.
Proof. by intros s o s' [= _ <-]. Qed.
Lemma respects_throw {A} e : respects R (throw (A:=A) e).
Proof. by intros s o s' [= _ <-]. Qed.
Lemma respects_raise {A} x : respects R (raise (A:=A) x).
Proof. by intros s o s' [= _ <-]. Qed.
Lemma respects_lift_py {A} (r : pyexn + A) : respects R (lift_py r).
Proof. by destruct r; intros s o s' [= _ <-]. Qed.
Lemma respects_modify f : (∀ s, R s (f s)) -> respects R (modify_st f).
Proof. intros H s o s' [= _ <-]. apply H. Qed.
Lemma respects_bind {A B} (c : M S E A) (f : A -> M S E B) :
  respects R c -> (∀ a, respects R (f a)) -> respects R (c ≫= f).
Proof.
  intros Hc Hf s o s''. unfold mbind, M_bind.
  destruct (c s) as [[a|e|x|] s'] eqn:Hcs; intros H.
  - etrans; [by eapply Hc|by eapply Hf].
  - injection H as _ <-. by eapply Hc.
  - injection H as _ <-. by eapply Hc.
  - injection H as _ <-. by eapply Hc.
Qed.

Lemma fuel_free_ret {A} (a : A) : fuel_free (mret a).
Proof. done. Qed.
Lemma fuel_free_get : fuel_free get_st.
Proof. done. Qed.
Lemma fuel_free_modify f : fuel_free (modify_st f).
Proof. done. Qed.
Lemma fuel_free_throw {A} e : fuel_free (throw (A:=A) e).
Proof. done. Qed.
Lemma fuel_free_lift_py {A} (r : pyexn + A) : fuel_free (lift_py r).
Proof. by destruct r. Qed.
Lemma fuel_free_bind {A B} (c : M S E A) (f : A -> M S E B) :
  fuel_free c -> (∀ a, fuel_free (f a)) -> fuel_free (c ≫= f).
Proof.
  intros Hc Hf s s''. unfold mbind, M_bind.
  destruct (c s) as [[a|e|x|] s'] eqn:Hcs; try done.
  - apply Hf.
  - by apply Hc in Hcs.
Qed.

(** A chain does not run out of fuel at [s] when its first step does not
    and its continuation does not after any success of that step. *)
Lemma bind_no_fuel {A B} (c : M S E A) (f : A -> M S E B) s s'' :
  (∀ s', c s ≠ (NoFuel, s')) -> (∀ a s', c s = (Ok a, s') -> f a s' ≠ (NoFuel, s'')) ->
  (c ≫= f) s ≠ (NoFuel, s'').
Proof.
  intros Hc Hf. unfold mbind, M_bind.
  destruct (c s) as [[a|e|x|] s'] eqn:Hcs; try done.
  - by apply Hf.
  - by destruct (Hc s').
Qed.
End M_props.

#[export] Hint Resolve respects_modify respects_ret respects_get respects_throw respects_raise
  respects_lift_py respects_bind fuel_free_ret fuel_free_get fuel_free_modify
  fuel_free_throw fuel_free_lift_py fuel_free_bind : imery.


(** Unfold the monad plumbing of a goal and compute the matches. *)
Ltac unfold_M :=
  unfold lift_py, mbind, M_bind, mret, M_ret, get_st, put_st, modify_st, throw,
    raise, out_of_fuel in *; cbn beta iota in *.

(** Case on a [match] of the goal over the result of a monadic call,
    keeping the equation. *)
Ltac case_M :=
  match goal with
  | |- context [match ?c with _ => _ end] =>
      let E := fresh "Hc" in destruct c eqn:E
  end.

(** ** Generic list lemmas shared by the termination measures *)

Section unvisited.
Context {A : Type} `{EqDecision A}.

(** The elements of a universe [U] not yet in [V]. *)
Definition unvisited (U V : list A) : nat :=
  length (filter (λ u, u ∉ V) U).

Lemma unvisited_mono (U V V' : list A) :
  (∀ y, y ∈ V -> y ∈ V') -> unvisited U V' ≤ unvisited U V.
Proof.
  intros Hsub. unfold unvisited. induction U as [|u U IH]; [done|].
  rewrite !filter_cons.
  destruct (decide (u ∉ V')) as [H1|H1], (decide (u ∉ V)) as [H2|H2];
    simpl; try lia; set_solver.
Qed.

(** Visiting a new element of the universe decreases the measure. *)
Lemma unvisited_lt (U V V' : list A) x :
  (∀ y, y ∈ V -> y ∈ V') -> x ∈ U -> x ∉ V -> x ∈ V' ->
  unvisited U V' < unvisited U V.
Proof.
  intros Hsub. unfold unvisited. induction U as [|u U IH]; [by intros ?%elem_of_nil|].
  intros HU HV HV'. rewrite !filter_cons.
  destruct (decide (u = x)) as [->|Hne].
  - rewrite decide_False by (intros Hn; by apply Hn).
    rewrite decide_True by done. simpl.
    pose proof (unvisited_mono U V V' Hsub) as Hle. unfold unvisited in Hle. lia.
  - apply elem_of_cons in HU as [->|HU]; [done|].
    specialize (IH HU HV HV').
    destruct (decide (u ∉ V')) as [H1|H1], (decide (u ∉ V)) as [H2|H2];
      simpl; try lia; set_solver.
Qed.

Lemma unvisited_le_length (U V : list A) : unvisited U V ≤ length U.
Proof. apply length_filter. Qed.
End unvisited.

#[export] Hint Resolve unvisited_mono unvisited_lt : imery.

(** The keys [ks] are new: pairwise distinct and none of them in [old]. *)
Definition fresh_keys {A} (ks old : list A) : Prop := NoDup ks ∧ Forall (λ k, k ∉ old) ks.

#[export] Instance fresh_keys_dec {A} `{EqDecision A} (ks old : list A) :
  Decision (fresh_keys ks old).
Proof. unfold fresh_keys. apply _. Defined.

Lemma fresh_keys_cons {A} (k : A) ks old :
  fresh_keys (k :: ks) old ↔ k ∉ old ∧ fresh_keys ks (old ++ [k]).
Proof.
  unfold fresh_keys. rewrite NoDup_cons, !Forall_forall. split.
  - intros [[Hk Hnd] Hf]. split; [apply Hf; set_solver|].
    split; [done|]. intros x Hx. rewrite elem_of_app, list_elem_of_singleton.
    intros [Hx'| ->]; [|done]. apply (Hf x); set_solver.
  - intros [Hk [Hnd Hf]]. split; [split; [|done]|].
    + intros Hin. apply (Hf k Hin). set_solver.
    + intros x [-> | Hx]%elem_of_cons; [done|]. intros Hx'. apply (Hf x Hx). set_solver.
Qed.

Lemma fresh_keys_app {A} (ks1 ks2 old : list A) :
  fresh_keys (ks1 ++ ks2) old ↔ fresh_keys ks1 old ∧ fresh_keys ks2 (old ++ ks1).
Proof.
  revert old. induction ks1 as [|k ks1 IH]; intros old; simpl.
  - rewrite app_nil_r. unfold fresh_keys. split; [|naive_solver].
    intros H. split; [split; constructor|done].
  - rewrite !fresh_keys_cons, IH, <- app_assoc. naive_solver.
Qed.

Lemma fresh_keys_nil {A} (old : list A) : fresh_keys [] old.
Proof. split; constructor. Qed.

Lemma fresh_keys_NoDup {A} (ks old : list A) :
  NoDup old -> fresh_keys ks old -> NoDup (old ++ ks).
Proof.
  intros Hold [Hks Hf]. apply NoDup_app. split; [done|]. split; [|done].
  intros x Hx Hin. rewrite Forall_forall in Hf. by apply (Hf x Hin).
Qed.

(** A list of the family is part of the concatenation of the family. *)
Lemma join_fmap_elem {A B} (f : A -> list B) (L : list A) x :
  x ∈ L -> (∀ y, y ∈ f x -> y ∈ mjoin (f <$> L)) ∧ length (f x) ≤ length (mjoin (f <$> L)).
Proof.
  induction L as [|a L IH]; [by intros ?%elem_of_nil|].
  intros [->|Hx]%elem_of_cons; rewrite fmap_cons;
    change (mjoin (f ?a :: (f <$> L))) with (f a ++ mjoin (f <$> L)); rewrite length_app.
  - split; [intros y Hy; apply elem_of_app; by left|lia].
  - destruct (IH Hx) as [Hin Hlen].
    split; [intros y Hy; apply elem_of_app; right; by apply Hin|lia].
Qed.

(** Prove [respects R c] or [fuel_free c] for a computation built from
    binds, conditionals and the primitives. *)
Ltac solve_M_prop :=
  repeat first
    [ progress intros
    | solve [eauto with imery]
    | lazymatch goal with |- PreOrder _ => apply _ end
    | apply respects_bind
    | apply fuel_free_bind
    | case_match ].

(** Split a hypothesis [(c ≫= f) s = (Ok b, s'')] into the successful
    steps of the chain, named [Hstep], [Hstep0], ...; the [unit] results
    are destructed. *)
Ltac inv_bind H :=
  lazymatch type of H with
  | (_ ≫= _) _ = (Ok _, _) =>
      let H1 := fresh "Hstep" in
      apply bind_Ok_inv in H as (? & ? & H1 & H); cbv beta in H; try inv_bind H
  end;
  repeat match goal with u : unit |- _ => destruct u end.

#[export] Hint Extern 1 (PreOrder _) => apply _ : imery.

(** Two different members of a list of distinct elements contribute to a
    concatenation without duplicates only disjoint lists. *)
Lemma NoDup_join_fmap_disjoint {A B} (g : A -> list B) (l : list A) x y k :
  NoDup (mjoin (g <$> l)) -> NoDup l -> x ∈ l -> y ∈ l -> x ≠ y -> k ∈ g x -> k ∈ g y -> False.
Proof.
  induction l as [|a l IH]; [by intros _ _ ?%elem_of_nil|].
  rewrite fmap_cons. change (mjoin (g a :: (g <$> l))) with (g a ++ mjoin (g <$> l)).
  intros Hnd [Ha Hl]%NoDup_cons Hx Hy Hxy Hkx Hky.
  apply NoDup_app in Hnd as (Hga & Hdisj & Hrest).
  apply elem_of_cons in Hx as [->|Hx], Hy as [->|Hy]; [done| | |eauto].
  - apply (Hdisj k Hkx). by apply (join_fmap_elem g l y Hy).
  - apply (Hdisj k Hky). by apply (join_fmap_elem g l x Hx).
Qed.

Lemma join_fmap_nonempty {A B} (f : A -> list B) (l : list A) :
  mjoin (f <$> l) ≠ [] -> ∃ x, x ∈ l ∧ f x ≠ [].
Proof.
  induction l as [|a l IH]; [done|].
  rewrite fmap_cons. change (mjoin (f a :: (f <$> l))) with (f a ++ mjoin (f <$> l)).
  destruct (f a) eqn:Hfa.
  - intros H. destruct (IH H) as (x & Hx & Hfx). exists x. split; [by right|done].
  - intros _. exists a. split; [by left|by rewrite Hfa].
Qed.

(** A split [P1 ++ m :: P2] of a list ending in [x] either ends at [m = x]
    or splits the list without its last element. *)
Lemma app_cons_eq_snoc {A} (P1 P2 Q : list A) m x :
  P1 ++ m :: P2 = Q ++ [x] ->
  (P2 = [] ∧ P1 = Q ∧ m = x) ∨ (∃ P2', P2 = P2' ++ [x] ∧ Q = P1 ++ m :: P2').
Proof.
  destruct P2 as [|y P2'] using rev_ind; intros Heq.
  - left. apply app_inj_tail in Heq as [-> ->]. done.
  - right. exists P2'. rewrite app_comm_cons, app_assoc in Heq.
    apply app_inj_tail in Heq as [<- ->]. done.
Qed.

(** A fold that replaces its accumulator by [f x] whenever [f x] is
    defined ends with the value of the last such [x], or with its start
    value when there is none. *)
Lemma foldl_default_last {A B} (step : B -> A -> B) (f : A -> option B) (b0 b : B) (P : list A) :
  (∀ a x, step a x = default a (f x)) ->
  foldl step b0 P = b ↔
  (∃ P1 x P2, P = P1 ++ x :: P2 ∧ f x = Some b ∧ Forall (λ y, f y = None) P2) ∨
  (b = b0 ∧ Forall (λ y, f y = None) P).
Proof.
  intros Hs. induction P as [|x Q IH] using rev_ind.
  - split; [intros <-; by right|]. intros [(P1 & x & P2 & Heq & _)|[-> _]]; [by destruct P1|done].
  - rewrite foldl_app. cbn [foldl]. rewrite Hs. destruct (f x) as [b'|] eqn:Hx; cbn [default id].
    + split.
      * intros <-. left. by exists Q, x, [].
      * intros [(P1 & y & P2 & Heq & Hy & Hf)|[_ Hf]].
        -- symmetry in Heq.
           apply app_cons_eq_snoc in Heq as [(-> & -> & ->)|(P2' & -> & ->)]; [congruence|].
           apply Forall_app in Hf as [_ Hf%Forall_inv]. congruence.
        -- apply Forall_app in Hf as [_ Hf%Forall_inv]. congruence.
    + rewrite IH. split.
      * intros [(P1 & y & P2 & -> & Hy & Hf)|[-> Hf]].
        -- left. exists P1, y, (P2 ++ [x]). rewrite <- app_assoc.
           repeat split; [done|]. apply Forall_app. by split; [|constructor].
        -- right. split; [done|]. apply Forall_app. by split; [|constructor].
      * intros [(P1 & y & P2 & Heq & Hy & Hf)|[-> Hf]].
        -- left. symmetry in Heq.
           apply app_cons_eq_snoc in Heq as [(-> & -> & ->)|(P2' & -> & ->)]; [congruence|].
           apply Forall_app in Hf as [Hf _]. by exists P1, y, P2'.
        -- right. apply Forall_app in Hf as [Hf _]. done.
Qed.

Lemma omap_fmap {A B C} (f : B -> option C) (g : A -> B) (l : list A) :
  omap f (g <$> l) = omap (f ∘ g) l.
Proof. induction l as [|a l IH]; csimpl; [done|]. unfold compose at 1. by destruct (f (g a)); rewrite IH. Qed.

(** A member of [l] on which [f] is defined gives an element of
    [omap f l]. *)
Lemma omap_one {A B} (f : A -> option B) (l : list A) z b :
  z ∈ l -> f z = Some b -> 1 ≤ length (omap f l).
Proof.
  intros Hz Hf. induction l as [|a l IH]; [by apply elem_of_nil in Hz|].
  csimpl. destruct (f a) eqn:Ha; csimpl; [lia|].
  apply elem_of_cons in Hz as [->|Hz]; [congruence|auto].
Qed.

(** Two different members of a list of distinct elements on which [f] is
    defined give two elements of [omap f]. *)
Lemma omap_two {A B} (f : A -> option B) (l : list A) x y :
  NoDup l -> x ∈ l -> y ∈ l -> x ≠ y -> is_Some (f x) -> is_Some (f y) ->
  2 ≤ length (omap f l).
Proof.
  intros Hnd Hx Hy Hne [bx Hfx] [by' Hfy].
  induction l as [|a l IH]; [by apply elem_of_nil in Hx|]. apply NoDup_cons in Hnd as [Ha Hnd].
  apply elem_of_cons in Hx as [->|Hx], Hy as [->|Hy]; [done| | |]; csimpl.
  - rewrite Hfx. csimpl. pose proof (omap_one _ _ _ _ Hy Hfy). lia.
  - rewrite Hfy. csimpl. pose proof (omap_one _ _ _ _ Hx Hfx). lia.
  - destruct (f a); csimpl; [|auto]. pose proof (IH Hnd Hx Hy). lia.
Qed.
