(* ===== verification/PyDict.v ===== *)
(** * Python dictionaries as insertion-ordered association lists

    Python's [dict] remembers the order in which keys were first inserted;
    assigning to an existing key changes the value in place and keeps the
    position.  The aggregator's output depends on that order ([yaml.dump]
    with [sort_keys=False]), so a dict is modelled as a list of pairs, and
    an abstraction function to stdpp's [gmap] gives the map view: the
    refinement lemmas show that each dict operation implements the
    corresponding [gmap] operation. *)

From stdpp Require Import base list strings gmap.
From S2P Require Import Prelude.

(** A dict is its list of items in iteration order. *)
Notation dict K A := (list (K * A)) (only parsing).

Section dict.
Context {K : Type} `{Countable K} {A : Type}.

Definition dict_empty : dict K A := [].

(** [d.get(k)] / [d[k]]: the first binding of [k]. *)
Fixpoint dict_get (k : K) (d : dict K A) : option A :=
  match d with
  | [] => None
  | (k', v) :: rest => if decide (k = k') then Some v else dict_get k rest
  end.

(** [k in d] *)
Definition dict_mem (k : K) (d : dict K A) : bool :=
  match dict_get k d with Some _ => true | None => false end.

(** [d[k] = v]: in place when [k] is present, appended otherwise. *)
Fixpoint dict_set (k : K) (v : A) (d : dict K A) : dict K A :=
  match d with
  | [] => [(k, v)]
  | (k', v') :: rest =>
      if decide (k = k') then (k, v) :: rest else (k', v') :: dict_set k v rest
  end.

(** [d.keys()], [d.items()] in iteration order. *)
Definition dict_keys (d : dict K A) : list K := map fst d.

(** [bool(d)]: a dict is truthy when it is not empty. *)
Definition dict_truthy (d : dict K A) : bool :=
  match d with [] => false | _ => true end.

(** Well-formedness: every key is bound once. *)
Definition dict_wf (d : dict K A) : Prop := NoDup (dict_keys d).

(** The map a dict denotes. *)
Definition dict_to_map (d : dict K A) : gmap K A := list_to_map d.

Lemma dict_get_spec k d : dict_get k d = dict_to_map d !! k.
Proof.
  unfold dict_to_map in *.
  induction d as [|[k' v] d IH]; simpl; [done|].
  case_decide as Hk; subst.
  - by rewrite lookup_insert_eq.
  - rewrite lookup_insert_ne by done. done.
Qed.

(** Refinement: [dict_set] implements [gmap] insertion. *)
Lemma dict_set_to_map k v d :
  dict_to_map (dict_set k v d) = <[k:=v]> (dict_to_map d).
Proof.
  unfold dict_to_map. induction d as [|[k' v'] d IH]; simpl; [done|].
  case_decide as Hk; subst; simpl.
  - by rewrite insert_insert_eq.
  - rewrite IH. by rewrite insert_insert_ne.
Qed.

Lemma dict_get_set_eq k v d : dict_get k (dict_set k v d) = Some v.
Proof. by rewrite dict_get_spec, dict_set_to_map, lookup_insert_eq. Qed.

Lemma dict_get_set_ne k k' v d :
  k ≠ k' -> dict_get k' (dict_set k v d) = dict_get k' d.
Proof.
  intros Hne. rewrite !dict_get_spec, dict_set_to_map.
  by rewrite lookup_insert_ne.
Qed.

Lemma dict_mem_get k d : dict_mem k d = true ↔ ∃ v, dict_get k d = Some v.
Proof.
  unfold dict_mem. destruct (dict_get k d); split; intros; eauto.
  - done.
  - by destruct H0.
Qed.

Lemma dict_get_elem k v d : dict_get k d = Some v -> k ∈ dict_keys d.
Proof.
  induction d as [|[k' v'] d IH]; simpl; [done|].
  case_decide; subst; intros Hg; apply elem_of_cons; [by left|right; auto].
Qed.

Lemma dict_get_None k d : dict_get k d = None ↔ k ∉ dict_keys d.
Proof.
  induction d as [|[k' v'] d IH]; simpl; [set_solver|].
  case_decide; subst; [split; [done|set_solver]|].
  rewrite IH. set_solver.
Qed.

(** Insertion order: a present key keeps its position, a new key is
    appended at the end. *)
Lemma dict_keys_set k v d :
  dict_keys (dict_set k v d) =
    if decide (k ∈ dict_keys d) then dict_keys d else dict_keys d ++ [k].
Proof.
  induction d as [|[k' v'] d IH]; simpl; [done|].
  destruct (decide (k = k')) as [->|Hne]; simpl.
  - rewrite decide_True by set_solver. done.
  - rewrite IH. destruct (decide (k ∈ dict_keys d)).
    + by rewrite decide_True by set_solver.
    + by rewrite decide_False by set_solver.
Qed.

Lemma dict_set_wf k v d : dict_wf d -> dict_wf (dict_set k v d).
Proof.
  unfold dict_wf. rewrite dict_keys_set. case_decide; [done|].
  intros Hnd. apply NoDup_app. split; [done|]. split; [|apply NoDup_singleton].
  intros x Hx ->%list_elem_of_singleton. done.
Qed.

Lemma dict_wf_empty : dict_wf dict_empty.
Proof. constructor. Qed.

Lemma dict_get_In k v d : dict_get k d = Some v -> (k, v) ∈ d.
Proof.
  induction d as [|[k' v'] d IH]; simpl; [done|].
  case_decide; subst; intros Hg; apply elem_of_cons; [injection Hg as ->; by left|right; auto].
Qed.

Lemma dict_In_get k v d : dict_wf d -> (k, v) ∈ d -> dict_get k d = Some v.
Proof.
  unfold dict_wf, dict_keys.
  induction d as [|[k' v'] d IH]; simpl; [set_solver|].
  intros Hnd Hin. apply NoDup_cons in Hnd as [Hn Hnd].
  apply elem_of_cons in Hin as [Heq|Hin].
  - injection Heq as -> ->. by rewrite decide_True.
  - rewrite decide_False; [by apply IH|].
    intros <-. apply Hn. apply list_elem_of_In, in_map_iff.
    exists (k, v). split; [done|]. by apply list_elem_of_In.
Qed.

(** Assigning a fresh key appends the binding. *)
Lemma dict_set_fresh k v d : k ∉ dict_keys d -> dict_set k v d = d ++ [(k, v)].
Proof.
  induction d as [|[k' v'] d IH]; simpl; [done|].
  intros Hk. rewrite decide_False by set_solver. f_equal. apply IH. set_solver.
Qed.

Lemma dict_mem_keys k d : dict_mem k d = bool_decide (k ∈ dict_keys d).
Proof.
  unfold dict_mem. destruct (dict_get k d) eqn:Hg.
  - symmetry. apply bool_decide_eq_true. by eapply dict_get_elem.
  - symmetry. apply bool_decide_eq_false. by apply dict_get_None.
Qed.

Lemma dict_keys_app d1 d2 : dict_keys (d1 ++ d2) = dict_keys d1 ++ dict_keys d2.
Proof. apply map_app. Qed.

Lemma dict_keys_join (ds : list (dict K A)) : dict_keys (mjoin ds) = mjoin (dict_keys <$> ds).
Proof. induction ds as [|d ds IH]; simpl; [done|]. by rewrite dict_keys_app, IH. Qed.

Lemma dict_keys_join_elem {B} (f : B -> dict K A) (l : list B) x k :
  x ∈ l -> k ∈ dict_keys (f x) -> k ∈ dict_keys (mjoin (f <$> l)).
Proof.
  intros Hx Hk. rewrite dict_keys_join.
  destruct (join_fmap_elem dict_keys (f <$> l) (f x)) as [Hin _];
    [by apply list_elem_of_fmap_2|by apply Hin].
Qed.

Lemma dict_set_length k v d :
  length (dict_set k v d) = if dict_mem k d then length d else S (length d).
Proof.
  unfold dict_mem. induction d as [|[k' v'] d IH]; simpl; [done|].
  case_decide; simpl; [done|]. rewrite IH. by destruct (dict_get k d).
Qed.
(** The dict model refines stdpp's [gmap]: [d.get(k)] is the lookup
    of the map it denotes, [d[k] = v] is insertion, and assignment keeps
    Python's insertion order: a present key keeps its position, a new key
    goes last, and keys stay distinct. *)
Theorem dict_refines_gmap k v d :
  dict_get k d = dict_to_map d !! k ∧
  dict_to_map (dict_set k v d) = <[k:=v]> (dict_to_map d) ∧
  dict_keys (dict_set k v d) =
    (if decide (k ∈ dict_keys d) then dict_keys d else dict_keys d ++ [k]) ∧
  (dict_wf d -> dict_wf (dict_set k v d)).
Proof.
  split; [apply dict_get_spec|]. split; [apply dict_set_to_map|].
  split; [apply dict_keys_set|apply dict_set_wf].
Qed.

End dict.


#[export] Hint Resolve dict_set_wf dict_wf_empty : imery.
#[export] Hint Rewrite @dict_get_set_eq @dict_set_to_map : imery_rw.

(** Assigning the items of [ws] in order, through [g]: a key ends up with
    the value of its last occurrence in [ws], or keeps its old value when
    it does not occur. *)
Lemma dict_get_foldl_set {K A B} `{Countable K} (g : B -> A) (k : K) (D : dict K A)
    (ws : dict K B) :
  dict_get k (foldl (λ acc kv, dict_set kv.1 (g kv.2) acc) D ws) =
  match dict_get k (reverse ws) with Some v => Some (g v) | None => dict_get k D end.
Proof.
  induction ws as [|[k' v] ws IH] using rev_ind; [done|].
  rewrite foldl_app, reverse_app. cbn [foldl reverse fst snd]. simpl.
  case_decide as Hk; [subst; apply dict_get_set_eq|]. rewrite dict_get_set_ne; done.
Qed.

(** Assigning new and distinct keys appends them in order. *)
Lemma foldl_dict_set_fresh {K A B} `{Countable K} (g : B -> A) (D : dict K A) (ws : dict K B) :
  fresh_keys (dict_keys ws) (dict_keys D) ->
  foldl (λ acc kv, dict_set kv.1 (g kv.2) acc) D ws = D ++ ((λ kv, (kv.1, g kv.2)) <$> ws).
Proof.
  revert D. induction ws as [|[k v] ws IH]; intros D Hf; cbn [foldl]; [by rewrite app_nil_r|].
  unfold dict_keys in Hf. cbn [map fst] in Hf. apply fresh_keys_cons in Hf as [Hk Hf].
  rewrite dict_set_fresh by done. rewrite IH, <- app_assoc; [done|].
  unfold dict_keys. by rewrite map_app.
Qed.

(** Assigning a value with a property keeps every value with it. *)
Lemma dict_set_values {K A} `{Countable K} (P : A -> Prop) k v (d : dict K A) :
  Forall (λ kv, P kv.2) d -> P v -> Forall (λ kv, P kv.2) (dict_set k v d).
Proof.
  induction d as [|[k' v'] d IH]; intros Hd Hv; simpl; [by constructor|].
  inversion Hd; subst. case_decide; constructor; auto.
Qed.

Lemma dict_refines_gmap_witness :
  let d : dict string nat := [("a", 0); ("b", 1)] in
  dict_get "c" d = dict_to_map d !! "c" ∧
  dict_to_map (dict_set "c" 2 d) = <["c":=2]> (dict_to_map d) ∧
  dict_keys (dict_set "c" 2 d) =
    (if decide ("c" ∈ dict_keys d) then dict_keys d else dict_keys d ++ ["c"]) ∧
  (dict_wf d -> dict_wf (dict_set "c" 2 d)).
Proof. apply dict_refines_gmap. Defined.

