(* ===== verification/PyValue.v ===== *)
(** * YAML documents as Python values

    [yaml.safe_load] turns a module file into nested Python values; the
    resolvers then call [.get], [.items], [in], iteration and truthiness on
    them, and every one of these can raise when the value has another
    shape than expected.  This file holds the value type and those Python
    operations, each returning [inl] of the exception it raises. *)

From stdpp Require Import base list strings gmap.
From Stdlib Require Import ZArith.
From S2P Require Import Prelude PyDict.

(** The values [yaml.safe_load] produces: [None], booleans, integers,
    strings, lists and dicts (with string keys; floats, dates and
    non-string keys are not modelled). *)
#[local] Set Warnings "-register-all".
Inductive yaml : Type :=
  | YNone
  | YBool (b : bool)
  | YInt (z : Z)
  | YStr (s : string)
  | YList (l : list yaml)
  | YDict (d : dict string yaml).

#[export] Instance YStr_inj : Inj (=) (=) YStr.
Proof. by intros ?? [=]. Qed.

(** Nested induction: the generated principle says nothing about the
    elements of [YList] and the values of [YDict]. *)
Section yaml_ind.
Variable P : yaml -> Prop.
Hypothesis HNone : P YNone.
Hypothesis HBool : ∀ b, P (YBool b).
Hypothesis HInt : ∀ z, P (YInt z).
Hypothesis HStr : ∀ s, P (YStr s).
Hypothesis HList : ∀ l, Forall P l -> P (YList l).
Hypothesis HDict : ∀ d, Forall (λ kv, P kv.2) d -> P (YDict d).

Fixpoint yaml_nested_ind (y : yaml) : P y :=
  match y with
  | YNone => HNone
  | YBool b => HBool b
  | YInt z => HInt z
  | YStr s => HStr s
  | YList l =>
      HList l ((fix go (l : list yaml) : Forall P l :=
                  match l with
                  | [] => Forall_nil_2 _
                  | y :: l' => Forall_cons_2 _ _ _ (yaml_nested_ind y) (go l')
                  end) l)
  | YDict d =>
      HDict d ((fix go (d : list (string * yaml)) : Forall (λ kv, P kv.2) d :=
                  match d with
                  | [] => Forall_nil_2 _
                  | kv :: d' => Forall_cons_2 _ _ _ (yaml_nested_ind kv.2) (go d')
                  end) d)
  end.
End yaml_ind.

(** [bool(v)]: [None], [False], [0], [""], [[]] and [{}] are falsy. *)
Definition truthy (v : yaml) : bool :=
  match v with
  | YNone => false
  | YBool b => b
  | YInt z => negb (Z.eqb z 0)
  | YStr s => negb (bool_decide (s = ""%string))
  | YList l => negb (bool_decide (l = []))
  | YDict d => dict_truthy d
  end.

(** [obj.get(key, default)]: only dicts have [.get]. *)
Definition py_get (obj : yaml) (key : string) (default : yaml) : pyexn + yaml :=
  match obj with
  | YDict d => inr (match dict_get key d with Some v => v | None => default end)
  | _ => inl AttributeError
  end.

(** [obj.items()]: only dicts have [.items]. *)
Definition py_items (obj : yaml) : pyexn + dict string yaml :=
  match obj with
  | YDict d => inr d
  | _ => inl AttributeError
  end.

(** The one-character strings of a string, as iterating over it yields. *)
Fixpoint string_chars (s : string) : list string :=
  match s with
  | EmptyString => []
  | String c s' => String c EmptyString :: string_chars s'
  end.

(** [iter(obj)]: lists yield their elements, strings their characters,
    dicts their keys; [None], booleans and integers are not iterable. *)
Definition py_iter (obj : yaml) : pyexn + list yaml :=
  match obj with
  | YList l => inr l
  | YStr s => inr (YStr <$> string_chars s)
  | YDict d => inr (YStr <$> dict_keys d)
  | _ => inl TypeError
  end.

(** A value used as a module name: [name in visited] raises [TypeError]
    on the unhashable lists and dicts, and [name.replace('.', '/')] raises
    [AttributeError] on every other non-string. *)
Definition module_name_of (v : yaml) : pyexn + string :=
  match v with
  | YStr s => inr s
  | YList _ | YDict _ => inl TypeError
  | _ => inl AttributeError
  end.

(** The string inside a string value. *)
Definition str_of (v : yaml) : option string :=
  match v with YStr s => Some s | _ => None end.

Lemma str_of_fmap (q : list string) : omap str_of (YStr <$> q) = q.
Proof. induction q; simpl; f_equal; auto. Qed.

Lemma str_of_elem m (l : list yaml) : YStr m ∈ l -> m ∈ omap str_of l.
Proof. intros H. apply list_elem_of_omap. by exists (YStr m). Qed.

Lemma str_of_elem_inv m (l : list yaml) : m ∈ omap str_of l -> YStr m ∈ l.
Proof. intros (v & Hv & Hs)%list_elem_of_omap. by destruct v; simplify_eq/=. Qed.

Lemma length_omap_le {A B} (f : A -> option B) (l : list A) : length (omap f l) ≤ length l.
Proof. induction l as [|a l IH]; csimpl; [done|]. destruct (f a); csimpl; lia. Qed.

(** The items of [content.get(key, {})] when it is a dict. *)
Definition section_items (content : yaml) (key : string) : dict string yaml :=
  match py_get content key (YDict []) with inr (YDict d) => d | _ => [] end.

(** [v is not None]: the value itself, [None] for Python's [None]. *)
Definition not_none (v : yaml) : option yaml :=
  match v with YNone => None | _ => Some v end.

Lemma truthy_YList l : truthy (YList l) = true ↔ l ≠ [].
Proof. simpl. rewrite negb_true_iff, bool_decide_eq_false. done. Qed.

Lemma truthy_YDict d : truthy (YDict d) = true ↔ d ≠ [].
Proof. simpl. destruct d; simpl; split; congruence. Qed.

Lemma py_get_dict d k default :
  py_get (YDict d) k default =
    inr (match dict_get k d with Some v => v | None => default end).
Proof. done. Qed.

Lemma py_get_not_dict obj k default :
  (∀ d, obj ≠ YDict d) -> py_get obj k default = inl AttributeError.
Proof. destruct obj; simpl; try done. intros H. by destruct (H d). Qed.

Lemma py_items_inr obj d : py_items obj = inr d -> obj = YDict d.
Proof. destruct obj; simpl; congruence. Qed.

Lemma string_chars_length s : length (string_chars s) = String.length s.
Proof. induction s; simpl; auto. Qed.

(** The values [yaml.safe_load] can produce have dicts whose keys are
    distinct, at every depth. *)
Fixpoint yaml_wfb (v : yaml) : bool :=
  match v with
  | YList l => forallb yaml_wfb l
  | YDict d => bool_decide (NoDup (dict_keys d)) && forallb (λ kv, yaml_wfb kv.2) d
  | _ => true
  end.

Definition yaml_wf (v : yaml) : Prop := yaml_wfb v = true.

#[export] Instance yaml_wf_dec v : Decision (yaml_wf v).
Proof. unfold yaml_wf. apply _. Defined.

Lemma yaml_wf_list l : yaml_wf (YList l) ↔ Forall yaml_wf l.
Proof. unfold yaml_wf. simpl. rewrite forallb_forall, Forall_forall. by setoid_rewrite list_elem_of_In. Qed.

Lemma yaml_wf_dict d :
  yaml_wf (YDict d) ↔ NoDup (dict_keys d) ∧ Forall (λ kv, yaml_wf kv.2) d.
Proof.
  unfold yaml_wf. simpl. rewrite andb_true_iff, bool_decide_eq_true, forallb_forall, Forall_forall.
  by setoid_rewrite list_elem_of_In.
Qed.

#[export] Hint Rewrite py_get_dict : imery_rw.
