(* ===== verification/Paths.v ===== *)
(** * Paths, the filesystem, the module locator and the module loaders

    [pathlib.Path] values are modelled by their normal form: an absolute
    flag and the list of parts, empty and ["."] parts dropped, as
    [PurePosixPath] normalises them.  [p / s] appends the parts of [s], or
    restarts from [s] when [s] is absolute.  The filesystem is a finite
    association list from paths to entries; a file entry holds what
    [yaml.safe_load] makes of its bytes (the parser itself is external).

    Locator: [find_first] is the search loop that both resolvers contain
    (lang.py lines 67-75, aggregate_demo_yaml.py lines 34-43).  Loaders:
    [lang_load] (lang.py lines 80-88) and [aggregator_load_yaml]
    (aggregate_demo_yaml.py lines 45-53). *)

From stdpp Require Import base list strings gmap countable.
From Stdlib Require Import Ascii.
From S2P Require Import Prelude PyDict PyValue.

(** ** Paths *)

Record path := mk_path { p_abs : bool; p_parts : list string }.

#[export] Instance path_eq_dec : EqDecision path.
Proof. solve_decision. Defined.

#[export] Instance path_countable : Countable path :=
  inj_countable' (λ p, (p_abs p, p_parts p)) (λ x, mk_path x.1 x.2)
    (λ p, match p with mk_path _ _ => eq_refl end).

(** The components of a string separated by ['/'] (possibly empty). *)
Fixpoint split_slash_go (s acc : string) : list string :=
  match s with
  | EmptyString => [acc]
  | String c s' =>
      if Ascii.eqb c "/"%char then acc :: split_slash_go s' ""%string
      else split_slash_go s' (acc +:+ String c EmptyString)
  end.

Definition split_slash (s : string) : list string := split_slash_go s ""%string.

Definition starts_with_slash (s : string) : bool :=
  match s with String c _ => Ascii.eqb c "/"%char | EmptyString => false end.

(** [PurePosixPath(s)]: empty and ["."] components are dropped. *)
Definition path_of_string (s : string) : path :=
  {| p_abs := starts_with_slash s;
     p_parts := filter (λ x, x ≠ ""%string ∧ x ≠ "."%string) (split_slash s) |}.

(** [p / s] *)
Definition path_div (p : path) (s : string) : path :=
  let q := path_of_string s in
  if p_abs q then q else {| p_abs := p_abs p; p_parts := p_parts p ++ p_parts q |}.

(** [p.name]: the last component, [""] for a path with none. *)
Definition path_name (p : path) : string := List.last (p_parts p) ""%string.

(** [str(p)]: the parts joined by ['/'], after a ['/'] when absolute;
    ["."] for the empty relative path. *)
Definition path_to_string (p : path) : string :=
  match p_abs p, p_parts p with
  | false, [] => "."
  | abs, parts => (if abs then "/" else "") +:+ String.concat "/" parts
  end.

(** ** Module names to relative file names *)

(** [s.replace('.', '/')] *)
Fixpoint replace_dots (s : string) : string :=
  match s with
  | EmptyString => EmptyString
  | String c s' =>
      String (if Ascii.eqb c "."%char then "/"%char else c) (replace_dots s')
  end.

(** [f"{module_name.replace('.', '/')}.yaml"] *)
Definition module_file_name (module_name : string) : string :=
  replace_dots module_name +:+ ".yaml"%string.

(** ** The filesystem *)

(** What [yaml.safe_load] makes of a file: a value, or an exception
    (malformed YAML, unreadable bytes). *)
Inductive file_content :=
  | Parsed (v : yaml)
  | Unparsable.

Inductive entry :=
  | EDir
  | EFile (c : file_content).

Record filesystem := mk_fs { fs_entries : dict path entry }.

Definition fs_lookup (fs : filesystem) (p : path) : option entry :=
  dict_get p (fs_entries fs).

(** [p.exists()] holds for files and directories alike. *)
Definition path_exists (fs : filesystem) (p : path) : bool :=
  match fs_lookup fs p with Some _ => true | None => false end.

(** [p.is_dir()] *)
Definition path_is_dir (fs : filesystem) (p : path) : bool :=
  match fs_lookup fs p with Some EDir => true | _ => false end.

(** A directory exists. *)
Lemma path_is_dir_exists fs p : path_is_dir fs p = true -> path_exists fs p = true.
Proof. unfold path_is_dir, path_exists. by destruct (fs_lookup fs p). Qed.

(** [p.parent]: the path without its last component; the root and the
    empty relative path are their own parent. *)
Definition path_parent (p : path) : path := mk_path (p_abs p) (removelast (p_parts p)).

(** The filesystem after [p] is created or overwritten as [e]. *)
Definition fs_set (fs : filesystem) (p : path) (e : entry) : filesystem :=
  mk_fs (dict_set p e (fs_entries fs)).

Lemma fs_lookup_set fs p q e :
  fs_lookup (fs_set fs p e) q = if decide (p = q) then Some e else fs_lookup fs q.
Proof.
  unfold fs_lookup, fs_set. cbn. case_decide as Hpq; [subst; apply dict_get_set_eq|].
  by apply dict_get_set_ne.
Qed.

(** ** The locator

    [for d in dirs: candidate = d / rel; if candidate.exists(): return candidate]
    then [None]. *)
Fixpoint find_first (fs : filesystem) (dirs : list path) (rel : string) : option path :=
  match dirs with
  | [] => None
  | d :: dirs' =>
      let candidate := path_div d rel in
      if path_exists fs candidate then Some candidate else find_first fs dirs' rel
  end.

(** The module file of [module_name] in the search paths. *)
Definition find_module_file (fs : filesystem) (dirs : list path) (module_name : string)
  : option path :=
  find_first fs dirs (module_file_name module_name).

(** ** The loaders *)

(** [if module_content is None: module_content = {}] *)
Definition none_to_empty (v : yaml) : yaml :=
  match v with YNone => YDict [] | _ => v end.

(** lang.py: [open] + [yaml.safe_load] inside [try]; any exception (a
    directory, a parse error) becomes an error result ([None] here); a
    [None] document becomes [{}]. *)
Definition lang_load (fs : filesystem) (file : path) : option yaml :=
  match fs_lookup fs file with
  | Some (EFile (Parsed v)) => Some (none_to_empty v)
  | _ => None
  end.

(** aggregate_demo_yaml.py [load_yaml]: exceptions are printed and give
    [{}]; [content or {}] also turns every falsy document into [{}]. *)
Definition aggregator_load_yaml (fs : filesystem) (file : path) : yaml :=
  match fs_lookup fs file with
  | Some (EFile (Parsed v)) => if truthy v then v else YDict []
  | _ => YDict []
  end.

(** ** Locator lemmas *)

Lemma find_first_None fs dirs rel :
  find_first fs dirs rel = None ↔
  Forall (λ d, path_exists fs (path_div d rel) = false) dirs.
Proof.
  induction dirs as [|d dirs IH]; simpl; [split; auto|].
  destruct (path_exists fs (path_div d rel)) eqn:He.
  - split; [done|]. intros Hf. inversion Hf; congruence.
  - rewrite IH. split; [by constructor|]. by inversion 1.
Qed.

(** C10: the locator returns the candidate [d / "<name with / for .>.yaml"]
    of the first search path [d] where it exists: no earlier search path
    has the file. *)
Theorem find_module_file_first fs dirs m file :
  find_module_file fs dirs m = Some file ->
  ∃ pre d post, dirs = pre ++ d :: post ∧ file = path_div d (module_file_name m) ∧
    path_exists fs file = true ∧
    Forall (λ d', path_exists fs (path_div d' (module_file_name m)) = false) pre.
Proof.
  unfold find_module_file. generalize (module_file_name m) as rel.
  induction dirs as [|d dirs IH]; intros rel; simpl; [done|].
  destruct (path_exists fs (path_div d rel)) eqn:He.
  - intros [= <-]. by exists [], d, dirs.
  - intros Hf. destruct (IH rel Hf) as (pre & d' & post & -> & -> & Hx & Hpre).
    exists (d :: pre), d', post. repeat split; auto.
Qed.

(** ... and it reports no file only when no search path has one. *)
Lemma find_module_file_None fs dirs m :
  find_module_file fs dirs m = None ↔
  Forall (λ d, path_exists fs (path_div d (module_file_name m)) = false) dirs.
Proof. apply find_first_None. Qed.

(** C11: a module name starting with a dot names an absolute file: its
    candidate is the same under every search path, so the search paths do
    not confine the files a module can load. *)
Theorem module_file_leading_dot d1 d2 s :
  path_div d1 (module_file_name (String "." s)) = path_div d2 (module_file_name (String "." s)).
Proof. unfold path_div. simpl. done. Qed.

Definition demo_search : list path := [path_of_string "builtin"; path_of_string "demo"].
Definition demo_locate_fs : filesystem := mk_fs [
  (path_div (path_of_string "demo") "widgets/buttons.yaml", EFile (Parsed YNone));
  (path_div (path_of_string "builtin") "widgets/buttons.yaml", EDir)].

Lemma find_module_file_first_witness :
  ∃ pre d post, demo_search = pre ++ d :: post ∧
    path_div (path_of_string "builtin") "widgets/buttons.yaml" =
      path_div d (module_file_name "widgets.buttons") ∧
    path_exists demo_locate_fs (path_div (path_of_string "builtin") "widgets/buttons.yaml") = true ∧
    Forall (λ d', path_exists demo_locate_fs (path_div d' (module_file_name "widgets.buttons")) = false) pre.
Proof.
  apply (find_module_file_first demo_locate_fs demo_search "widgets.buttons").
  vm_compute. reflexivity.
Defined.

Lemma module_file_leading_dot_run :
  path_div (path_of_string "demo") (module_file_name ".etc.passwd") =
    {| p_abs := true; p_parts := ["etc"; "passwd.yaml"] |}.
Proof. vm_compute. reflexivity. Qed.

(** ** Printing and parsing paths *)

Fixpoint no_slash (s : string) : bool :=
  match s with
  | EmptyString => true
  | String c s' => negb (Ascii.eqb c "/"%char) && no_slash s'
  end.

(** The parts of a normal path: not empty, not ["."], without ['/']. *)
Definition normal_part (x : string) : Prop := x ≠ ""%string ∧ x ≠ "."%string ∧ no_slash x = true.

Lemma str_app_cons c (a b : string) : String c a +:+ b = String c (a +:+ b).
Proof. reflexivity. Qed.
Lemma str_app_empty (b : string) : EmptyString +:+ b = b.
Proof. reflexivity. Qed.

Lemma str_app_assoc (a b c : string) : a +:+ (b +:+ c) = (a +:+ b) +:+ c.
Proof. induction a; rewrite ?str_app_cons, ?str_app_empty; congruence. Qed.

Lemma str_app_nil (a : string) : a +:+ EmptyString = a.
Proof. induction a; rewrite ?str_app_cons, ?str_app_empty; congruence. Qed.

Lemma split_slash_go_app x s acc :
  no_slash x = true -> split_slash_go (x +:+ s) acc = split_slash_go s (acc +:+ x).
Proof.
  revert acc. induction x as [|c x IH]; intros acc Hx; [by rewrite str_app_empty, str_app_nil|].
  rewrite str_app_cons. simpl in Hx |- *.
  apply andb_true_iff in Hx as [Hc Hx]. apply negb_true_iff in Hc. rewrite Hc.
  rewrite IH by done. by rewrite <- str_app_assoc, str_app_cons, str_app_empty.
Qed.

Lemma split_slash_go_slash s acc :
  split_slash_go (String "/" s) acc = acc :: split_slash_go s "".
Proof. reflexivity. Qed.

Lemma split_slash_go_concat x xs acc :
  Forall (λ y, no_slash y = true) (x :: xs) ->
  split_slash_go (String.concat "/" (x :: xs)) acc = (acc +:+ x) :: xs.
Proof.
  revert x acc. induction xs as [|y xs IH]; intros x acc Hf; inversion Hf as [|? ? Hx Hxs]; subst.
  - simpl. rewrite <- (str_app_nil x) at 1. by rewrite split_slash_go_app.
  - change (String.concat "/" (x :: y :: xs)) with (x +:+ String "/" (String.concat "/" (y :: xs))).
    rewrite split_slash_go_app by done. rewrite split_slash_go_slash, IH by done.
    by rewrite str_app_empty.
Qed.

Lemma split_slash_go_no_slash s acc :
  no_slash acc = true -> Forall (λ y, no_slash y = true) (split_slash_go s acc).
Proof.
  revert acc. induction s as [|c s IH]; intros acc Hacc; simpl; [by constructor|].
  destruct (Ascii.eqb c "/"%char) eqn:Hc.
  - constructor; [done|]. by apply IH.
  - apply IH. clear IH. induction acc as [|a acc IHa]; simpl in *; [by rewrite Hc|].
    apply andb_true_iff in Hacc as [Ha Hacc]. rewrite Ha. by apply IHa.
Qed.

Lemma path_of_string_normal s : Forall normal_part (p_parts (path_of_string s)).
Proof.
  unfold path_of_string, split_slash. simpl.
  pose proof (split_slash_go_no_slash s ""%string eq_refl) as H.
  induction H as [|x l Hx Hl IH]; [constructor|]. rewrite filter_cons.
  case_decide as Hd; [|exact IH]. constructor; [|exact IH]. destruct Hd. by repeat split.
Qed.

Lemma filter_normal_parts (l : list string) :
  Forall normal_part l -> filter (λ x, x ≠ ""%string ∧ x ≠ "."%string) l = l.
Proof.
  induction 1 as [|x l [Hx1 [Hx2 _]] Hl IH]; [done|].
  rewrite filter_cons, decide_True by done. by rewrite IH.
Qed.

Lemma starts_with_slash_part x rest :
  normal_part x -> starts_with_slash (x +:+ rest) = false.
Proof.
  intros [Hne [_ Hs]]. destruct x as [|c x]; [done|]. rewrite str_app_cons. simpl in *.
  apply andb_true_iff in Hs as [Hc _]. by apply negb_true_iff in Hc.
Qed.

Lemma path_of_string_to_string p :
  Forall normal_part (p_parts p) -> path_of_string (path_to_string p) = p.
Proof.
  destruct p as [abs [|x xs]]; intros Hp; unfold path_to_string; cbn [p_abs p_parts].
  - by destruct abs.
  - assert (Hs : Forall (λ y, no_slash y = true) (x :: xs))
      by (eapply Forall_impl; [|exact Hp]; by intros y [_ [_ ?]]).
    unfold path_of_string, split_slash. destruct abs; rewrite ?str_app_empty.
    + rewrite (str_app_cons "/"%char EmptyString), str_app_empty. cbn [starts_with_slash].
      rewrite split_slash_go_slash, split_slash_go_concat by done. rewrite str_app_empty.
      rewrite filter_cons, decide_False by (intros [? _]; done). by rewrite filter_normal_parts.
    + inversion Hp as [|? ? Hx _]; subst.
      assert (Hsw : starts_with_slash (String.concat "/" (x :: xs)) = false).
      { destruct xs; [rewrite <- (str_app_nil x); by apply starts_with_slash_part|].
        by apply starts_with_slash_part. }
      rewrite Hsw, split_slash_go_concat by done. rewrite str_app_empty.
      by rewrite filter_normal_parts.
Qed.

(** Printing a normal path with [str] and parsing it back with
    [Path] gives the same path; the paths [Path] builds are normal, so
    [Path(str(Path(s))) = Path(s)] for every string. *)
Theorem path_roundtrip p s :
  (Forall normal_part (p_parts p) -> path_of_string (path_to_string p) = p) ∧
  path_of_string (path_to_string (path_of_string s)) = path_of_string s.
Proof.
  split; [apply path_of_string_to_string|].
  apply path_of_string_to_string, path_of_string_normal.
Qed.

Lemma path_roundtrip_witness :
  (Forall normal_part (p_parts (mk_path true ["home"; "demo"])) ->
     path_of_string (path_to_string (mk_path true ["home"; "demo"])) = mk_path true ["home"; "demo"]) ∧
  path_of_string (path_to_string (path_of_string "./demo//widgets/")) =
    path_of_string "./demo//widgets/".
Proof. apply path_roundtrip. Defined.

(** ** Module names that spell the same file *)

Lemma split_slash_go_prefix a : ∀ acc, ∃ cs acc',
  ∀ s, split_slash_go (a +:+ s) acc = cs ++ split_slash_go s acc'.
Proof.
  induction a as [|c a IH]; intros acc; [by exists [], acc|].
  simpl. destruct (Ascii.eqb c "/"%char).
  - destruct (IH ""%string) as (cs & acc' & H). exists (acc :: cs), acc'. intros s. by rewrite H.
  - destruct (IH (acc +:+ String c EmptyString)) as (cs & acc' & H). by exists cs, acc'.
Qed.

Lemma replace_dots_app a b : replace_dots (a +:+ b) = replace_dots a +:+ replace_dots b.
Proof. induction a as [|c a IH]; [done|]. rewrite str_app_cons. simpl. by rewrite IH. Qed.

Lemma starts_with_slash_app a x y :
  starts_with_slash (a +:+ String "/" x) = starts_with_slash (a +:+ String "/" y).
Proof. by destruct a. Qed.

(** A doubled ['/'] after [a] makes an empty component, which [Path] drops. *)
Lemma path_of_string_double_slash a u :
  path_of_string (a +:+ String "/" (String "/" u)) = path_of_string (a +:+ String "/" u).
Proof.
  unfold path_of_string, split_slash. f_equal; [apply starts_with_slash_app|].
  destruct (split_slash_go_prefix a ""%string) as (cs & acc & H). rewrite !H.
  rewrite !split_slash_go_slash, !list.filter_app, !filter_cons. f_equal.
Qed.

Lemma find_first_parse fs dirs r1 r2 :
  path_of_string r1 = path_of_string r2 -> find_first fs dirs r1 = find_first fs dirs r2.
Proof.
  intros Hr. induction dirs as [|d dirs IH]; [done|]. simpl. unfold path_div. by rewrite Hr, IH.
Qed.

(** C12: the module names [s.t] and [s..t] locate the same file: the
    doubled dot becomes a doubled ['/'] in [module_name.replace('.', '/')],
    which [Path] collapses, so one file can be imported (and merged) under
    two names. *)
Theorem module_alias_same_file fs dirs s t :
  find_module_file fs dirs (s +:+ "." +:+ t) = find_module_file fs dirs (s +:+ ".." +:+ t).
Proof.
  unfold find_module_file, module_file_name. apply find_first_parse.
  rewrite !replace_dots_app. cbn [replace_dots Ascii.eqb Bool.eqb].
  rewrite <- !str_app_assoc, !str_app_cons, !str_app_empty.
  symmetry. apply path_of_string_double_slash.
Qed.

