(* ===== verification/Graph.v ===== *)
(** * The import graph: reachability and the reference traversals

    The specification both resolvers answer to: module names are the
    vertices, the imports of a module are its out-edges, and resolution
    must visit each module reachable from the seeds exactly once.  The
    section is parameterised by the edge function; each resolver
    instantiates it with the imports it reads from the files.

    [wl_bfs] is the reference breadth-first worklist traversal (FIFO queue
    plus visited list) and its theorem [wl_bfs_correct] says that, when it
    returns, it has visited every reachable module exactly once: this is
    the abstract specification the concrete resolvers are refined to.
    [wl_dfs] is the reference depth-first traversal (visited list plus
    post-order) and [wl_dfs_correct] says the same of it, with the
    post-order a permutation of the visited modules.  [wl_bfs_layered]
    says that [wl_bfs] lists the modules by nondecreasing import depth
    ([depth_le]), the breadth-first promise of the specification. *)

From stdpp Require Import base list strings sets.
From Stdlib Require Import Sorted.
From S2P Require Import Prelude.

Section graph.
Context (edges : string -> list string).

Inductive reachable (seeds : list string) : string -> Prop :=
  | reach_seed m : m ∈ seeds -> reachable seeds m
  | reach_edge m m' : reachable seeds m -> m' ∈ edges m -> reachable seeds m'.

(** A set that holds the seeds and is closed under edges holds every
    reachable module. *)
Lemma closed_contains_reachable (seeds S : list string) :
  (∀ m, m ∈ seeds -> m ∈ S) ->
  (∀ m m', m ∈ S -> m' ∈ edges m -> m' ∈ S) ->
  ∀ m, reachable seeds m -> m ∈ S.
Proof. intros Hs Hc m Hr. induction Hr; eauto. Qed.

(** The reference breadth-first traversal. *)
Fixpoint wl_bfs (fuel : nat) (queue visited : list string) : option (list string) :=
  match fuel with
  | O => None
  | S fuel' =>
      match queue with
      | [] => Some visited
      | m :: rest =>
          if decide (m ∈ visited) then wl_bfs fuel' rest visited
          else wl_bfs fuel' (rest ++ edges m) (visited ++ [m])
      end
  end.

(** The invariant of the traversal from [seeds]: visited modules are
    distinct and reachable, queued ones reachable, and every edge out of
    a visited module leads to a visited or a queued module. *)
Record wl_inv (seeds queue visited : list string) : Prop := {
  inv_nodup : NoDup visited;
  inv_visited_reach : ∀ m, m ∈ visited -> reachable seeds m;
  inv_queue_reach : ∀ m, m ∈ queue -> reachable seeds m;
  inv_closed : ∀ m m', m ∈ visited -> m' ∈ edges m -> m' ∈ visited ∨ m' ∈ queue;
  inv_seeds : ∀ m, m ∈ seeds -> m ∈ visited ∨ m ∈ queue
}.

Lemma wl_inv_init seeds : wl_inv seeds seeds [].
Proof.
  split; [constructor| |by constructor| |by right].
  - by intros ? ?%elem_of_nil.
  - by intros ? ? ?%elem_of_nil.
Qed.

Lemma wl_inv_skip seeds m rest visited :
  m ∈ visited -> wl_inv seeds (m :: rest) visited -> wl_inv seeds rest visited.
Proof.
  intros Hm [Hnd Hv Hq Hc Hs]. split; auto.
  - intros n Hn. apply Hq. by right.
  - intros n n' Hn He. destruct (Hc n n' Hn He) as [|[->|]%elem_of_cons]; auto.
  - intros n Hn. destruct (Hs n Hn) as [|[->|]%elem_of_cons]; auto.
Qed.

Lemma wl_inv_visit seeds m rest visited :
  m ∉ visited -> wl_inv seeds (m :: rest) visited ->
  wl_inv seeds (rest ++ edges m) (visited ++ [m]).
Proof.
  intros Hm [Hnd Hv Hq Hc Hs].
  assert (Hrm : reachable seeds m) by (apply Hq; by left).
  split.
  - apply NoDup_app. split; [done|]. split; [|apply NoDup_singleton].
    by intros x Hx ->%list_elem_of_singleton.
  - intros n [Hn| ->%list_elem_of_singleton]%elem_of_app; auto.
  - intros n [Hn|Hn]%elem_of_app; [apply Hq; by right|].
    by apply reach_edge with m.
  - intros n n' [Hn| ->%list_elem_of_singleton]%elem_of_app He.
    + destruct (Hc n n' Hn He) as [|[->|]%elem_of_cons]; set_solver.
    + set_solver.
  - intros n Hn. destruct (Hs n Hn) as [|[->|]%elem_of_cons]; set_solver.
Qed.

Lemma wl_inv_done seeds visited :
  wl_inv seeds [] visited ->
  NoDup visited ∧ ∀ m, m ∈ visited ↔ reachable seeds m.
Proof.
  intros [Hnd Hv Hq Hc Hs]. split; [done|]. intros m. split; [auto|].
  apply closed_contains_reachable.
  - intros n Hn. by destruct (Hs n Hn) as [|?%elem_of_nil].
  - intros n n' Hn He. by destruct (Hc n n' Hn He) as [|?%elem_of_nil].
Qed.

Lemma wl_bfs_inv fuel seeds queue visited result :
  wl_inv seeds queue visited -> wl_bfs fuel queue visited = Some result ->
  wl_inv seeds [] result.
Proof.
  revert queue visited. induction fuel as [|fuel IH]; intros queue visited Hinv; [done|].
  destruct queue as [|m rest]; simpl; [by intros [= <-]|].
  case_decide.
  - apply IH. by eapply wl_inv_skip.
  - apply IH. by apply wl_inv_visit.
Qed.

(** The reference traversal visits each reachable module exactly once. *)
Theorem wl_bfs_correct fuel seeds result :
  wl_bfs fuel seeds [] = Some result ->
  NoDup result ∧ ∀ m, m ∈ result ↔ reachable seeds m.
Proof.
  intros H. apply wl_inv_done. eapply wl_bfs_inv; [apply wl_inv_init|exact H].
Qed.
(** The reference depth-first traversal: [m] is marked visited, then its
    imports are traversed in order, then [m] is appended to the post-order
    (the order in which a recursive resolver finishes modules). *)
Fixpoint fold_opt {A B} (f : A -> B -> option B) (l : list A) (b : B) : option B :=
  match l with
  | [] => Some b
  | x :: l' => match f x b with Some b' => fold_opt f l' b' | None => None end
  end.

Fixpoint wl_dfs (fuel : nat) (m : string) (s : list string * list string)
  : option (list string * list string) :=
  match fuel with
  | O => None
  | S fuel' =>
      if decide (m ∈ s.1) then Some s
      else match fold_opt (wl_dfs fuel') (edges m) (s.1 ++ [m], s.2) with
           | Some (v, p) => Some (v, p ++ [m])
           | None => None
           end
  end.

(** What a successful traversal from the state [(V, P)] over the roots
    [roots] produces: it extends [V] by modules [new] (and [P] by the same
    modules in post-order), every root ends up visited, and each new module
    is reachable from the roots and has all its imports visited. *)
Record dfs_post (roots V P V' P' : list string) : Prop := {
  post_new : ∃ new post, V' = V ++ new ∧ P' = P ++ post ∧ post ≡ₚ new;
  post_nodup : NoDup V -> NoDup V';
  post_roots : ∀ r, r ∈ roots -> r ∈ V';
  post_closed : ∀ n e, n ∈ V' -> n ∉ V -> e ∈ edges n -> e ∈ V';
  post_reach : ∀ n, n ∈ V' -> n ∉ V -> reachable roots n
}.

Lemma dfs_post_refl roots V P : (∀ r, r ∈ roots -> r ∈ V) -> dfs_post roots V P V P.
Proof.
  intros Hr. split.
  - exists [], []. by rewrite !app_nil_r.
  - done.
  - done.
  - intros n e Hn Hn'. by destruct Hn'.
  - intros n Hn Hn'. by destruct Hn'.
Qed.

Lemma reachable_mono (r1 r2 : list string) n :
  (∀ r, r ∈ r1 -> reachable r2 r) -> reachable r1 n -> reachable r2 n.
Proof. intros Hr H. induction H; eauto using reachable. Qed.

(** Sequencing: a traversal of [x] followed by one of [xs]. *)
Lemma dfs_post_cons x xs V P V1 P1 V2 P2 :
  dfs_post [x] V P V1 P1 -> dfs_post xs V1 P1 V2 P2 -> dfs_post (x :: xs) V P V2 P2.
Proof.
  intros [[n1 [p1 [-> [-> Hp1]]]] Hnd1 Hr1 Hc1 Hre1] [[n2 [p2 [-> [-> Hp2]]]] Hnd2 Hr2 Hc2 Hre2].
  split.
  - exists (n1 ++ n2), (p1 ++ p2). rewrite !app_assoc. split; [done|]. split; [done|].
    by rewrite Hp1, Hp2.
  - auto.
  - intros r [->|Hr]%elem_of_cons; [|auto]. apply elem_of_app. left. apply Hr1. by left.
  - intros n e Hn HnV He. destruct (decide (n ∈ V ++ n1)) as [Hin|Hin].
    + apply elem_of_app. left. by apply (Hc1 n e).
    + by apply (Hc2 n e).
  - intros n Hn HnV. destruct (decide (n ∈ V ++ n1)) as [Hin|Hin].
    + apply (reachable_mono [x]); [intros r [->|?]%elem_of_cons; [apply reach_seed; by left|set_solver]|].
      by apply Hre1.
    + apply (reachable_mono xs); [intros r Hr; apply reach_seed; by right|]. by apply Hre2.
Qed.

(** Visiting a new module [m]: mark it, traverse its imports, finish it. *)
Lemma dfs_post_visit m V P v p :
  m ∉ V -> dfs_post (edges m) (V ++ [m]) P v p -> dfs_post [m] V P v (p ++ [m]).
Proof.
  intros Hm [[n1 [p1 [-> [-> Hp1]]]] Hnd Hr Hc Hre]. split.
  - exists (m :: n1), (p1 ++ [m]). rewrite <- !app_assoc. split; [done|]. split; [done|].
    rewrite Hp1. by rewrite Permutation_app_comm.
  - intros HV. apply Hnd. apply NoDup_app. split; [done|]. split; [|apply NoDup_singleton].
    by intros x Hx ->%list_elem_of_singleton.
  - intros r ->%list_elem_of_singleton. set_solver.
  - intros n e Hn HnV He. destruct (decide (n = m)) as [->|Hne]; [by apply Hr|].
    apply (Hc n e); [done|set_solver|done].
  - intros n Hn HnV. destruct (decide (n = m)) as [->|Hne]; [apply reach_seed; by left|].
    apply (reachable_mono (edges m)).
    + intros r Hr'. apply (reach_edge _ m); [apply reach_seed; by left|done].
    + apply Hre; [done|set_solver].
Qed.

Lemma fold_dfs_post fuel l V P V' P' :
  (∀ x V P V' P', wl_dfs fuel x (V, P) = Some (V', P') -> dfs_post [x] V P V' P') ->
  fold_opt (wl_dfs fuel) l (V, P) = Some (V', P') -> dfs_post l V P V' P'.
Proof.
  intros Hx. revert V P. induction l as [|x l IH]; intros V P; simpl.
  - intros [= <- <-]. apply dfs_post_refl. by intros r ?%elem_of_nil.
  - destruct (wl_dfs fuel x (V, P)) as [[V1 P1]|] eqn:H1; [|done].
    intros H2. eapply dfs_post_cons; [by apply Hx|by apply IH].
Qed.

Lemma wl_dfs_post fuel m V P V' P' :
  wl_dfs fuel m (V, P) = Some (V', P') -> dfs_post [m] V P V' P'.
Proof.
  revert m V P V' P'. induction fuel as [|fuel IH]; intros m V P V' P'; [done|].
  simpl. destruct (decide (m ∈ V)) as [Hin|Hin].
  - intros [= <- <-]. apply dfs_post_refl. by intros r ->%list_elem_of_singleton.
  - destruct (fold_opt (wl_dfs fuel) (edges m) (V ++ [m], P)) as [[v p]|] eqn:Hf; [|done].
    intros [= <- <-]. apply dfs_post_visit; [done|]. by eapply fold_dfs_post.
Qed.

(** The reference depth-first traversal visits each module reachable
    from [m] exactly once, and finishes each of them once. *)
Theorem wl_dfs_correct fuel m V P :
  wl_dfs fuel m ([], []) = Some (V, P) ->
  NoDup V ∧ (∀ n, n ∈ V ↔ reachable [m] n) ∧ P ≡ₚ V.
Proof.
  intros H. destruct (wl_dfs_post _ _ _ _ _ _ H) as [[new [post [-> [-> Hp]]]] Hnd Hr Hc Hre].
  simpl in *. split; [apply Hnd; constructor|]. split; [|done].
  intros n. split; [intros Hn; apply Hre; set_solver|].
  apply closed_contains_reachable; [done|]. intros x e Hx He. apply (Hc x e); set_solver.
Qed.
End graph.

#[export] Hint Constructors reachable : imery.

(** ** Breadth-first order

    The traversal visits modules in order of their import depth: a module
    reachable in [k] edges and no fewer is visited after every module
    reachable in fewer.  The proof runs a copy of [wl_bfs] whose queue
    carries, with each module, the length of the import path that queued
    it, and keeps the classic queue invariant: labels of the queue are
    sorted and span at most one layer, visited labels are the exact depths
    and are sorted, and every edge out of a visited module is visited or
    queued one layer further. *)

Section bfs_layers.
Context (edges : string -> list string) (seeds : list string).

(** [within n x]: [x] is reachable from [seeds] along at most [n] edges. *)
Fixpoint within (n : nat) (x : string) : Prop :=
  match n with
  | O => x ∈ seeds
  | S n' => within n' x ∨ ∃ y, within n' y ∧ x ∈ edges y
  end.

(** [x] lies at import depth [l]: within [l] edges and no fewer. *)
Definition depth_is (x : string) (l : nat) : Prop :=
  within l x ∧ ∀ k, within k x -> l ≤ k.

(** [wl_bfs] with each queued module labelled by the length of the path
    that queued it. *)
Fixpoint lbfs (fuel : nat) (queue visited : list (string * nat))
    : option (list (string * nat)) :=
  match fuel with
  | O => None
  | S fuel' =>
      match queue with
      | [] => Some visited
      | (m, l) :: rest =>
          if decide (m ∈ visited.*1) then lbfs fuel' rest visited
          else lbfs fuel' (rest ++ ((λ e, (e, S l)) <$> edges m)) (visited ++ [(m, l)])
      end
  end.

Lemma within_mono n k x : n ≤ k -> within n x -> within k x.
Proof. induction 1; simpl; auto. Qed.

Lemma label_fst (xs : list string) (k : nat) : ((λ e, (e, k)) <$> xs).*1 = xs.
Proof. induction xs; simpl; f_equal; auto. Qed.

Lemma label_snd (xs : list string) (k : nat) : ((λ e, (e, k)) <$> xs).*2 = replicate (length xs) k.
Proof. induction xs; simpl; f_equal; auto. Qed.

Lemma lbfs_wl_bfs fuel queue visited :
  wl_bfs edges fuel queue.*1 visited.*1 = (λ V : list (string * nat), V.*1) <$> lbfs fuel queue visited.
Proof.
  revert queue visited. induction fuel as [|fuel IH]; intros queue visited; [done|].
  destruct queue as [|[m l] rest]; [done|]. simpl.
  case_decide; rewrite <- IH; [done|].
  by rewrite !fmap_app, label_fst.
Qed.

Lemma elem_fst {A B} (x : A) (y : B) q : (x, y) ∈ q -> x ∈ q.*1.
Proof. intros H. apply list_elem_of_fmap. by exists (x, y). Qed.

Lemma elem_snd {A B} (x : A) (y : B) q : (x, y) ∈ q -> y ∈ q.*2.
Proof. intros H. apply list_elem_of_fmap. by exists (x, y). Qed.

Record layer_inv (queue visited : list (string * nat)) : Prop := {
  li_exact : ∀ m l, (m, l) ∈ visited -> depth_is m l;
  li_upper : ∀ m l, (m, l) ∈ queue -> within l m;
  li_visited_sorted : StronglySorted le (visited.*2);
  li_queue_sorted : StronglySorted le (queue.*2);
  li_visited_queue : ∀ a b, a ∈ visited.*2 -> b ∈ queue.*2 -> a ≤ b;
  li_span : ∀ a b, a ∈ queue.*2 -> b ∈ queue.*2 -> b ≤ S a;
  li_closed : ∀ m l e, (m, l) ∈ visited -> e ∈ edges m ->
              e ∈ visited.*1 ∨ (e, S l) ∈ queue;
  li_seeds : ∀ s, s ∈ seeds -> s ∈ visited.*1 ∨ (s, 0) ∈ queue
}.

(** A module within fewer edges than every queued label is visited. *)
Lemma layer_below queue visited :
  layer_inv queue visited ->
  ∀ k y, within k y -> (∀ b, b ∈ queue.*2 -> k < b) -> y ∈ visited.*1.
Proof.
  intros Hi k. induction k as [|k IH]; intros y Hy Hq; simpl in Hy.
  - destruct (li_seeds _ _ Hi y Hy) as [?|Hs]; [done|].
    specialize (Hq 0 (elem_snd _ _ _ Hs)). lia.
  - assert (Hq' : ∀ b, b ∈ queue.*2 -> k < b) by (intros b Hb; specialize (Hq b Hb); lia).
    destruct Hy as [Hy|(z & Hz & He)]; [by apply IH|].
    apply IH in Hz as Hzv; [|done].
    apply list_elem_of_fmap in Hzv as ([z' lz] & -> & Hzl). simpl in *.
    destruct (li_closed _ _ Hi _ _ _ Hzl He) as [?|He']; [done|].
    destruct (li_exact _ _ Hi _ _ Hzl) as [_ Hmin]. specialize (Hmin k Hz).
    specialize (Hq _ (elem_snd _ _ _ He')). lia.
Qed.
Lemma ss_head_min l xs : StronglySorted le (l :: xs) -> ∀ b, b ∈ l :: xs -> l ≤ b.
Proof.
  intros [_ Hf]%StronglySorted_inv b [->|Hb]%elem_of_cons; [done|].
  by eapply Forall_forall in Hf.
Qed.

Lemma ss_app (xs ys : list nat) :
  StronglySorted le xs -> StronglySorted le ys -> (∀ a b, a ∈ xs -> b ∈ ys -> a ≤ b) ->
  StronglySorted le (xs ++ ys).
Proof.
  induction xs as [|x xs IH]; intros Hx Hy Hxy; [done|].
  apply StronglySorted_inv in Hx as [Hx Hf]. simpl. constructor.
  - apply IH; [done..|]. intros a b Ha. apply Hxy. by right.
  - apply Forall_app. split; [done|]. apply Forall_forall. intros b. apply Hxy. by left.
Qed.

Lemma ss_replicate n k : StronglySorted le (replicate n k).
Proof. induction n; constructor; [done|]. by apply Forall_replicate. Qed.

Lemma elem_pair_cons {A B} (x a : A) (y b : B) rest :
  (x, y) ∈ (a, b) :: rest -> (x = a ∧ y = b) ∨ (x, y) ∈ rest.
Proof. intros [[= -> ->]|?]%elem_of_cons; auto. Qed.

Lemma layer_skip m l rest visited :
  layer_inv ((m, l) :: rest) visited -> m ∈ visited.*1 -> layer_inv rest visited.
Proof.
  intros [] Hm. constructor; auto.
  - intros. apply li_upper0. by right.
  - by apply StronglySorted_inv in li_queue_sorted0 as [? _].
  - intros a b Ha Hb. apply li_visited_queue0; [done|by right].
  - intros a b Ha Hb. apply li_span0; by right.
  - intros m' l' e Hv He.
    destruct (li_closed0 _ _ _ Hv He) as [?|[[-> _]|?]%elem_pair_cons]; auto.
  - intros s Hs. destruct (li_seeds0 s Hs) as [?|[[-> _]|?]%elem_pair_cons]; auto.
Qed.

Section visit.
Context (m : string) (l : nat) (rest visited : list (string * nat)).
Hypothesis Hi : layer_inv ((m, l) :: rest) visited.
Hypothesis Hm : m ∉ visited.*1.

Local Abbreviation new := ((λ e, (e, S l)) <$> edges m).

Lemma visit_head_min b : b ∈ ((m, l) :: rest).*2 -> l ≤ b.
Proof. apply ss_head_min, Hi. Qed.

Lemma visit_new_labels b : b ∈ (rest ++ new).*2 -> l ≤ b ∧ b ≤ S l.
Proof.
  rewrite fmap_app, label_snd, elem_of_app. intros [Hb|[-> _]%elem_of_replicate]; [|lia].
  split; [apply visit_head_min; by right|]. apply (li_span _ _ Hi); [by left|by right].
Qed.

Lemma visit_depth : depth_is m l.
Proof.
  split; [apply (li_upper _ _ Hi); by left|]. intros k Hk.
  destruct (decide (l ≤ k)) as [|Hlt]; [done|]. contradict Hm.
  eapply layer_below; [exact Hi|exact Hk|]. intros b Hb%visit_head_min. lia.
Qed.

Lemma visit_visited_le a : a ∈ (visited ++ [(m, l)]).*2 -> a ≤ l.
Proof.
  rewrite fmap_app, elem_of_app. intros [Ha|Ha%list_elem_of_singleton]; [|by subst].
  apply (li_visited_queue _ _ Hi); [done|by left].
Qed.

Lemma visit_fst_in x : x ∈ visited.*1 ∨ x = m -> x ∈ (visited ++ [(m, l)]).*1.
Proof. rewrite fmap_app, elem_of_app. intros [?| ->]; [by left|right; by left]. Qed.

Lemma visit_queue_in x y : (x, y) ∈ rest ∨ (x ∈ edges m ∧ y = S l) -> (x, y) ∈ rest ++ new.
Proof.
  rewrite elem_of_app. intros [?|[? ->]]; [by left|right].
  apply list_elem_of_fmap. by exists x.
Qed.

Lemma layer_visit : layer_inv (rest ++ new) (visited ++ [(m, l)]).
Proof.
  destruct Hi. constructor.
  - intros m' l' [Hv|[= -> ->]%list_elem_of_singleton]%elem_of_app;
      [by apply li_exact0|apply visit_depth].
  - intros m' l' [Hq|(e & [= -> ->] & He)%list_elem_of_fmap]%elem_of_app;
      [apply li_upper0; by right|].
    right. exists m. split; [apply li_upper0; by left|done].
  - rewrite fmap_app. apply ss_app; [done|repeat constructor|].
    intros a b Ha Hb%list_elem_of_singleton. subst b. apply li_visited_queue0; [done|by left].
  - rewrite fmap_app, label_snd. apply StronglySorted_inv in li_queue_sorted0 as [Hs _].
    apply ss_app; [done|apply ss_replicate|]. intros a b Ha [-> _]%elem_of_replicate.
    apply li_span0; [by left|by right].
  - intros a b Ha%visit_visited_le Hb%visit_new_labels. lia.
  - intros a b Ha%visit_new_labels Hb%visit_new_labels. lia.
  - intros m' l' e [Hv|[= -> ->]%list_elem_of_singleton]%elem_of_app He.
    + destruct (li_closed0 _ _ _ Hv He) as [?|[[-> _]|?]%elem_pair_cons];
        [left; apply visit_fst_in; auto..|right; apply visit_queue_in; auto].
    + right. apply visit_queue_in. auto.
  - intros s Hs. destruct (li_seeds0 s Hs) as [?|[[-> _]|?]%elem_pair_cons];
      [left; apply visit_fst_in; auto..|right; apply visit_queue_in; auto].
Qed.
End visit.
(** [a] lies no deeper than [b]: any import path bound that reaches [b]
    reaches [a]. *)
Definition depth_le (a b : string) : Prop := ∀ n, within n b -> within n a.

Lemma layer_init : layer_inv ((λ s, (s, 0)) <$> seeds) [].
Proof.
  constructor.
  - intros m l Hv. by apply not_elem_of_nil in Hv.
  - by intros m l (s & [= -> ->] & Hs)%list_elem_of_fmap.
  - constructor.
  - rewrite label_snd. apply ss_replicate.
  - intros a b Ha. by apply not_elem_of_nil in Ha.
  - rewrite label_snd. intros a b [-> _]%elem_of_replicate [-> _]%elem_of_replicate. lia.
  - intros m l e Hv. by apply not_elem_of_nil in Hv.
  - intros s Hs. right. apply list_elem_of_fmap. by exists s.
Qed.

Lemma lbfs_inv fuel queue visited res :
  layer_inv queue visited -> lbfs fuel queue visited = Some res -> layer_inv [] res.
Proof.
  revert queue visited. induction fuel as [|fuel IH]; intros queue visited Hi H; [done|].
  destruct queue as [|[m l] rest]; simpl in H; [by injection H as <-|].
  case_decide; (eapply IH; [|exact H]); [by eapply layer_skip|by apply layer_visit].
Qed.

(** Exact depths listed in nondecreasing order list the modules from
    shallow to deep. *)
Lemma layer_sorted r :
  (∀ m l, (m, l) ∈ r -> depth_is m l) -> StronglySorted le r.*2 ->
  StronglySorted depth_le r.*1.
Proof.
  induction r as [|[m l] r IH]; intros He Hs; simpl; [constructor|].
  apply StronglySorted_inv in Hs as [Hs Hf]. constructor.
  { apply IH; [|done]. intros. apply He. by right. }
  apply Forall_forall. intros x ([x' l'] & -> & Hx)%list_elem_of_fmap n Hn. simpl in *.
  destruct (He m l) as [Hw _]; [by left|].
  destruct (He x' l') as [_ Hmin]; [by right|]. specialize (Hmin n Hn).
  eapply Forall_forall in Hf; [|exact (elem_snd _ _ _ Hx)].
  apply (within_mono l); [lia|done].
Qed.

(** The reference traversal from [seeds] visits modules by nondecreasing
    import depth. *)
Theorem wl_bfs_layered fuel res :
  wl_bfs edges fuel seeds [] = Some res -> StronglySorted depth_le res.
Proof.
  intros H. rewrite <- (label_fst seeds 0) in H.
  change [] with (([] : list (string * nat)).*1) in H. rewrite lbfs_wl_bfs in H.
  destruct (lbfs fuel _ []) as [r|] eqn:Hr; [|done]. injection H as <-.
  destruct (lbfs_inv _ _ _ _ layer_init Hr). by apply layer_sorted.
Qed.
End bfs_layers.
