(* ===== verification/Lang.v ===== *)
(** * The runtime resolver: class [Lang] of src/src/imery/lang.py

    [Lang] keeps its search paths and the three merged collections as
    fields; [load_main_module] runs a breadth-first traversal from the main
    module and ["builtin"], locates and loads each module once, merges its
    widgets under the qualified name [module.widget], its data under the
    bare key, its [app] block (at most one overall), queues its imports and
    finally checks that some widget and an app exist.  Every duplicate is a
    [Result.error]; the fields keep whatever was merged before the error.

    The state is the record [lang]; each method is a computation in the
    prelude's state/error monad [M lang lang_error]. *)

From stdpp Require Import base list strings gmap sets.
From Stdlib Require Import Sorted.
From S2P Require Import Prelude PyDict PyValue Paths Graph.

Module Lang.

(** The fields of a [Lang] object ([None] is [YNone]). *)
Record lang := mk_lang {
  layouts_paths : list path;
  widget_definitions : dict string yaml;
  data_definitions : dict string yaml;
  app_config : yaml
}.

(** The [Result.error] messages, with the values they mention. *)
Inductive lang_error :=
  | SearchPathMissing (p : path)
  | SearchPathNotDir (p : path)
  | ModuleNotFound (m : string) (paths : list path)
  | YamlLoadFailed (file : path)
  | DuplicateWidget (full_name : string)
  | DuplicateData (name : string)
  | MultipleApp (m : string)
  | NoWidgets
  | NoApp.

#[export] Instance lang_error_eq_dec : EqDecision lang_error.
Proof. solve_decision. Defined.

Notation LM := (M lang lang_error).

Definition set_widgets (st : lang) (w : dict string yaml) : lang :=
  {| layouts_paths := layouts_paths st; widget_definitions := w;
     data_definitions := data_definitions st; app_config := app_config st |}.
Definition set_data (st : lang) (d : dict string yaml) : lang :=
  {| layouts_paths := layouts_paths st; widget_definitions := widget_definitions st;
     data_definitions := d; app_config := app_config st |}.
Definition set_app (st : lang) (a : yaml) : lang :=
  {| layouts_paths := layouts_paths st; widget_definitions := widget_definitions st;
     data_definitions := data_definitions st; app_config := a |}.

(** [__init__]: the builtin layouts directory is put first. *)
Definition lang_new (builtin_layouts_dir : path) (paths : list string) : lang :=
  {| layouts_paths := builtin_layouts_dir :: (path_of_string <$> paths);
     widget_definitions := dict_empty; data_definitions := dict_empty;
     app_config := YNone |}.

(** [init]: every search path must exist and be a directory. *)
Fixpoint check_paths (fs : filesystem) (ps : list path) : LM unit :=
  match ps with
  | [] => mret tt
  | p :: ps' =>
      if negb (path_exists fs p) then throw (SearchPathMissing p)
      else if negb (path_is_dir fs p) then throw (SearchPathNotDir p)
      else check_paths fs ps'
  end.

Definition init (fs : filesystem) : LM unit :=
  st ← get_st; check_paths fs (layouts_paths st).

(** [f"{current_module}.{widget_name}"] *)
Definition qualify (m w : string) : string := m +:+ "." +:+ w.

(** The widgets loop: each key is namespaced and must be new. *)
Fixpoint merge_widgets (m : string) (ws : dict string yaml) : LM unit :=
  match ws with
  | [] => mret tt
  | (w, def) :: rest =>
      st ← get_st;
      let full_name := qualify m w in
      if dict_mem full_name (widget_definitions st) then throw (DuplicateWidget full_name)
      else modify_st (λ st, set_widgets st (dict_set full_name def (widget_definitions st)));;
           merge_widgets m rest
  end.

(** The data loop: bare keys, each must be new. *)
Fixpoint merge_data (ds : dict string yaml) : LM unit :=
  match ds with
  | [] => mret tt
  | (k, def) :: rest =>
      st ← get_st;
      if dict_mem k (data_definitions st) then throw (DuplicateData k)
      else modify_st (λ st, set_data st (dict_set k def (data_definitions st)));;
           merge_data rest
  end.

(** The app block: a non-[None] block is accepted only while none is set. *)
Definition merge_app (m : string) (app : yaml) : LM unit :=
  match app with
  | YNone => mret tt
  | _ =>
      st ← get_st;
      match app_config st with
      | YNone => modify_st (λ st, set_app st app)
      | _ => throw (MultipleApp m)
      end
  end.

(** What [queue.extend(imports)] appends for a module's content. *)
Definition import_values (content : yaml) : LM (list yaml) :=
  imports ← lift_py (py_get content "import" (YList []));
  if truthy imports then lift_py (py_iter imports) else mret [].

(** Lines 90-115: merge the widgets, data and app of one module, then
    return what it queues. *)
Definition process_content (m : string) (content : yaml) : LM (list yaml) :=
  widgets ← lift_py (py_get content "widgets" (YDict []));
  witems ← lift_py (py_items widgets);
  merge_widgets m witems;;
  data ← lift_py (py_get content "data" (YDict []));
  ditems ← lift_py (py_items data);
  merge_data ditems;;
  app ← lift_py (py_get content "app" YNone);
  merge_app m app;;
  import_values content.

(** Lines 67-115 for one module not yet visited: locate, load, process. *)
Definition visit (fs : filesystem) (m : string) : LM (list yaml) :=
  st ← get_st;
  match find_module_file fs (layouts_paths st) m with
  | None => throw (ModuleNotFound m (layouts_paths st))
  | Some file =>
      match lang_load fs file with
      | None => throw (YamlLoadFailed file)
      | Some content => process_content m content
      end
  end.

(** The [while queue] loop (lines 59-115).  The local [visited] set is
    kept as the list of modules in visit order and returned, so that the
    theorems can speak of it. *)
Fixpoint bfs (fs : filesystem) (fuel : nat) (queue : list yaml) (visited : list string)
  : LM (list string) :=
  match fuel with
  | O => out_of_fuel
  | S fuel' =>
      match queue with
      | [] => mret visited
      | x :: rest =>
          m ← lift_py (module_name_of x);
          if decide (m ∈ visited) then bfs fs fuel' rest visited
          else imports ← visit fs m;
               bfs fs fuel' (rest ++ imports) (visited ++ [m])
      end
  end.

(** Lines 117-124. *)
Definition validate : LM unit :=
  st ← get_st;
  if negb (dict_truthy (widget_definitions st)) then throw NoWidgets
  else match app_config st with YNone => throw NoApp | _ => mret tt end.

(** The seeds of the traversal: the main module, then ["builtin"]. *)
Definition seeds (module_name : string) : list string := [module_name; "builtin"].

(** [load_main_module] with an explicit fuel. *)
Definition load_main_module_fuel (fs : filesystem) (fuel : nat) (module_name : string)
  : LM (list string) :=
  visited ← bfs fs fuel (YStr <$> seeds module_name) [];
  validate;;
  mret visited.

(** ** The fuel

    Every value ever queued is a seed or an import value of some file of
    the (finite) filesystem: [universe] lists them.  Each step of the loop
    pops one value; a visit adds a new name of the universe to [visited]
    and queues at most [length universe] values.  So the loop stops within
    [length queue + S (length universe) * length universe] steps, and
    [lang_fuel] is one more than that bound. *)
Definition content_imports (content : yaml) : list yaml :=
  match py_get content "import" (YList []) with
  | inr imports =>
      if truthy imports then match py_iter imports with inr l => l | inl _ => [] end
      else []
  | inl _ => []
  end.

Definition entry_imports (e : entry) : list yaml :=
  match e with
  | EFile (Parsed v) => content_imports (none_to_empty v)
  | _ => []
  end.

Definition universe (fs : filesystem) (module_name : string) : list yaml :=
  (YStr <$> seeds module_name) ++ mjoin ((λ kv, entry_imports kv.2) <$> fs_entries fs).

Definition lang_fuel (fs : filesystem) (module_name : string) : nat :=
  let n := length (universe fs module_name) in S (2 + S n * n).

(** [load_main_module]: lines 46-124. *)
Definition load_main_module (fs : filesystem) (module_name : string) : LM (list string) :=
  load_main_module_fuel fs (lang_fuel fs module_name) module_name.

(** [dispose]: lines 141-146. *)
Definition dispose : LM unit :=
  modify_st (λ st, {| layouts_paths := layouts_paths st; widget_definitions := dict_empty;
                      data_definitions := dict_empty; app_config := YNone |}).

(** The read-only properties (lines 126-139): what a renderer reads of a
    loaded [Lang]. *)
Definition get_widget_definitions : LM (dict string yaml) :=
  st ← get_st; mret (widget_definitions st).
Definition get_data_definitions : LM (dict string yaml) :=
  st ← get_st; mret (data_definitions st).
Definition get_app_config : LM yaml :=
  st ← get_st; mret (app_config st).

(** ** The import graph as [Lang] reads it

    The out-edges of a module are the module names it queues: the string
    values of its import list, when it is found and loads. *)
Definition lang_edges (fs : filesystem) (dirs : list path) (m : string) : list string :=
  match find_module_file fs dirs m with
  | None => []
  | Some file =>
      match lang_load fs file with
      | None => []
      | Some content => omap str_of (content_imports content)
      end
  end.

(** ** Frame: the search paths never change *)

Definition same_paths : relation lang := λ s s', layouts_paths s' = layouts_paths s.

#[export] Instance same_paths_preorder : PreOrder same_paths.
Proof. split; [done|]. intros x y z H1 H2. unfold same_paths in *. congruence. Qed.

#[local] Hint Extern 1 (same_paths _ _) => unfold same_paths; done : imery.

Lemma merge_widgets_paths m ws : respects same_paths (merge_widgets m ws).
Proof. induction ws as [|[w d] ws IH]; simpl; solve_M_prop. Qed.

Lemma merge_data_paths ds : respects same_paths (merge_data ds).
Proof. induction ds as [|[k d] ds IH]; simpl; solve_M_prop. Qed.

#[local] Hint Resolve merge_widgets_paths merge_data_paths : imery.

Lemma visit_paths fs m : respects same_paths (visit fs m).
Proof.
  unfold visit, process_content, merge_app, import_values. solve_M_prop.
Qed.

#[local] Hint Resolve visit_paths : imery.

Lemma bfs_paths fs fuel queue visited : respects same_paths (bfs fs fuel queue visited).
Proof.
  revert queue visited. induction fuel as [|fuel IH]; intros queue visited; cbn [bfs].
  - by intros s o s' [= _ <-].
  - solve_M_prop.
Qed.

(** ** The steps other than the loop always finish *)

Lemma merge_widgets_fuel_free m ws : fuel_free (merge_widgets m ws).
Proof. induction ws as [|[w d] ws IH]; simpl; solve_M_prop. Qed.

Lemma merge_data_fuel_free ds : fuel_free (merge_data ds).
Proof. induction ds as [|[k d] ds IH]; simpl; solve_M_prop. Qed.

#[local] Hint Resolve merge_widgets_fuel_free merge_data_fuel_free : imery.

Lemma visit_fuel_free fs m : fuel_free (visit fs m).
Proof. unfold visit, process_content, merge_app, import_values. solve_M_prop. Qed.

Lemma validate_fuel_free : fuel_free validate.
Proof. unfold validate. solve_M_prop. Qed.

(** ** What a visit queues *)

Lemma import_values_Ok content st l st' :
  import_values content st = (Ok l, st') -> l = content_imports content ∧ st' = st.
Proof.
  unfold import_values, content_imports. unfold_M.
  destruct (py_get content "import" (YList [])) as [x|imports]; [done|].
  destruct (truthy imports), (py_iter imports); intros H; simplify_eq; done.
Qed.

Lemma process_content_Ok m content st l st' :
  process_content m content st = (Ok l, st') -> l = content_imports content.
Proof. unfold process_content. intros H. inv_bind H. by eapply import_values_Ok. Qed.

Lemma visit_Ok fs m st l st' :
  visit fs m st = (Ok l, st') ->
  ∃ file v, find_module_file fs (layouts_paths st) m = Some file ∧
    fs_lookup fs file = Some (EFile (Parsed v)) ∧ l = content_imports (none_to_empty v).
Proof.
  unfold visit. intros H. inv_bind H. injection Hstep as <- <-.
  destruct (find_module_file fs (layouts_paths st) m) as [file|]; [|done].
  unfold lang_load in H. destruct (fs_lookup fs file) as [[|[v|]]|] eqn:Hl; try done.
  exists file, v. split; [done|]. split; [done|]. by eapply process_content_Ok.
Qed.

(** The names a successful visit queues are the out-edges of the module. *)
Lemma visit_Ok_omap fs m st l st' :
  visit fs m st = (Ok l, st') -> omap str_of l = lang_edges fs (layouts_paths st) m.
Proof.
  intros H. destruct (visit_Ok _ _ _ _ _ H) as (file & v & Hf & Hl & ->).
  unfold lang_edges. rewrite Hf. unfold lang_load. by rewrite Hl.
Qed.

(** A successful visit queues exactly the out-edges of the module, as
    strings. *)
Lemma visit_Ok_edges fs m st l st' :
  visit fs m st = (Ok l, st') -> ∀ q, l = YStr <$> q -> q = lang_edges fs (layouts_paths st) m.
Proof.
  intros H q ->. destruct (visit_Ok _ _ _ _ _ H) as (file & v & Hf & Hl & Hi).
  unfold lang_edges. rewrite Hf. unfold lang_load. rewrite Hl, <- Hi.
  by rewrite str_of_fmap.
Qed.

(** ** Refinement of the traversal *)

(** A run of [bfs] that returns is a run of the reference traversal
    [wl_bfs] on the import graph of [Lang]: every queued value was a
    module name and the visit order is the same. *)
Lemma bfs_refines fs fuel queue visited st res st' :
  bfs fs fuel queue visited st = (Ok res, st') ->
  ∃ q, queue = YStr <$> q ∧
       wl_bfs (lang_edges fs (layouts_paths st)) fuel q visited = Some res.
Proof.
  revert queue visited st. induction fuel as [|fuel IH]; intros queue visited st; [done|].
  destruct queue as [|x rest]; cbn [bfs].
  - intros [= <- _]. by exists [].
  - intros H. apply bind_Ok_inv in H as (m & st1 & Hm & H).
    destruct (module_name_of x) as [e|m'] eqn:Hx; [done|].
    injection Hm as Hmm Hst. subst m' st1.
    assert (x = YStr m) as -> by (destruct x; simpl in Hx; congruence).
    cbv beta in H. destruct (decide (m ∈ visited)) as [Hin|Hin].
    + destruct (IH _ _ _ H) as (q & -> & Hq).
      exists (m :: q). simpl. by rewrite decide_True.
    + inv_bind H.
      pose proof (visit_paths fs m st _ _ Hstep) as Hp. unfold same_paths in Hp.
      destruct (IH _ _ _ H) as (q' & Hq' & Hw).
      symmetry in Hq'. apply fmap_app_inv in Hq' as (q1 & q2 & -> & -> & ->).
      exists (m :: q1). split; [done|]. simpl. rewrite decide_False by done.
      rewrite <- (visit_Ok_edges _ _ _ _ _ Hstep q2 eq_refl), <- Hp. done.
Qed.

(** ** Resolution visits the reachable modules, each once *)

Lemma load_main_module_Ok_visited fs module_name st visited st' :
  load_main_module fs module_name st = (Ok visited, st') ->
  NoDup visited ∧
  ∀ m, m ∈ visited ↔ reachable (lang_edges fs (layouts_paths st)) (seeds module_name) m.
Proof.
  unfold load_main_module, load_main_module_fuel. intros H. inv_bind H.
  injection H as <- _.
  destruct (bfs_refines _ _ _ _ _ _ _ Hstep) as (q & Hq & Hw).
  apply (inj (fmap YStr)) in Hq as <-. by eapply wl_bfs_correct.
Qed.

(** C1: when [load_main_module] succeeds, the modules it visited are
    distinct and are exactly the modules reachable from the main module
    and ["builtin"] along the imports. *)
Theorem load_main_module_visits_reachable fs module_name st visited st' :
  load_main_module fs module_name st = (Ok visited, st') ->
  NoDup visited ∧
  ∀ m, m ∈ visited ↔ reachable (lang_edges fs (layouts_paths st)) (seeds module_name) m.
Proof. apply load_main_module_Ok_visited. Qed.

(** C30: resolution is breadth-first: when [load_main_module] succeeds,
    the modules it visited (and merged, in that order) are listed by
    nondecreasing import depth from the main module and ["builtin"], so
    every module at depth [k] is merged before any module at depth
    [k + 1]. *)
Theorem load_main_module_breadth_first fs module_name st visited st' :
  load_main_module fs module_name st = (Ok visited, st') ->
  StronglySorted (depth_le (lang_edges fs (layouts_paths st)) (seeds module_name)) visited.
Proof.
  unfold load_main_module, load_main_module_fuel. intros H. inv_bind H.
  injection H as <- _.
  destruct (bfs_refines _ _ _ _ _ _ _ Hstep) as (q & Hq & Hw).
  apply (inj (fmap YStr)) in Hq as <-. by eapply wl_bfs_layered.
Qed.

(** ** Termination *)

(** The values a visit queues are the import values of an entry of the
    filesystem. *)
Lemma visit_Ok_entry fs m st l st' :
  visit fs m st = (Ok l, st') -> ∃ kv, kv ∈ fs_entries fs ∧ l = entry_imports kv.2.
Proof.
  intros H. destruct (visit_Ok _ _ _ _ _ H) as (file & v & _ & Hl & ->).
  exists (file, EFile (Parsed v)). split; [|done]. by apply dict_get_In.
Qed.

Section termination.
Context (fs : filesystem) (U : list yaml).
Hypothesis HU_sub : ∀ kv, kv ∈ fs_entries fs -> ∀ y, y ∈ entry_imports kv.2 -> y ∈ U.
Hypothesis HU_len : ∀ kv, kv ∈ fs_entries fs -> length (entry_imports kv.2) ≤ length U.

(** The loop's measure: the queue, plus [S (length U)] for each name of
    the universe not yet visited. *)
Definition bfs_measure (queue : list yaml) (visited : list string) : nat :=
  length queue + S (length U) * unvisited (omap str_of U) visited.

Lemma bfs_visit_measure m rest l visited :
  YStr m ∈ U -> m ∉ visited -> length l ≤ length U ->
  bfs_measure (rest ++ l) (visited ++ [m]) < bfs_measure (YStr m :: rest) visited.
Proof.
  intros HmU Hm Hl. unfold bfs_measure.
  assert (unvisited (omap str_of U) (visited ++ [m]) < unvisited (omap str_of U) visited).
  { apply unvisited_lt with m; [set_solver|by apply str_of_elem|done|set_solver]. }
  rewrite length_app. simpl. nia.
Qed.

Lemma bfs_no_fuel_out fuel queue visited st st' :
  (∀ x, x ∈ queue -> x ∈ U) -> bfs_measure queue visited < fuel ->
  bfs fs fuel queue visited st ≠ (NoFuel, st').
Proof.
  revert queue visited st st'.
  induction fuel as [|fuel IH]; intros queue visited st st' HQ Hlt; [lia|].
  destruct queue as [|x rest]; cbn [bfs]; [done|].
  unfold mbind at 1, M_bind at 1.
  destruct (module_name_of x) as [e|m] eqn:Hx; [done|]. cbn.
  assert (x = YStr m) as -> by (destruct x; simpl in Hx; congruence).
  destruct (decide (m ∈ visited)) as [Hin|Hin].
  - apply IH; [intros y Hy; apply HQ; by right|].
    unfold bfs_measure in *. simpl in Hlt. lia.
  - unfold mbind, M_bind. destruct (visit fs m st) as [[l|e|x|] st1] eqn:Hv; try done.
    + destruct (visit_Ok_entry _ _ _ _ _ Hv) as (kv & Hkv & ->).
      apply IH.
      * intros y [Hy|Hy]%elem_of_app; [apply HQ; by right|by eapply HU_sub].
      * pose proof (bfs_visit_measure m rest (entry_imports kv.2) visited) as Hm.
        assert (HmU : YStr m ∈ U) by (apply HQ; by left).
        specialize (Hm HmU Hin (HU_len kv Hkv)). lia.
    + by apply visit_fuel_free in Hv.
Qed.
End termination.

(** The loop started from the seeds never exhausts [lang_fuel]. *)
Lemma bfs_seeds_no_fuel fs module_name st st' :
  bfs fs (lang_fuel fs module_name) (YStr <$> seeds module_name) [] st ≠ (NoFuel, st').
Proof.
  set (U := universe fs module_name).
  assert (Hsub : ∀ kv, kv ∈ fs_entries fs -> (∀ y, y ∈ entry_imports kv.2 -> y ∈ U)
                                     ∧ length (entry_imports kv.2) ≤ length U).
  { intros kv Hkv. destruct (join_fmap_elem (λ kv, entry_imports kv.2) _ _ Hkv) as [H1 H2].
    unfold U, universe. rewrite length_app. split; [|lia].
    intros y Hy. apply elem_of_app. right. by apply H1. }
  apply (bfs_no_fuel_out fs U).
  + intros kv Hkv. apply Hsub, Hkv.
  + intros kv Hkv. apply Hsub, Hkv.
  + intros y Hy. unfold U, universe. apply elem_of_app. by left.
  + unfold bfs_measure, lang_fuel. fold U. rewrite length_fmap.
    pose proof (unvisited_le_length (omap str_of U) []).
    pose proof (length_omap_le str_of U).
    remember (length U) as n. remember (unvisited (omap str_of U) []) as u.
    unfold seeds. simpl length. nia.
Qed.

(** C2: [load_main_module] always returns: the fuel [lang_fuel] is never
    exhausted, on any filesystem, whatever the import graph (cycles and
    self-imports included). *)
Theorem load_main_module_terminates fs module_name st st' :
  load_main_module fs module_name st ≠ (NoFuel, st').
Proof.
  unfold load_main_module, load_main_module_fuel.
  unfold mbind at 1, M_bind at 1.
  destruct (bfs _ _ _ _ st) as [[v|e|x|] st1] eqn:Hb; try done.
  - apply fuel_free_bind; [apply validate_fuel_free|done].
  - exfalso. revert Hb. apply bfs_seeds_no_fuel.
Qed.

(** ** The merge loops

    Both loops of lines 90-103 insert the (transformed) keys of a dict into
    a field of the object and stop at the first key already present.  They
    are two instances of [merge_loop]. *)

Section merge_loop.
Context (get : lang -> dict string yaml) (set : lang -> dict string yaml -> lang).
Context (key : string -> string) (err : string -> lang_error).
Hypothesis get_set : ∀ st d, get (set st d) = d.
Hypothesis set_set : ∀ st d1 d2, set (set st d1) d2 = set st d2.
Hypothesis set_get : ∀ st, set st (get st) = st.

Fixpoint merge_loop (ds : dict string yaml) : LM unit :=
  match ds with
  | [] => mret tt
  | (k, v) :: rest =>
      st ← get_st;
      if dict_mem (key k) (get st) then throw (err (key k))
      else modify_st (λ st, set st (dict_set (key k) v (get st)));; merge_loop rest
  end.

Definition rekey (ds : dict string yaml) : dict string yaml := (λ kv, (key kv.1, kv.2)) <$> ds.

Lemma dict_keys_rekey ds : dict_keys (rekey ds) = key <$> dict_keys ds.
Proof. unfold dict_keys, rekey. induction ds; simpl; f_equal; auto. Qed.

(** With new keys the loop appends the rekeyed dict to the field. *)
Lemma merge_loop_Ok ds st :
  fresh_keys (dict_keys (rekey ds)) (dict_keys (get st)) ->
  merge_loop ds st = (Ok tt, set st (get st ++ rekey ds)).
Proof.
  revert st. induction ds as [|[k v] ds IH]; intros st Hf; cbn [merge_loop].
  - unfold_M. change (rekey []) with (@nil (string * yaml)).
    by rewrite app_nil_r, set_get.
  - change (dict_keys (rekey ((k, v) :: ds))) with (key k :: dict_keys (rekey ds)) in Hf.
    change (rekey ((k, v) :: ds)) with ((key k, v) :: rekey ds).
    apply fresh_keys_cons in Hf as [Hk Hf]. unfold_M.
    rewrite dict_mem_keys, bool_decide_eq_false_2 by done.
    rewrite dict_set_fresh by done. rewrite IH; rewrite get_set.
    + by rewrite set_set, <- app_assoc.
    + by rewrite dict_keys_app.
Qed.

(** Otherwise it stops with the error of a key of the dict. *)
Lemma merge_loop_Err ds st :
  ¬ fresh_keys (dict_keys (rekey ds)) (dict_keys (get st)) ->
  ∃ k st', merge_loop ds st = (Err (err k), st') ∧ k ∈ dict_keys (rekey ds).
Proof.
  revert st. induction ds as [|[k v] ds IH]; intros st Hf; cbn [merge_loop].
  - exfalso. apply Hf. split; constructor.
  - change (dict_keys (rekey ((k, v) :: ds))) with (key k :: dict_keys (rekey ds)) in Hf |- *.
    unfold_M. rewrite dict_mem_keys. case_bool_decide as Hk.
    + exists (key k), st. split; [done|]. by left.
    + rewrite dict_set_fresh by done.
      destruct (IH (set st (get st ++ [(key k, v)]))) as (k' & st' & Hr & Hin).
      { rewrite get_set, dict_keys_app. intros Hf'. apply Hf, fresh_keys_cons. done. }
      exists k', st'. split; [done|]. by right.
Qed.
End merge_loop.

Lemma merge_widgets_loop m ws :
  merge_widgets m ws = merge_loop widget_definitions set_widgets (qualify m) DuplicateWidget ws.
Proof. induction ws as [|[w d] ws IH]; simpl; [done|]. by rewrite IH. Qed.

Lemma merge_data_loop ds :
  merge_data ds = merge_loop data_definitions set_data id DuplicateData ds.
Proof. induction ds as [|[k d] ds IH]; simpl; [done|]. by rewrite IH. Qed.

(** ** What each module contributes *)

(** The content [Lang] loads for module [m]. *)
Definition module_content (fs : filesystem) (dirs : list path) (m : string) : option yaml :=
  match find_module_file fs dirs m with Some file => lang_load fs file | None => None end.

Definition app_of (content : yaml) : yaml :=
  match py_get content "app" YNone with inr a => a | inl _ => YNone end.

Definition module_widgets fs dirs m : dict string yaml :=
  match module_content fs dirs m with
  | Some c => rekey (qualify m) (section_items c "widgets") | None => [] end.
Definition module_data fs dirs m : dict string yaml :=
  match module_content fs dirs m with Some c => section_items c "data" | None => [] end.
Definition module_app fs dirs m : yaml :=
  match module_content fs dirs m with Some c => app_of c | None => YNone end.

Lemma merge_loop_Ok_inv get set key err ds st u st' :
  (∀ st d, get (set st d) = d) -> (∀ st d1 d2, set (set st d1) d2 = set st d2) ->
  (∀ st, set st (get st) = st) ->
  merge_loop get set key err ds st = (Ok u, st') ->
  fresh_keys (dict_keys (rekey key ds)) (dict_keys (get st)) ∧
  st' = set st (get st ++ rekey key ds).
Proof.
  intros H1 H2 H3 H. destruct (decide (fresh_keys (dict_keys (rekey key ds)) (dict_keys (get st)))).
  - rewrite merge_loop_Ok in H by done. by simplify_eq.
  - destruct (merge_loop_Err get set key err H1 ds st) as (k & st'' & Hr & _); [done|].
    congruence.
Qed.

Lemma merge_app_Ok m app st u st' :
  merge_app m app st = (Ok u, st') ->
  omap not_none [app_config st; app] = omap not_none [app_config st'] ∧
  st' = set_app st (match app with YNone => app_config st | _ => app end).
Proof.
  unfold merge_app. destruct app; unfold_M;
    try (intros [= _ <-]; destruct st as [? ? ? []]; done);
    destruct (app_config st) eqn:Ha; intros H; simplify_eq; rewrite ?Ha;
    destruct st; simpl in *; subst; done.
Qed.

(** The state after a successful processing of one module. *)
Lemma process_content_state m content st l st' :
  process_content m content st = (Ok l, st') ->
  fresh_keys (dict_keys (rekey (qualify m) (section_items content "widgets"))) (dict_keys (widget_definitions st)) ∧
  widget_definitions st' = widget_definitions st ++ rekey (qualify m) (section_items content "widgets") ∧
  fresh_keys (dict_keys (section_items content "data")) (dict_keys (data_definitions st)) ∧
  data_definitions st' = data_definitions st ++ section_items content "data" ∧
  omap not_none [app_config st; app_of content] = omap not_none [app_config st'] ∧
  layouts_paths st' = layouts_paths st.
Proof.
  unfold process_content. intros H. inv_bind H.
  apply lift_py_Ok in Hstep as [Hw <-], Hstep0 as [Hwi%py_items_inr <-],
    Hstep2 as [Hd <-], Hstep3 as [Hdi%py_items_inr <-], Hstep5 as [Ha <-].
  subst. unfold section_items, app_of. rewrite Hw, Hd, Ha.
  rewrite merge_widgets_loop in Hstep1. rewrite merge_data_loop in Hstep4.
  apply merge_loop_Ok_inv in Hstep1 as [Hf ->]; try done; [|by intros []].
  apply merge_loop_Ok_inv in Hstep4 as [Hfd ->]; try done; [|by intros []].
  apply merge_app_Ok in Hstep6 as [Happ ->].
  apply import_values_Ok in H as [-> ->].
  assert (Hid : ∀ d : dict string yaml, rekey id d = d).
  { intros d. unfold rekey. induction d as [|[] d IH]; simpl; f_equal; auto. }
  rewrite !Hid in Happ, Hfd |- *. do 4 (split; [done|]). by split.
Qed.

Lemma visit_state fs m st l st' :
  visit fs m st = (Ok l, st') ->
  let dirs := layouts_paths st in
  fresh_keys (dict_keys (module_widgets fs dirs m)) (dict_keys (widget_definitions st)) ∧
  widget_definitions st' = widget_definitions st ++ module_widgets fs dirs m ∧
  fresh_keys (dict_keys (module_data fs dirs m)) (dict_keys (data_definitions st)) ∧
  data_definitions st' = data_definitions st ++ module_data fs dirs m ∧
  omap not_none [app_config st; module_app fs dirs m] = omap not_none [app_config st'] ∧
  layouts_paths st' = layouts_paths st.
Proof.
  unfold visit, module_widgets, module_data, module_app, module_content.
  intros H. inv_bind H. injection Hstep as <- <-.
  destruct (find_module_file fs (layouts_paths st) m) as [file|]; [|done].
  destruct (lang_load fs file) as [content|]; [|done].
  by apply process_content_state in H.
Qed.

Lemma omap_cons_app {A B} (f : A -> option B) x l : omap f (x :: l) = omap f [x] ++ omap f l.
Proof. by rewrite <- omap_app. Qed.

(** The state after a successful run of the loop: the modules it newly
    visits contribute, in visit order, their qualified widgets and their
    data (all keys new), and at most one app block overall. *)
Lemma bfs_state fs fuel queue visited st res st' :
  bfs fs fuel queue visited st = (Ok res, st') ->
  let dirs := layouts_paths st in
  ∃ new, res = visited ++ new ∧
    fresh_keys (dict_keys (mjoin (module_widgets fs dirs <$> new))) (dict_keys (widget_definitions st)) ∧
    widget_definitions st' = widget_definitions st ++ mjoin (module_widgets fs dirs <$> new) ∧
    fresh_keys (dict_keys (mjoin (module_data fs dirs <$> new))) (dict_keys (data_definitions st)) ∧
    data_definitions st' = data_definitions st ++ mjoin (module_data fs dirs <$> new) ∧
    omap not_none (app_config st :: (module_app fs dirs <$> new)) = omap not_none [app_config st'].
Proof.
  revert queue visited st. induction fuel as [|fuel IH]; intros queue visited st; [done|].
  destruct queue as [|x rest]; cbn [bfs].
  - intros [= <- <-]. exists []. rewrite !app_nil_r. split; [done|].
    repeat split; try apply fresh_keys_nil; done.
  - intros H. apply bind_Ok_inv in H as (m & st1 & Hm & H).
    apply lift_py_Ok in Hm as [Hm ->]. cbv beta in H.
    destruct (decide (m ∈ visited)) as [Hin|Hin]; [exact (IH _ _ _ H)|].
    inv_bind H.
    destruct (visit_state _ _ _ _ _ Hstep) as (Hfw & Hw & Hfd & Hd & Ha & Hp).
    destruct (IH _ _ _ H) as (new & -> & Hfw' & Hw' & Hfd' & Hd' & Ha').
    rewrite Hp in *. exists (m :: new). rewrite <- app_assoc. split; [done|].
    change (mjoin (?f <$> m :: new)) with (f m ++ mjoin (f <$> new)).
    rewrite !dict_keys_app, !fresh_keys_app, Hw', Hw, Hd', Hd, !app_assoc.
    rewrite Hw, Hd, dict_keys_app in *.
    split; [done|]. split; [done|]. split; [done|]. split; [done|].
    rewrite fmap_cons, (omap_cons_app _ (app_config st)), (omap_cons_app _ (module_app _ _ m)).
    rewrite app_assoc, <- omap_app.
    change ([app_config st] ++ [module_app fs (layouts_paths st) m])
      with [app_config st; module_app fs (layouts_paths st) m].
    rewrite Ha, <- omap_cons_app. done.
Qed.

(** Every module a successful run adds to the visited list has a file
    that loads. *)
Lemma bfs_found fs fuel queue visited st res st' :
  bfs fs fuel queue visited st = (Ok res, st') ->
  ∀ m, m ∈ res -> m ∉ visited -> is_Some (module_content fs (layouts_paths st) m).
Proof.
  revert queue visited st. induction fuel as [|fuel IH]; intros queue visited st; [done|].
  destruct queue as [|x rest]; cbn [bfs].
  - intros [= <- <-] m Hm Hn. done.
  - intros H. apply bind_Ok_inv in H as (m & st1 & Hm & H).
    apply lift_py_Ok in Hm as [Hm ->]. cbv beta in H.
    destruct (decide (m ∈ visited)) as [Hin|Hin]; [exact (IH _ _ _ H)|].
    inv_bind H. intros m' Hm' Hn'. destruct (decide (m' = m)) as [->|Hne].
    + destruct (visit_Ok _ _ _ _ _ Hstep) as (file & v & Hf & Hl & _).
      unfold module_content. rewrite Hf. unfold lang_load. rewrite Hl. by eexists.
    + rewrite <- (visit_paths _ _ _ _ _ Hstep). apply (IH _ _ _ H m' Hm').
      rewrite elem_of_app, list_elem_of_singleton. by intros [|].
Qed.

Lemma validate_Ok st u st' :
  validate st = (Ok u, st') ->
  st' = st ∧ widget_definitions st ≠ [] ∧ app_config st ≠ YNone.
Proof.
  unfold validate. unfold_M. destruct (widget_definitions st) eqn:Hw; simpl; [done|].
  destruct (app_config st) eqn:Ha; intros H; simplify_eq; done.
Qed.

Lemma load_main_module_Ok_merged fs module_name st visited st' :
  load_main_module fs module_name st = (Ok visited, st') ->
  let dirs := layouts_paths st in
  widget_definitions st' = widget_definitions st ++ mjoin (module_widgets fs dirs <$> visited) ∧
  fresh_keys (dict_keys (mjoin (module_widgets fs dirs <$> visited)))
             (dict_keys (widget_definitions st)) ∧
  data_definitions st' = data_definitions st ++ mjoin (module_data fs dirs <$> visited) ∧
  fresh_keys (dict_keys (mjoin (module_data fs dirs <$> visited)))
             (dict_keys (data_definitions st)) ∧
  widget_definitions st' ≠ [] ∧
  omap not_none (app_config st :: (module_app fs dirs <$> visited)) = [app_config st'].
Proof.
  unfold load_main_module, load_main_module_fuel. intros H. inv_bind H.
  injection H as <- <-. apply validate_Ok in Hstep0 as (-> & Hne & Happ).
  destruct (bfs_state _ _ _ _ _ _ _ Hstep) as (new & -> & Hfw & Hw & Hfd & Hd & Ha).
  rewrite app_nil_l. rewrite Ha. simpl. destruct (app_config x0); done.
Qed.

(** C3: when [load_main_module] succeeds, the merged collections are the
    contributions of the visited modules in visit order: the qualified
    widget names and the data keys are all new (no duplicate, none defined
    before), some widget exists, and exactly one app block was found
    among the object's previous one and those of the visited modules. *)
Theorem load_main_module_merges fs module_name st visited st' :
  load_main_module fs module_name st = (Ok visited, st') ->
  let dirs := layouts_paths st in
  widget_definitions st' = widget_definitions st ++ mjoin (module_widgets fs dirs <$> visited) ∧
  fresh_keys (dict_keys (mjoin (module_widgets fs dirs <$> visited)))
             (dict_keys (widget_definitions st)) ∧
  data_definitions st' = data_definitions st ++ mjoin (module_data fs dirs <$> visited) ∧
  fresh_keys (dict_keys (mjoin (module_data fs dirs <$> visited)))
             (dict_keys (data_definitions st)) ∧
  widget_definitions st' ≠ [] ∧
  omap not_none (app_config st :: (module_app fs dirs <$> visited)) = [app_config st'].
Proof. apply load_main_module_Ok_merged. Qed.

(** C4: strict policy for data: when two different modules reachable
    from the main module both define a data key, [load_main_module] does
    not succeed. *)
Theorem load_main_module_duplicate_data fs module_name st m1 m2 k :
  m1 ≠ m2 ->
  reachable (lang_edges fs (layouts_paths st)) (seeds module_name) m1 ->
  reachable (lang_edges fs (layouts_paths st)) (seeds module_name) m2 ->
  k ∈ dict_keys (module_data fs (layouts_paths st) m1) ->
  k ∈ dict_keys (module_data fs (layouts_paths st) m2) ->
  is_ok (load_main_module fs module_name st).1 = false.
Proof.
  intros Hne Hr1 Hr2 Hk1 Hk2. apply is_ok_false. intros visited Hok.
  destruct (load_main_module fs module_name st) as [o st'] eqn:H. simpl in Hok. subst o.
  destruct (load_main_module_Ok_visited _ _ _ _ _ H) as [Hnd Hvis].
  destruct (load_main_module_Ok_merged _ _ _ _ _ H) as (_ & _ & _ & [Hfd _] & _).
  rewrite dict_keys_join, <- list_fmap_compose in Hfd.
  eapply (NoDup_join_fmap_disjoint (dict_keys ∘ module_data fs (layouts_paths st)));
    [exact Hfd|exact Hnd|apply Hvis, Hr1|apply Hvis, Hr2|exact Hne|exact Hk1|exact Hk2].
Qed.

(** C27: strict policy for the app block: when two different modules
    reachable from the main module both have a non-null [app] block,
    [load_main_module] does not succeed. *)
Theorem load_main_module_duplicate_app fs module_name st m1 m2 :
  m1 ≠ m2 ->
  reachable (lang_edges fs (layouts_paths st)) (seeds module_name) m1 ->
  reachable (lang_edges fs (layouts_paths st)) (seeds module_name) m2 ->
  module_app fs (layouts_paths st) m1 ≠ YNone -> module_app fs (layouts_paths st) m2 ≠ YNone ->
  is_ok (load_main_module fs module_name st).1 = false.
Proof.
  intros Hne Hr1 Hr2 Ha1 Ha2. apply is_ok_false. intros visited Hok.
  destruct (load_main_module fs module_name st) as [o st'] eqn:H. simpl in Hok. subst o.
  destruct (load_main_module_Ok_visited _ _ _ _ _ H) as [Hnd Hvis].
  destruct (load_main_module_Ok_merged _ _ _ _ _ H) as (_ & _ & _ & _ & _ & Happ).
  assert (Hlen : 2 ≤ length (omap (not_none ∘ module_app fs (layouts_paths st)) visited)).
  { apply (omap_two _ _ m1 m2 Hnd); [by apply Hvis|by apply Hvis|done| |];
      unfold compose; [destruct (module_app fs (layouts_paths st) m1)
                      |destruct (module_app fs (layouts_paths st) m2)]; done. }
  apply (f_equal length) in Happ. rewrite (omap_cons_app _ (app_config st)) in Happ.
  rewrite length_app, omap_fmap in Happ. simpl in Happ. lia.
Qed.

(** C8: qualified widget names do not keep modules apart: when two
    different reachable modules define widgets whose qualified names
    [f"{module}.{widget}"] coincide (the widget [b.c] of module [a] and the
    widget [c] of module [a.b] are both [a.b.c]), [load_main_module] does
    not succeed, although no module repeats a widget. *)
Theorem load_main_module_qualified_collision fs module_name st m1 m2 c1 c2 w1 w2 :
  m1 ≠ m2 ->
  reachable (lang_edges fs (layouts_paths st)) (seeds module_name) m1 ->
  reachable (lang_edges fs (layouts_paths st)) (seeds module_name) m2 ->
  module_content fs (layouts_paths st) m1 = Some c1 ->
  module_content fs (layouts_paths st) m2 = Some c2 ->
  w1 ∈ dict_keys (section_items c1 "widgets") -> w2 ∈ dict_keys (section_items c2 "widgets") ->
  qualify m1 w1 = qualify m2 w2 ->
  is_ok (load_main_module fs module_name st).1 = false.
Proof.
  intros Hne Hr1 Hr2 Hc1 Hc2 Hw1 Hw2 Hq. apply is_ok_false. intros visited Hok.
  destruct (load_main_module fs module_name st) as [o st'] eqn:H. simpl in Hok. subst o.
  destruct (load_main_module_Ok_visited _ _ _ _ _ H) as [Hnd Hvis].
  destruct (load_main_module_Ok_merged _ _ _ _ _ H) as (_ & [Hfw _] & _).
  rewrite dict_keys_join, <- list_fmap_compose in Hfw.
  assert (Hk : ∀ m c w, module_content fs (layouts_paths st) m = Some c ->
                 w ∈ dict_keys (section_items c "widgets") ->
                 qualify m w ∈ (dict_keys ∘ module_widgets fs (layouts_paths st)) m).
  { intros m c w Hc Hw. unfold compose, module_widgets. rewrite Hc, dict_keys_rekey.
    by apply list_elem_of_fmap_2. }
  eapply (NoDup_join_fmap_disjoint (dict_keys ∘ module_widgets fs (layouts_paths st)));
    [exact Hfw|exact Hnd|apply Hvis, Hr1|apply Hvis, Hr2|exact Hne|by apply (Hk m1 c1)|].
  rewrite Hq. by apply (Hk m2 c2).
Qed.

(** C28: strict policy for locating and loading: when a module reachable
    from the main module and ["builtin"] is in no search path, or its file
    is not a YAML document (a directory, a parse error), the load does not
    succeed. *)
Theorem load_main_module_requires_files fs module_name st m :
  reachable (lang_edges fs (layouts_paths st)) (seeds module_name) m ->
  module_content fs (layouts_paths st) m = None ->
  is_ok (load_main_module fs module_name st).1 = false.
Proof.
  intros Hr Hc. apply is_ok_false. intros visited Hok.
  destruct (load_main_module fs module_name st) as [o st'] eqn:H. simpl in Hok. subst o.
  destruct (load_main_module_Ok_visited _ _ _ _ _ H) as [_ Hvis].
  unfold load_main_module, load_main_module_fuel in H. inv_bind H. injection H as <- _.
  destruct (bfs_found _ _ _ _ _ _ _ Hstep m) as [c Hc']; [by apply Hvis|set_solver|congruence].
Qed.

Lemma load_main_module_paths fs module_name st o st' :
  load_main_module fs module_name st = (o, st') -> layouts_paths st' = layouts_paths st.
Proof.
  unfold load_main_module, load_main_module_fuel. intros H.
  eapply (respects_bind same_paths); [apply bfs_paths| |exact H].
  intros v. unfold validate. solve_M_prop.
Qed.

(** C5: [Lang] never resets its collections: after a successful
    [load_main_module] on an object that held no widget, a second call
    with the same module on the same object never succeeds. *)
Theorem load_main_module_not_reentrant fs module_name st visited st1 :
  widget_definitions st = [] ->
  load_main_module fs module_name st = (Ok visited, st1) ->
  is_ok (load_main_module fs module_name st1).1 = false.
Proof.
  intros Hempty H1. apply is_ok_false. intros visited2 Hok.
  destruct (load_main_module fs module_name st1) as [o st2] eqn:H2. simpl in Hok. subst o.
  pose proof (load_main_module_paths _ _ _ _ _ H1) as Hp.
  destruct (load_main_module_Ok_visited _ _ _ _ _ H1) as [_ Hv1].
  destruct (load_main_module_Ok_visited _ _ _ _ _ H2) as [_ Hv2].
  destruct (load_main_module_Ok_merged _ _ _ _ _ H1) as (Hw1 & _ & _ & _ & Hne & _).
  destruct (load_main_module_Ok_merged _ _ _ _ _ H2) as (_ & [_ Hf2] & _).
  rewrite Hp in Hv2, Hf2. rewrite Hempty in Hw1. simpl in Hw1.
  rewrite Hw1 in Hne. apply join_fmap_nonempty in Hne as (m & Hm & Hwm).
  destruct (module_widgets fs (layouts_paths st) m) as [|[k v] ws] eqn:Hws; [done|].
  assert (Hk : k ∈ dict_keys (module_widgets fs (layouts_paths st) m)) by (rewrite Hws; left).
  assert (Hm2 : m ∈ visited2) by (apply Hv2, Hv1, Hm).
  rewrite Forall_forall in Hf2.
  apply (Hf2 k); [by eapply dict_keys_join_elem|].
  rewrite Hw1. by eapply dict_keys_join_elem.
Qed.

(** C6: [dispose] restores a fresh object: after any call of
    [load_main_module] on a new [Lang], [dispose] followed by
    [load_main_module] behaves exactly as the first call. *)
Theorem dispose_then_reload fs builtin paths module_name o st1 :
  load_main_module fs module_name (lang_new builtin paths) = (o, st1) ->
  (dispose;; load_main_module fs module_name) st1 =
    load_main_module fs module_name (lang_new builtin paths).
Proof.
  intros H. apply load_main_module_paths in H. unfold_M. unfold dispose. unfold_M.
  destruct st1 as [p w d a]. simpl in H. by subst.
Qed.

(** ** Imports written as a bare string *)

(** C7: an [import] given as a bare string [s] (not a list) queues the
    one-character strings of [s], not [s]: [queue.extend] iterates over the
    string. *)
Theorem import_values_bare_string d s st :
  dict_get "import" d = Some (YStr s) -> s ≠ ""%string ->
  import_values (YDict d) st = (Ok (YStr <$> string_chars s), st).
Proof.
  intros Hd Hs. unfold import_values. simpl. rewrite Hd.
  unfold_M. simpl. by rewrite bool_decide_eq_false_2.
Qed.

(** ** [init] *)

(** C9: [init] succeeds, without changing the object, when every search
    path is an existing directory; otherwise it reports the first search
    path that is missing or not a directory. *)
Theorem init_spec fs st :
  (Forall (λ p, path_is_dir fs p = true) (layouts_paths st) -> init fs st = (Ok tt, st)) ∧
  (∀ pre p post, layouts_paths st = pre ++ p :: post ->
     Forall (λ p, path_is_dir fs p = true) pre -> path_is_dir fs p = false ->
     init fs st = (Err (if path_exists fs p then SearchPathNotDir p else SearchPathMissing p), st)).
Proof.
  unfold init. unfold_M. split.
  - induction (layouts_paths st) as [|p ps IH]; intros Hall; [done|].
    inversion Hall as [|? ? Hp Hps]; subst. simpl.
    rewrite (path_is_dir_exists _ _ Hp), Hp. simpl. by apply IH.
  - intros pre p post ->. induction pre as [|q pre IH]; intros Hpre Hp; simpl.
    + rewrite Hp. by destruct (path_exists fs p).
    + inversion Hpre as [|? ? Hq Hqs]; subst.
      rewrite (path_is_dir_exists _ _ Hq), Hq. simpl. by apply IH.
Qed.

(** ** A concrete configuration

    The scenario of the specification: [root] imports [leaf] and defines
    the widget [btn]; [leaf] defines the widget [label] and the data
    [greeting]; the builtin layouts directory holds [builtin.yaml] with
    the app block. *)
Definition demo_builtin : path := path_of_string "imery/frontend/layouts".
Definition demo_dir : path := path_of_string "demo".

Definition demo_fs : filesystem := mk_fs [
  (demo_builtin, EDir); (demo_dir, EDir);
  (path_div demo_builtin "builtin.yaml",
     EFile (Parsed (YDict [("app", YDict [("title", YStr "demo")])])));
  (path_div demo_dir "root.yaml",
     EFile (Parsed (YDict [("import", YList [YStr "leaf"]);
                           ("widgets", YDict [("btn", YStr "button")])])));
  (path_div demo_dir "leaf.yaml",
     EFile (Parsed (YDict [("widgets", YDict [("label", YStr "text")]);
                           ("data", YDict [("greeting", YStr "hi")])])))].

Definition demo_lang : lang := lang_new demo_builtin ["demo"].

Lemma load_main_module_visits_reachable_witness :
  NoDup ["root"; "builtin"; "leaf"] ∧
  ∀ m, m ∈ ["root"; "builtin"; "leaf"] ↔
       reachable (lang_edges demo_fs (layouts_paths demo_lang)) (seeds "root") m.
Proof.
  apply (load_main_module_visits_reachable demo_fs "root" demo_lang _
           (load_main_module demo_fs "root" demo_lang).2).
  vm_compute. reflexivity.
Defined.

(** [root] and ["builtin"] are seeds, [leaf] is one import away. *)
Lemma load_main_module_breadth_first_witness :
  StronglySorted (depth_le (lang_edges demo_fs (layouts_paths demo_lang)) (seeds "root"))
    ["root"; "builtin"; "leaf"].
Proof.
  apply (load_main_module_breadth_first demo_fs "root" demo_lang _
           (load_main_module demo_fs "root" demo_lang).2).
  vm_compute. reflexivity.
Defined.

Definition demo_final : lang := (load_main_module demo_fs "root" demo_lang).2.

Lemma load_main_module_merges_witness :
  let dirs := layouts_paths demo_lang in
  widget_definitions demo_final =
    widget_definitions demo_lang ++ mjoin (module_widgets demo_fs dirs <$> ["root"; "builtin"; "leaf"]) ∧
  fresh_keys (dict_keys (mjoin (module_widgets demo_fs dirs <$> ["root"; "builtin"; "leaf"])))
             (dict_keys (widget_definitions demo_lang)) ∧
  data_definitions demo_final =
    data_definitions demo_lang ++ mjoin (module_data demo_fs dirs <$> ["root"; "builtin"; "leaf"]) ∧
  fresh_keys (dict_keys (mjoin (module_data demo_fs dirs <$> ["root"; "builtin"; "leaf"])))
             (dict_keys (data_definitions demo_lang)) ∧
  widget_definitions demo_final ≠ [] ∧
  omap not_none (app_config demo_lang :: (module_app demo_fs dirs <$> ["root"; "builtin"; "leaf"])) =
    [app_config demo_final].
Proof.
  apply (load_main_module_merges demo_fs "root" demo_lang _ demo_final).
  vm_compute. reflexivity.
Defined.

(** Two modules defining the data key [greeting]. *)
Definition dup_fs : filesystem := mk_fs [
  (demo_builtin, EDir); (demo_dir, EDir);
  (path_div demo_builtin "builtin.yaml",
     EFile (Parsed (YDict [("app", YDict [("title", YStr "demo")])])));
  (path_div demo_dir "root.yaml",
     EFile (Parsed (YDict [("import", YList [YStr "leaf"]);
                           ("widgets", YDict [("btn", YStr "button")]);
                           ("data", YDict [("greeting", YStr "hello")])])));
  (path_div demo_dir "leaf.yaml",
     EFile (Parsed (YDict [("data", YDict [("greeting", YStr "hi")])])))].

Lemma load_main_module_duplicate_data_witness :
  is_ok (load_main_module dup_fs "root" demo_lang).1 = false.
Proof.
  apply (load_main_module_duplicate_data dup_fs "root" demo_lang "root" "leaf" "greeting").
  - discriminate.
  - apply reach_seed. by left.
  - apply (reach_edge _ _ "root"); [apply reach_seed; by left|]. vm_compute. by left.
  - vm_compute. by left.
  - vm_compute. by left.
Defined.

Lemma load_main_module_not_reentrant_witness :
  is_ok (load_main_module demo_fs "root" demo_final).1 = false.
Proof.
  apply (load_main_module_not_reentrant demo_fs "root" demo_lang ["root"; "builtin"; "leaf"]).
  - reflexivity.
  - vm_compute. reflexivity.
Defined.

Lemma dispose_then_reload_witness :
  (dispose;; load_main_module demo_fs "root") demo_final =
    load_main_module demo_fs "root" (lang_new demo_builtin ["demo"]).
Proof.
  apply (dispose_then_reload demo_fs demo_builtin ["demo"] "root"
           (load_main_module demo_fs "root" demo_lang).1).
  vm_compute. reflexivity.
Defined.

Lemma import_values_bare_string_witness :
  import_values (YDict [("import", YStr "leaf")]) demo_lang =
    (Ok (YStr <$> string_chars "leaf"), demo_lang).
Proof. apply import_values_bare_string; [reflexivity|discriminate]. Defined.

(** The bare string [import: leaf] makes the run look for a module [l]. *)
Definition bare_fs : filesystem := mk_fs [
  (demo_builtin, EDir); (demo_dir, EDir);
  (path_div demo_builtin "builtin.yaml",
     EFile (Parsed (YDict [("app", YDict [("title", YStr "demo")])])));
  (path_div demo_dir "root.yaml",
     EFile (Parsed (YDict [("import", YStr "leaf");
                           ("widgets", YDict [("btn", YStr "button")])])));
  (path_div demo_dir "leaf.yaml",
     EFile (Parsed (YDict [("widgets", YDict [("label", YStr "text")])])))].

Lemma bare_string_import_run :
  (load_main_module bare_fs "root" demo_lang).1 =
    Err (ModuleNotFound "l" (layouts_paths demo_lang)).
Proof. vm_compute. reflexivity. Qed.

(** The widget [b.c] of module [a] and the widget [c] of module [a.b]. *)
Definition collide_fs : filesystem := mk_fs [
  (demo_builtin, EDir); (demo_dir, EDir);
  (path_div demo_builtin "builtin.yaml",
     EFile (Parsed (YDict [("app", YDict [("title", YStr "demo")])])));
  (path_div demo_dir "a.yaml",
     EFile (Parsed (YDict [("import", YList [YStr "a.b"]);
                           ("widgets", YDict [("b.c", YStr "button")])])));
  (path_div demo_dir "a/b.yaml",
     EFile (Parsed (YDict [("widgets", YDict [("c", YStr "text")])])))].

Lemma load_main_module_qualified_collision_witness :
  is_ok (load_main_module collide_fs "a" demo_lang).1 = false.
Proof.
  apply (load_main_module_qualified_collision collide_fs "a" demo_lang "a" "a.b"
           (YDict [("import", YList [YStr "a.b"]); ("widgets", YDict [("b.c", YStr "button")])])
           (YDict [("widgets", YDict [("c", YStr "text")])]) "b.c" "c").
  - discriminate.
  - apply reach_seed. by left.
  - apply (reach_edge _ _ "a"); [apply reach_seed; by left|]. vm_compute. by left.
  - vm_compute. reflexivity.
  - vm_compute. reflexivity.
  - vm_compute. by left.
  - vm_compute. by left.
  - reflexivity.
Defined.

Lemma init_spec_witness :
  (Forall (λ p, path_is_dir demo_fs p = true) (layouts_paths demo_lang) ->
     init demo_fs demo_lang = (Ok tt, demo_lang)) ∧
  (∀ pre p post, layouts_paths demo_lang = pre ++ p :: post ->
     Forall (λ p, path_is_dir demo_fs p = true) pre -> path_is_dir demo_fs p = false ->
     init demo_fs demo_lang =
       (Err (if path_exists demo_fs p then SearchPathNotDir p else SearchPathMissing p), demo_lang)).
Proof. apply init_spec. Defined.

(** [root] and [builtin] both have an app block. *)
Definition app2_fs : filesystem := mk_fs [
  (demo_builtin, EDir); (demo_dir, EDir);
  (path_div demo_builtin "builtin.yaml",
     EFile (Parsed (YDict [("app", YDict [("title", YStr "demo")])])));
  (path_div demo_dir "root.yaml",
     EFile (Parsed (YDict [("app", YDict [("title", YStr "root")]);
                           ("widgets", YDict [("btn", YStr "button")])])))].

Lemma load_main_module_duplicate_app_witness :
  is_ok (load_main_module app2_fs "root" demo_lang).1 = false.
Proof.
  apply (load_main_module_duplicate_app app2_fs "root" demo_lang "root" "builtin").
  - discriminate.
  - apply reach_seed. by left.
  - apply reach_seed. right. by left.
  - vm_compute. discriminate.
  - vm_compute. discriminate.
Defined.

(** [root] imports [leaf], which is in no search path. *)
Definition miss_fs : filesystem := mk_fs [
  (demo_builtin, EDir); (demo_dir, EDir);
  (path_div demo_builtin "builtin.yaml",
     EFile (Parsed (YDict [("app", YDict [("title", YStr "demo")])])));
  (path_div demo_dir "root.yaml",
     EFile (Parsed (YDict [("import", YList [YStr "leaf"]);
                           ("widgets", YDict [("btn", YStr "button")])])))].

Lemma load_main_module_requires_files_witness :
  is_ok (load_main_module miss_fs "root" demo_lang).1 = false.
Proof.
  apply (load_main_module_requires_files miss_fs "root" demo_lang "leaf").
  - apply (reach_edge _ _ "root"); [apply reach_seed; by left|]. vm_compute. by left.
  - vm_compute. reflexivity.
Defined.

End Lang.
