(* ===== verification/Aggregator.v ===== *)
(** * The documentation aggregator: src/scripts/aggregate_demo_yaml.py

    [YAMLAggregator] resolves the same module language as [Lang] with the
    other policy: [process_module] is a recursive depth-first traversal
    that processes a module's imports before merging the module itself;
    widgets are stored under their bare name together with the owning
    module, data under their key, and every duplicate overwrites the
    earlier value with a warning; the [app] block of the last merged module
    that has one wins; a module that is not found is skipped with a
    warning.  [aggregate] then builds the output document, passing every
    section through [process_widget_references]; [save] and [main], which
    write it after a provenance header, are in [Cli].

    The object is the record [aggregator]; what the script prints is kept
    in its [log] field, in order. *)

From stdpp Require Import base list strings gmap sets.
From Stdlib Require Import Ascii.
From S2P Require Import Prelude PyDict PyValue Paths Graph.

Module Aggregator.

(** The lines the script prints. *)
Inductive message :=
  | MsgAggregating (main : string)
  | MsgNotFound (m : string)
  | MsgProcessing (file : path)
  | MsgLoadError (file : path)
  | MsgDuplicateWidget (w m : string)
  | MsgDuplicateData (d : string)
  | MsgWriting (file : path)
  | MsgDemoMissing (dir : path)
  | MsgNotADirectory (dir : path)
  | MsgSummary (modules widgets data : nat) (output : path).

(** The fields of a [YAMLAggregator]; [visited_modules] is the set in
    insertion order; [app_config] is [YNone] for [None]. *)
Record aggregator := mk_agg {
  demo_dir : path;
  search_paths : list path;
  widgets : dict string (string * yaml);
  data : dict string yaml;
  app_config : yaml;
  visited_modules : list string;
  log : list message
}.

Notation AM := (M aggregator Empty_set).

Definition set_visited (st : aggregator) (v : list string) : aggregator :=
  {| demo_dir := demo_dir st; search_paths := search_paths st; widgets := widgets st;
     data := data st; app_config := app_config st; visited_modules := v; log := log st |}.
Definition set_widgets (st : aggregator) (w : dict string (string * yaml)) : aggregator :=
  {| demo_dir := demo_dir st; search_paths := search_paths st; widgets := w;
     data := data st; app_config := app_config st; visited_modules := visited_modules st;
     log := log st |}.
Definition set_data (st : aggregator) (d : dict string yaml) : aggregator :=
  {| demo_dir := demo_dir st; search_paths := search_paths st; widgets := widgets st;
     data := d; app_config := app_config st; visited_modules := visited_modules st;
     log := log st |}.
Definition set_app (st : aggregator) (a : yaml) : aggregator :=
  {| demo_dir := demo_dir st; search_paths := search_paths st; widgets := widgets st;
     data := data st; app_config := a; visited_modules := visited_modules st; log := log st |}.

(** [print(...)] *)
Definition emit (msg : message) : AM unit :=
  modify_st (λ st,
    {| demo_dir := demo_dir st; search_paths := search_paths st; widgets := widgets st;
       data := data st; app_config := app_config st; visited_modules := visited_modules st;
       log := log st ++ [msg] |}).

(** [__init__] (lines 26-32): [search_paths or [demo_dir]]. *)
Definition agg_new (dir : path) (paths : list path) : aggregator :=
  {| demo_dir := dir; search_paths := match paths with [] => [dir] | _ => paths end;
     widgets := []; data := []; app_config := YNone; visited_modules := []; log := [] |}.

(** [find_yaml_file] (lines 34-43). *)
Definition find_yaml_file (fs : filesystem) (paths : list path) (module_name : string)
  : option path :=
  find_first fs paths (module_file_name module_name).

(** [load_yaml] (lines 45-53): an exception is printed and gives [{}]. *)
Definition load_yaml (fs : filesystem) (file : path) : AM yaml :=
  match fs_lookup fs file with
  | Some (EFile (Parsed _)) => mret (aggregator_load_yaml fs file)
  | _ => emit (MsgLoadError file);; mret (aggregator_load_yaml fs file)
  end.

(** Lines 72-74: [imports = content.get('import', [])], a bare string
    becomes a one-element list, then the [for] loop iterates over it. *)
Definition import_list (content : yaml) : pyexn + list yaml :=
  match py_get content "import" (YList []) with
  | inl x => inl x
  | inr (YStr s) => inr [YStr s]
  | inr imports => py_iter imports
  end.

(** Lines 79-83: widgets are stored bare, with their module; a duplicate
    overwrites the earlier one after a warning. *)
Fixpoint merge_widgets_overwrite (m : string) (ws : dict string yaml) : AM unit :=
  match ws with
  | [] => mret tt
  | (w, def) :: rest =>
      st ← get_st;
      (if dict_mem w (widgets st) then emit (MsgDuplicateWidget w m) else mret tt);;
      modify_st (λ st, set_widgets st (dict_set w (m, def) (widgets st)));;
      merge_widgets_overwrite m rest
  end.

(** Lines 86-90. *)
Fixpoint merge_data_overwrite (ds : dict string yaml) : AM unit :=
  match ds with
  | [] => mret tt
  | (k, def) :: rest =>
      st ← get_st;
      (if dict_mem k (data st) then emit (MsgDuplicateData k) else mret tt);;
      modify_st (λ st, set_data st (dict_set k def (data st)));;
      merge_data_overwrite rest
  end.

(** Lines 93-94: [if 'app' in module_content: self.app_config = ...]. *)
Definition app_entry (content : yaml) : option yaml :=
  match content with YDict d => dict_get "app" d | _ => None end.

Definition merge_app_last (content : yaml) : AM unit :=
  match app_entry content with
  | Some a => modify_st (λ st, set_app st a)
  | None => mret tt
  end.

(** Lines 75-76: [for imported_module in imports: self.process_module(...)]. *)
Fixpoint process_all (f : yaml -> AM unit) (l : list yaml) : AM unit :=
  match l with
  | [] => mret tt
  | x :: rest => f x;; process_all f rest
  end.

(** [process_module] (lines 55-94): a recursion on the import graph,
    bounded by [fuel] (its depth). *)
Fixpoint process_module (fs : filesystem) (fuel : nat) (name : yaml) : AM unit :=
  match fuel with
  | O => out_of_fuel
  | S fuel' =>
      module_name ← lift_py (module_name_of name);
      st ← get_st;
      if decide (module_name ∈ visited_modules st) then mret tt
      else
        modify_st (λ st, set_visited st (visited_modules st ++ [module_name]));;
        match find_yaml_file fs (search_paths st) module_name with
        | None => emit (MsgNotFound module_name)
        | Some file =>
            emit (MsgProcessing file);;
            content ← load_yaml fs file;
            imports ← lift_py (import_list content);
            process_all (process_module fs fuel') imports;;
            ws ← lift_py (py_get content "widgets" (YDict []));
            witems ← lift_py (py_items ws);
            merge_widgets_overwrite module_name witems;;
            ds ← lift_py (py_get content "data" (YDict []));
            ditems ← lift_py (py_items ds);
            merge_data_overwrite ditems;;
            merge_app_last content
        end
  end.

(** [process_widget_references] (lines 96-111): a copy of the tree, a
    dict rebuilt by assigning its keys in order. *)
Fixpoint process_widget_references (obj : yaml) : yaml :=
  match obj with
  | YDict d =>
      YDict ((fix go (d : list (string * yaml)) (acc : dict string yaml) :=
                match d with
                | [] => acc
                | (k, v) :: rest => go rest (dict_set k (process_widget_references v) acc)
                end) d [])
  | YList l =>
      YList ((fix go (l : list yaml) :=
                match l with [] => [] | x :: rest => process_widget_references x :: go rest end) l)
  | _ => obj
  end.

(** [result[k] = v] for each item in order, from an empty dict. *)
Definition dict_from_items (items : list (string * yaml)) : dict string yaml :=
  foldl (λ acc kv, dict_set kv.1 kv.2 acc) [] items.

(** Lines 120-139: the output document. *)
Definition build_result (st : aggregator) : yaml :=
  YDict ((if truthy (app_config st)
          then [("app", process_widget_references (app_config st))] else []) ++
         (if dict_truthy (widgets st)
          then [("widgets", YDict (dict_from_items
                  ((λ kv, (kv.1, process_widget_references kv.2.2)) <$> widgets st)))]
          else []) ++
         (if dict_truthy (data st)
          then [("data", YDict (dict_from_items
                  ((λ kv, (kv.1, process_widget_references kv.2)) <$> data st)))]
          else [])).

(** [aggregate] (lines 113-139) with an explicit fuel. *)
Definition aggregate_fuel (fs : filesystem) (fuel : nat) (main_module : string) : AM yaml :=
  emit (MsgAggregating main_module);;
  process_module fs fuel (YStr main_module);;
  st ← get_st;
  mret (build_result st).

(** ** The fuel

    Every module name the recursion meets is the main module or an import
    value of a file of the filesystem; each nested call is made after a
    new name is added to [visited_modules], so the depth of the recursion
    is at most one more than the number of those names. *)
Definition entry_import_values (e : entry) : list yaml :=
  match e with
  | EFile (Parsed v) =>
      match import_list (if truthy v then v else YDict []) with inr l => l | inl _ => [] end
  | _ => []
  end.

Definition agg_universe (fs : filesystem) (main_module : string) : list yaml :=
  YStr main_module :: mjoin ((λ kv, entry_import_values kv.2) <$> fs_entries fs).

Definition agg_fuel (fs : filesystem) (main_module : string) : nat :=
  S (length (agg_universe fs main_module)).

Definition aggregate (fs : filesystem) (main_module : string) : AM yaml :=
  aggregate_fuel fs (agg_fuel fs main_module) main_module.

(** ** The import graph and the contributions as the aggregator reads them *)

Definition agg_content (fs : filesystem) (paths : list path) (m : string) : option yaml :=
  match find_yaml_file fs paths m with
  | Some file => Some (aggregator_load_yaml fs file)
  | None => None
  end.

Definition agg_edges (fs : filesystem) (paths : list path) (m : string) : list string :=
  match agg_content fs paths m with
  | Some c => match import_list c with inr l => omap str_of l | inl _ => [] end
  | None => []
  end.

(** Merging one module into the widgets, the data and the app block. *)
Definition merge_module_widgets fs paths (w : dict string (string * yaml)) (m : string) :=
  match agg_content fs paths m with
  | Some c => foldl (λ acc kv, dict_set kv.1 (m, kv.2) acc) w (section_items c "widgets")
  | None => w
  end.
Definition merge_module_data fs paths (d : dict string yaml) (m : string) :=
  match agg_content fs paths m with
  | Some c => foldl (λ acc kv, dict_set kv.1 kv.2 acc) d (section_items c "data")
  | None => d
  end.
Definition merge_module_app fs paths (a : yaml) (m : string) : yaml :=
  match agg_content fs paths m with
  | Some c => default a (app_entry c)
  | None => a
  end.

(** The object with new merged fields and visited set, and [msgs]
    printed. *)
Definition upd (st : aggregator) w d a v (msgs : list message) : aggregator :=
  {| demo_dir := demo_dir st; search_paths := search_paths st; widgets := w; data := d;
     app_config := a; visited_modules := v; log := log st ++ msgs |}.

Lemma upd_upd st w d a v m1 w' d' a' v' m2 :
  upd (upd st w d a v m1) w' d' a' v' m2 = upd st w' d' a' v' (m1 ++ m2).
Proof. unfold upd. simpl. by rewrite app_assoc. Qed.

Lemma upd_id st : upd st (widgets st) (data st) (app_config st) (visited_modules st) [] = st.
Proof. destruct st. unfold upd. simpl. by rewrite app_nil_r. Qed.

Lemma widgets_upd st w d a v msgs : widgets (upd st w d a v msgs) = w.
Proof. done. Qed.
Lemma data_upd st w d a v msgs : data (upd st w d a v msgs) = d.
Proof. done. Qed.
Lemma app_config_upd st w d a v msgs : app_config (upd st w d a v msgs) = a.
Proof. done. Qed.
Lemma visited_modules_upd st w d a v msgs : visited_modules (upd st w d a v msgs) = v.
Proof. done. Qed.
Lemma search_paths_upd st w d a v msgs : search_paths (upd st w d a v msgs) = search_paths st.
Proof. done. Qed.

Create Rewrite HintDb agg_upd.
#[export] Hint Rewrite widgets_upd data_upd app_config_upd visited_modules_upd
  search_paths_upd upd_upd : agg_upd.

Lemma set_widgets_upd st w d a v msgs x :
  set_widgets (upd st w d a v msgs) x = upd st x d a v msgs.
Proof. done. Qed.
Lemma set_data_upd st w d a v msgs x :
  set_data (upd st w d a v msgs) x = upd st w x a v msgs.
Proof. done. Qed.
Lemma set_app_upd st w d a v msgs x :
  set_app (upd st w d a v msgs) x = upd st w d x v msgs.
Proof. done. Qed.
Lemma set_visited_upd st w d a v msgs x :
  set_visited (upd st w d a v msgs) x = upd st w d a x msgs.
Proof. done. Qed.

Definition widgets_merge (m : string) (w : dict string (string * yaml)) (ws : dict string yaml) :=
  foldl (λ acc kv, dict_set kv.1 (m, kv.2) acc) w ws.
Definition data_merge (d : dict string yaml) (ds : dict string yaml) :=
  foldl (λ acc kv, dict_set kv.1 kv.2 acc) d ds.

(** ** The merge steps *)

Lemma emit_upd msg st :
  emit msg st = (Ok tt, upd st (widgets st) (data st) (app_config st) (visited_modules st) [msg]).
Proof. done. Qed.

Lemma merge_widgets_overwrite_upd m ws st :
  ∃ msgs, merge_widgets_overwrite m ws st =
    (Ok tt, upd st (widgets_merge m (widgets st) ws) (data st) (app_config st) (visited_modules st) msgs).
Proof.
  revert st. induction ws as [|[w d] ws IH]; intros st; cbn [merge_widgets_overwrite].
  - exists []. by rewrite upd_id.
  - assert (Hstep : ∃ msgs, (if dict_mem w (widgets st) then emit (MsgDuplicateWidget w m) else mret tt) st
               = (Ok tt, upd st (widgets st) (data st) (app_config st) (visited_modules st) msgs)).
    { destruct (dict_mem w (widgets st)); [eexists; apply emit_upd|exists []; by rewrite upd_id]. }
    destruct Hstep as [m1 Hs]. unfold_M. rewrite Hs. cbn beta iota.
    match goal with |- context [merge_widgets_overwrite m ws ?s] => destruct (IH s) as [m2 ->] end.
    exists (m1 ++ m2). by rewrite set_widgets_upd, upd_upd.
Qed.

Lemma merge_data_overwrite_upd ds st :
  ∃ msgs, merge_data_overwrite ds st =
    (Ok tt, upd st (widgets st) (data_merge (data st) ds) (app_config st) (visited_modules st) msgs).
Proof.
  revert st. induction ds as [|[k d] ds IH]; intros st; cbn [merge_data_overwrite].
  - exists []. by rewrite upd_id.
  - assert (Hstep : ∃ msgs, (if dict_mem k (data st) then emit (MsgDuplicateData k) else mret tt) st
               = (Ok tt, upd st (widgets st) (data st) (app_config st) (visited_modules st) msgs)).
    { destruct (dict_mem k (data st)); [eexists; apply emit_upd|exists []; by rewrite upd_id]. }
    destruct Hstep as [m1 Hs]. unfold_M. rewrite Hs. cbn beta iota.
    match goal with |- context [merge_data_overwrite ds ?s] => destruct (IH s) as [m2 ->] end.
    exists (m1 ++ m2). by rewrite set_data_upd, upd_upd.
Qed.

Lemma merge_app_last_upd c st :
  merge_app_last c st =
    (Ok tt, upd st (widgets st) (data st) (default (app_config st) (app_entry c))
                (visited_modules st) []).
Proof. unfold merge_app_last. destruct (app_entry c); unfold_M; by rewrite <- (upd_id st) at 1. Qed.

Lemma load_yaml_upd fs file st :
  ∃ msgs, load_yaml fs file st =
    (Ok (aggregator_load_yaml fs file),
     upd st (widgets st) (data st) (app_config st) (visited_modules st) msgs).
Proof.
  unfold load_yaml. case_match; try case_match; try case_match; unfold_M;
    first [by exists []; rewrite upd_id | by eexists].
Qed.

(** ** The traversal refines the reference depth-first search *)

Lemma section_items_of c k v d :
  py_get c k (YDict []) = inr v -> py_items v = inr d -> section_items c k = d.
Proof. unfold section_items. intros -> ->%py_items_inr. done. Qed.

Lemma process_module_str fs fuel x st st' :
  process_module fs fuel x st = (Ok tt, st') -> ∃ m, x = YStr m.
Proof. destruct fuel; [done|]. destruct x; cbn; unfold_M; try done. by eexists. Qed.

Lemma process_all_str fs fuel l st st' :
  process_all (process_module fs fuel) l st = (Ok tt, st') -> l = YStr <$> omap str_of l.
Proof.
  revert st. induction l as [|x l IH]; intros st; [done|]. cbn [process_all].
  intros H. inv_bind H. destruct (process_module_str _ _ _ _ _ Hstep) as [m ->].
  cbn. f_equal. by eapply IH.
Qed.

Lemma set_visited_as_upd st v :
  set_visited st v = upd st (widgets st) (data st) (app_config st) v [].
Proof. destruct st. unfold upd. simpl. by rewrite app_nil_r. Qed.

(** One step of a run, as an [upd] of the state before it. *)
Ltac upd_step :=
  match goal with
  | H : emit _ _ = (Ok _, _) |- _ => rewrite emit_upd in H; injection H as <-
  | H : merge_app_last _ _ = (Ok _, _) |- _ => rewrite merge_app_last_upd in H; injection H as <-
  | H : load_yaml ?fs ?f ?s = (Ok _, _) |- _ =>
      let E := fresh in destruct (load_yaml_upd fs f s) as [? E]; rewrite E in H;
      clear E; injection H as <- <-
  | H : merge_widgets_overwrite ?m ?ws ?s = (Ok _, _) |- _ =>
      let E := fresh in destruct (merge_widgets_overwrite_upd m ws s) as [? E]; rewrite E in H;
      clear E; injection H as <-
  | H : merge_data_overwrite ?ds ?s = (Ok _, _) |- _ =>
      let E := fresh in destruct (merge_data_overwrite_upd ds s) as [? E]; rewrite E in H;
      clear E; injection H as <-
  | H : lift_py _ _ = (Ok _, _) |- _ => apply lift_py_Ok in H as [? ->]
  end.

Lemma agg_content_found fs ps m file :
  find_yaml_file fs ps m = Some file -> agg_content fs ps m = Some (aggregator_load_yaml fs file).
Proof. unfold agg_content. by intros ->. Qed.

Lemma agg_content_missing fs ps m :
  find_yaml_file fs ps m = None -> agg_content fs ps m = None.
Proof. unfold agg_content. by intros ->. Qed.

Lemma agg_edges_found fs ps m file l :
  find_yaml_file fs ps m = Some file -> import_list (aggregator_load_yaml fs file) = inr l ->
  agg_edges fs ps m = omap str_of l.
Proof. unfold agg_edges, agg_content. by intros -> ->. Qed.

Lemma merge_module_found fs ps m c :
  agg_content fs ps m = Some c ->
  (∀ w, merge_module_widgets fs ps w m = widgets_merge m w (section_items c "widgets")) ∧
  (∀ d, merge_module_data fs ps d m = data_merge d (section_items c "data")) ∧
  (∀ a, merge_module_app fs ps a m = default a (app_entry c)).
Proof. unfold merge_module_widgets, merge_module_data, merge_module_app. by intros ->. Qed.

Lemma merge_module_missing fs ps m :
  agg_content fs ps m = None ->
  (∀ w, merge_module_widgets fs ps w m = w) ∧ (∀ d, merge_module_data fs ps d m = d) ∧
  (∀ a, merge_module_app fs ps a m = a).
Proof. unfold merge_module_widgets, merge_module_data, merge_module_app. by intros ->. Qed.

Lemma agg_edges_missing fs ps m :
  find_yaml_file fs ps m = None -> agg_edges fs ps m = [].
Proof. unfold agg_edges, agg_content. by intros ->. Qed.

Section refinement.
Variable fs : filesystem.
Variable ps : list path.

(** [run] from a state with search paths [ps] succeeds only as the
    reference step [ref] does on its visited set, merging the modules [ref]
    appends to the post-order, in that order. *)
Definition refines_dfs (run : AM unit)
    (ref : list string * list string -> option (list string * list string)) : Prop :=
  ∀ st st' P0, run st = (Ok tt, st') -> search_paths st = ps ->
  ∃ V' P msgs, ref (visited_modules st, P0) = Some (V', P0 ++ P) ∧
    st' = upd st (foldl (merge_module_widgets fs ps) (widgets st) P)
                 (foldl (merge_module_data fs ps) (data st) P)
                 (foldl (merge_module_app fs ps) (app_config st) P) V' msgs.

Lemma process_all_refines fuel ms :
  (∀ m, refines_dfs (process_module fs fuel (YStr m)) (wl_dfs (agg_edges fs ps) fuel m)) ->
  refines_dfs (process_all (process_module fs fuel) (YStr <$> ms))
              (fold_opt (wl_dfs (agg_edges fs ps) fuel) ms).
Proof.
  intros Hm. induction ms as [|m ms IH]; intros st st' P0 H Hp; cbn in H |- *.
  - injection H as <-. exists (visited_modules st), [], []. by rewrite app_nil_r, upd_id.
  - inv_bind H. destruct (Hm m _ _ P0 Hstep Hp) as (V1 & P1 & m1 & Hw & ->). rewrite Hw.
    destruct (IH _ _ (P0 ++ P1) H Hp) as (V2 & P2 & m2 & Hr & ->).
    exists V2, (P1 ++ P2), (m1 ++ m2). rewrite <- app_assoc in Hr.
    split; [exact Hr|]. by rewrite upd_upd, !foldl_app.
Qed.

Lemma process_module_refines fuel m :
  refines_dfs (process_module fs fuel (YStr m)) (wl_dfs (agg_edges fs ps) fuel m).
Proof.
  revert m. induction fuel as [|n IH]; intros m st st' P0 H Hp; [done|].
  cbn [process_module] in H. inv_bind H. apply lift_py_Ok in Hstep as [[= <-] ->].
  cbv [get_st] in Hstep0. injection Hstep0 as <- <-. cbn [wl_dfs fst snd].
  destruct (decide (m ∈ visited_modules st)) as [Hv|Hv].
  - injection H as <-. exists (visited_modules st), [], []. by rewrite app_nil_r, upd_id.
  - inv_bind H. cbv [modify_st] in Hstep. injection Hstep as <-. rewrite Hp in H.
    rewrite set_visited_as_upd in H.
    destruct (find_yaml_file fs ps m) as [file|] eqn:Hf.
    + inv_bind H. repeat upd_step.
      pose proof (process_all_str _ _ _ _ _ Hstep2) as Hl. rewrite Hl in Hstep2.
      destruct (process_all_refines n _ IH _ _ P0 Hstep2 Hp) as (V1 & P1 & m1 & Hw & ->).
      autorewrite with agg_upd in *.
      match goal with Hi : import_list _ = inr _ |- _ =>
        rewrite (agg_edges_found _ _ _ _ _ Hf Hi), Hw end.
      destruct (merge_module_found _ _ _ _ (agg_content_found _ _ _ _ Hf)) as (Ew & Ed & Ea).
      do 3 eexists. split; [by rewrite (app_assoc P0 P1 [m])|].
      rewrite !foldl_app. cbn [foldl]. rewrite Ew, Ed, Ea.
      repeat match goal with
      | Hg : py_get _ ?k _ = inr _, Hi : py_items _ = inr _ |- _ =>
          rewrite (section_items_of _ _ _ _ Hg Hi); clear Hg Hi
      end.
      reflexivity.
    + repeat upd_step. autorewrite with agg_upd in *.
      rewrite (agg_edges_missing _ _ _ Hf).
      destruct (merge_module_missing _ _ _ (agg_content_missing _ _ _ Hf)) as (Ew & Ed & Ea).
      exists (visited_modules st ++ [m]), [m]. eexists. split; [done|].
      cbn [foldl]. rewrite Ew, Ed, Ea. reflexivity.
Qed.

End refinement.

(** ** Termination *)

(** Every step keeps the demo directory and the search paths and only
    adds to [visited_modules]. *)
Definition vis_le : relation aggregator :=
  λ s s', demo_dir s' = demo_dir s ∧ search_paths s' = search_paths s ∧
          ∀ y, y ∈ visited_modules s -> y ∈ visited_modules s'.

#[export] Instance vis_le_preorder : PreOrder vis_le.
Proof.
  split; [by intros ?|]. intros x y z (H1 & H2 & H3) (H4 & H5 & H6).
  split; [congruence|]. split; [congruence|]. auto.
Qed.

#[local] Hint Extern 1 (vis_le _ _) =>
  (split; [done|split; [done|intros ??; cbn; set_solver]]) : imery.

Lemma emit_vis msg : respects vis_le (emit msg).
Proof. apply respects_modify. intros s. by split; [|split]. Qed.
Lemma emit_fuel_free msg : fuel_free (emit msg).
Proof. done. Qed.
#[local] Hint Resolve emit_vis emit_fuel_free : imery.

Lemma load_yaml_vis fs file : respects vis_le (load_yaml fs file).
Proof. unfold load_yaml. solve_M_prop. Qed.
Lemma load_yaml_fuel_free fs file : fuel_free (load_yaml fs file).
Proof. unfold load_yaml. solve_M_prop. Qed.
Lemma merge_app_last_vis c : respects vis_le (merge_app_last c).
Proof. unfold merge_app_last. solve_M_prop. Qed.
Lemma merge_app_last_fuel_free c : fuel_free (merge_app_last c).
Proof. unfold merge_app_last. solve_M_prop. Qed.
Lemma merge_widgets_overwrite_vis m ws : respects vis_le (merge_widgets_overwrite m ws).
Proof. induction ws as [|[w d] ws IH]; simpl; solve_M_prop. Qed.
Lemma merge_widgets_overwrite_fuel_free m ws : fuel_free (merge_widgets_overwrite m ws).
Proof. induction ws as [|[w d] ws IH]; simpl; solve_M_prop. Qed.
Lemma merge_data_overwrite_vis ds : respects vis_le (merge_data_overwrite ds).
Proof. induction ds as [|[k d] ds IH]; simpl; solve_M_prop. Qed.
Lemma merge_data_overwrite_fuel_free ds : fuel_free (merge_data_overwrite ds).
Proof. induction ds as [|[k d] ds IH]; simpl; solve_M_prop. Qed.
#[local] Hint Resolve load_yaml_vis load_yaml_fuel_free merge_app_last_vis
  merge_app_last_fuel_free merge_widgets_overwrite_vis merge_widgets_overwrite_fuel_free
  merge_data_overwrite_vis merge_data_overwrite_fuel_free : imery.

Lemma process_all_vis f l : (∀ x, respects vis_le (f x)) -> respects vis_le (process_all f l).
Proof. intros Hf. induction l; simpl; solve_M_prop. Qed.
#[local] Hint Resolve process_all_vis : imery.

Lemma process_module_vis fs fuel x : respects vis_le (process_module fs fuel x).
Proof.
  revert x. induction fuel as [|n IH]; intros x; cbn [process_module].
  - by intros s o s' [= _ <-].
  - solve_M_prop.
Qed.
#[local] Hint Resolve process_module_vis : imery.


Lemma import_list_empty : import_list (YDict []) = inr [].
Proof. done. Qed.

Section agg_termination.
Context (fs : filesystem) (U : list yaml).
Hypothesis HU : ∀ kv, kv ∈ fs_entries fs -> ∀ y, y ∈ entry_import_values kv.2 -> y ∈ U.

(** The import values of a loaded file are in the universe. *)
Lemma load_imports_in file l :
  import_list (aggregator_load_yaml fs file) = inr l -> ∀ y, y ∈ l -> y ∈ U.
Proof.
  unfold aggregator_load_yaml. destruct (fs_lookup fs file) as [e|] eqn:Hl;
    [|rewrite import_list_empty; intros [= <-] ? ?%elem_of_nil; done].
  destruct e as [|[v|]]; try (rewrite import_list_empty; intros [= <-] ? ?%elem_of_nil; done).
  intros Hi y Hy. apply (HU (file, EFile (Parsed v))); [by apply dict_get_In|].
  cbn. by rewrite Hi.
Qed.

Lemma process_all_no_fuel_out (f : yaml -> AM unit) l (V0 : list string) st st' :
  (∀ y, respects vis_le (f y)) ->
  (∀ y s s', y ∈ l -> (∀ v, v ∈ V0 -> v ∈ visited_modules s) -> f y s ≠ (NoFuel, s')) ->
  (∀ v, v ∈ V0 -> v ∈ visited_modules st) -> process_all f l st ≠ (NoFuel, st').
Proof.
  intros Hr. revert st. induction l as [|y l IH]; intros st Hf HV; [done|]. cbn [process_all].
  apply bind_no_fuel; [intros s'; apply Hf; [by left|done]|].
  intros [] s1 Hs1. apply IH; [intros ????; apply Hf; by right|].
  intros v Hv. by apply (Hr y _ _ _ Hs1), HV.
Qed.

Lemma process_module_no_fuel_out fuel x st st' :
  x ∈ U -> unvisited (omap str_of U) (visited_modules st) < fuel ->
  process_module fs fuel x st ≠ (NoFuel, st').
Proof.
  revert x st st'. induction fuel as [|n IH]; intros x st st' Hx Hlt; [lia|].
  cbn [process_module]. apply bind_no_fuel; [apply fuel_free_lift_py|].
  intros m s Hm. apply lift_py_Ok in Hm as [Hm ->].
  assert (x = YStr m) as -> by (destruct x; simpl in Hm; congruence).
  apply bind_no_fuel; [done|]. intros ? s [= <- <-].
  destruct (decide (m ∈ visited_modules st)) as [Hin|Hin]; [done|].
  apply bind_no_fuel; [done|]. intros [] s1 [= <-].
  destruct (find_yaml_file fs (search_paths st) m) as [file|]; [|done].
  apply bind_no_fuel; [apply emit_fuel_free|]. intros [] s2 Hs2.
  rewrite emit_upd in Hs2. injection Hs2 as <-.
  apply bind_no_fuel; [apply load_yaml_fuel_free|]. intros c s3 Hs3.
  match type of Hs3 with load_yaml _ _ ?s = _ => destruct (load_yaml_upd fs file s) as [? E] end.
  rewrite E in Hs3. injection Hs3 as <- <-.
  apply bind_no_fuel; [apply fuel_free_lift_py|]. intros l s4 Hs4.
  apply lift_py_Ok in Hs4 as [Hi ->].
  apply bind_no_fuel.
  - intros s5. apply (process_all_no_fuel_out _ _ (visited_modules st ++ [m]));
      [apply process_module_vis| |done].
    intros y s s' Hy HV. apply IH; [by eapply load_imports_in|].
    eapply Nat.le_lt_trans; [by apply unvisited_mono|].
    assert (unvisited (omap str_of U) (visited_modules st ++ [m]) <
            unvisited (omap str_of U) (visited_modules st)); [|lia].
    apply unvisited_lt with m; [set_solver|by apply str_of_elem|done|set_solver].
  - intros [] s5 _.
    match goal with |- ?c ?s ≠ _ => assert (Hff : fuel_free c) by solve_M_prop end.
    apply Hff.
Qed.
End agg_termination.

Lemma aggregate_vis fs m : respects vis_le (aggregate fs m).
Proof. unfold aggregate, aggregate_fuel. solve_M_prop. Qed.

(** ** Resolution *)

(** A run of [aggregate] that returns is a run of the reference traversal,
    with the merged fields folded over its post-order. *)
Lemma aggregate_run fs m dir paths out st' :
  aggregate fs m (agg_new dir paths) = (Ok out, st') ->
  let ps := search_paths (agg_new dir paths) in
  ∃ P, wl_dfs (agg_edges fs ps) (agg_fuel fs m) m ([], []) = Some (visited_modules st', P) ∧
    widgets st' = foldl (merge_module_widgets fs ps) [] P ∧
    data st' = foldl (merge_module_data fs ps) [] P ∧
    app_config st' = foldl (merge_module_app fs ps) YNone P ∧
    out = build_result st'.
Proof.
  intros H ps. unfold aggregate, aggregate_fuel in H. inv_bind H.
  rewrite emit_upd in Hstep. injection Hstep as <-.
  destruct (process_module_refines fs ps _ m _ _ [] Hstep0 eq_refl) as (V & P & msgs & Hw & ->).
  cbv [get_st] in Hstep1. injection Hstep1 as <- <-. injection H as <- <-.
  by exists P.
Qed.

(** C13: a run of [aggregate] that returns is the reference depth-first
    traversal of the import graph from the main module: it visits every
    module reachable from it exactly once, and the widgets, data and app
    block are those of the modules merged one by one in post-order (each
    module after the imports it reaches first). *)
Theorem aggregate_resolves fs m dir paths out st' :
  aggregate fs m (agg_new dir paths) = (Ok out, st') ->
  let ps := search_paths (agg_new dir paths) in
  ∃ P, wl_dfs (agg_edges fs ps) (agg_fuel fs m) m ([], []) = Some (visited_modules st', P) ∧
    NoDup (visited_modules st') ∧
    (∀ n, n ∈ visited_modules st' ↔ reachable (agg_edges fs ps) [m] n) ∧
    P ≡ₚ visited_modules st' ∧
    widgets st' = foldl (merge_module_widgets fs ps) [] P ∧
    data st' = foldl (merge_module_data fs ps) [] P ∧
    app_config st' = foldl (merge_module_app fs ps) YNone P ∧
    out = build_result st'.
Proof.
  intros H ps. destruct (aggregate_run _ _ _ _ _ _ H) as (P & Hw & Hrest).
  exists P. destruct (wl_dfs_correct _ _ _ _ _ Hw) as (Hnd & Hr & Hp). done.
Qed.

(** C14: [aggregate] always returns: the fuel [agg_fuel] is never
    exhausted, from any object, whatever the import graph. *)
Theorem aggregate_terminates fs m st st' :
  aggregate fs m st ≠ (NoFuel, st').
Proof.
  unfold aggregate, aggregate_fuel. set (U := agg_universe fs m).
  apply bind_no_fuel; [apply emit_fuel_free|]. intros [] s1 _.
  apply bind_no_fuel; [|intros [] s2 _; done].
  intros s2. apply (process_module_no_fuel_out fs U).
  - intros kv Hkv y Hy. apply elem_of_cons. right.
    by apply (join_fmap_elem (λ kv, entry_import_values kv.2) _ _ Hkv).
  - by left.
  - pose proof (unvisited_le_length (omap str_of U) (visited_modules s1)).
    pose proof (length_omap_le str_of U). unfold agg_fuel. fold U. lia.
Qed.

(** ** Last writer wins *)

(** The definition module [m] gives to the widget [w] (the last binding in
    its section, as the dict the parser builds keeps it). *)
Definition module_widget fs ps (m w : string) : option yaml :=
  match agg_content fs ps m with
  | Some c => dict_get w (reverse (section_items c "widgets"))
  | None => None
  end.

Definition module_datum fs ps (m k : string) : option yaml :=
  match agg_content fs ps m with
  | Some c => dict_get k (reverse (section_items c "data"))
  | None => None
  end.

Lemma merge_module_widgets_get fs ps W m w :
  dict_get w (merge_module_widgets fs ps W m) =
  match module_widget fs ps m w with Some d => Some (m, d) | None => dict_get w W end.
Proof.
  unfold merge_module_widgets, module_widget. destruct (agg_content fs ps m); [|done].
  apply (dict_get_foldl_set (λ d, (m, d))).
Qed.

Lemma merge_module_data_get fs ps D m k :
  dict_get k (merge_module_data fs ps D m) =
  match module_datum fs ps m k with Some d => Some d | None => dict_get k D end.
Proof.
  unfold merge_module_data, module_datum. destruct (agg_content fs ps m); [|done].
  apply (dict_get_foldl_set id).
Qed.

Section last_writer.
Context {V B : Type} (step : dict string V -> string -> dict string V).
Context (def : string -> string -> option B) (tag : string -> B -> V).
Hypothesis Hstep : ∀ D x w,
  dict_get w (step D x) = match def x w with Some b => Some (tag x b) | None => dict_get w D end.

(** Merging the modules [P] in order from an empty dict binds [w] to the
    contribution of the last module of [P] that defines it. *)
Lemma foldl_last_writer P w v :
  dict_get w (foldl step [] P) = Some v ↔
  ∃ P1 m P2 b, P = P1 ++ m :: P2 ∧ def m w = Some b ∧ v = tag m b ∧
    Forall (λ m', def m' w = None) P2.
Proof.
  induction P as [|x Q IH] using rev_ind.
  - split; [done|]. intros (P1 & m & P2 & b & Heq & _). by destruct P1.
  - rewrite foldl_app. cbn [foldl]. rewrite Hstep.
    destruct (def x w) as [b|] eqn:Hx; split.
    + intros [= <-]. exists Q, x, [], b. done.
    + intros (P1 & m & P2 & b' & Heq & Hm & -> & Hf).
      symmetry in Heq.
      apply app_cons_eq_snoc in Heq as [(-> & -> & ->)|(P2' & -> & ->)]; [congruence|].
      apply Forall_app in Hf as [_ Hf]. inversion Hf. congruence.
    + intros (P1 & m & P2 & b' & -> & Hm & -> & Hf)%IH.
      exists P1, m, (P2 ++ [x]), b'. rewrite <- app_assoc. repeat split; try done.
      apply Forall_app. by split; [|constructor].
    + intros (P1 & m & P2 & b' & Heq & Hm & -> & Hf). apply IH. symmetry in Heq.
      apply app_cons_eq_snoc in Heq as [(-> & -> & ->)|(P2' & -> & ->)]; [congruence|].
      apply Forall_app in Hf as [Hf _]. by exists P1, m, P2', b'.
Qed.
End last_writer.

(** C15: last writer wins.  After a run of [aggregate], a widget is bound
    to the definition of the last module of the post-order that defines
    it, and owned by that module; a data key likewise.  With the spec's
    fixture ([main] imports [a] and [b], [a] imports [c]), the widget [x]
    of [b] and [c] is [b]'s: the ancestor merged later wins. *)
Theorem aggregate_last_writer_wins fs mm dir paths out st' :
  aggregate fs mm (agg_new dir paths) = (Ok out, st') ->
  let ps := search_paths (agg_new dir paths) in
  ∃ P, wl_dfs (agg_edges fs ps) (agg_fuel fs mm) mm ([], []) = Some (visited_modules st', P) ∧
    (∀ w m d, dict_get w (widgets st') = Some (m, d) ↔
       ∃ P1 P2, P = P1 ++ m :: P2 ∧ module_widget fs ps m w = Some d ∧
         Forall (λ m', module_widget fs ps m' w = None) P2) ∧
    (∀ k d, dict_get k (data st') = Some d ↔
       ∃ P1 m P2, P = P1 ++ m :: P2 ∧ module_datum fs ps m k = Some d ∧
         Forall (λ m', module_datum fs ps m' k = None) P2).
Proof.
  intros H ps. destruct (aggregate_run _ _ _ _ _ _ H) as (P & Hw & HW & HD & _).
  exists P. split; [done|]. split.
  - intros w m d. rewrite HW, (foldl_last_writer _ (module_widget fs ps) (λ m d, (m, d)));
      [|apply merge_module_widgets_get].
    split.
    + intros (P1 & m' & P2 & b & -> & Hm & [= -> ->] & Hf). by exists P1, P2.
    + intros (P1 & P2 & -> & Hm & Hf). by exists P1, m, P2, d.
  - intros k d. rewrite HD, (foldl_last_writer _ (module_datum fs ps) (λ _ d, d)); [|apply merge_module_data_get].
    split.
    + intros (P1 & m & P2 & b & -> & Hm & -> & Hf). by exists P1, m, P2.
    + intros (P1 & m & P2 & -> & Hm & Hf). by exists P1, m, P2, d.
Qed.

(** The app block module [m] sets, [app: null] included. *)
Definition module_app_block fs ps (m : string) : option yaml :=
  match agg_content fs ps m with Some c => app_entry c | None => None end.

Lemma merge_module_app_default fs ps a m :
  merge_module_app fs ps a m = default a (module_app_block fs ps m).
Proof. unfold merge_module_app, module_app_block. by destruct (agg_content fs ps m). Qed.

Lemma build_result_app st :
  dict_get "app" (match build_result st with YDict d => d | _ => [] end) =
  if truthy (app_config st) then Some (process_widget_references (app_config st)) else None.
Proof. unfold build_result. by destruct (truthy (app_config st)), (dict_truthy (widgets st)), (dict_truthy (data st)). Qed.

(** C16: the app block of the output is the one of the last module of
    the post-order that has an [app] key, even when that block is null,
    and only a truthy block is written: a later module replaces an earlier
    app block, it is neither refused nor ignored. *)
Theorem aggregate_app_last fs mm dir paths out st' :
  aggregate fs mm (agg_new dir paths) = (Ok out, st') ->
  let ps := search_paths (agg_new dir paths) in
  ∃ P, wl_dfs (agg_edges fs ps) (agg_fuel fs mm) mm ([], []) = Some (visited_modules st', P) ∧
    ((∃ P1 m P2, P = P1 ++ m :: P2 ∧ module_app_block fs ps m = Some (app_config st') ∧
        Forall (λ m', module_app_block fs ps m' = None) P2) ∨
     (app_config st' = YNone ∧ Forall (λ m', module_app_block fs ps m' = None) P)) ∧
    dict_get "app" (match out with YDict d => d | _ => [] end) =
      if truthy (app_config st') then Some (process_widget_references (app_config st')) else None.
Proof.
  intros H ps. destruct (aggregate_run _ _ _ _ _ _ H) as (P & Hw & _ & _ & HA & ->).
  exists P. split; [done|]. split; [|apply build_result_app].
  symmetry in HA. eapply foldl_default_last in HA; [done|]. apply merge_module_app_default.
Qed.

(** ** The reference rewriter *)

Lemma pwr_dict d :
  process_widget_references (YDict d) =
    YDict (foldl (λ acc kv, dict_set kv.1 (process_widget_references kv.2) acc) [] d).
Proof.
  cbn [process_widget_references]. f_equal. generalize (@nil (string * yaml)).
  induction d as [|[k v] d IH]; intros acc; [done|]. apply IH.
Qed.

Lemma pwr_list l : process_widget_references (YList l) = YList (process_widget_references <$> l).
Proof. reflexivity. Qed.

Lemma foldl_set_ext (f : yaml -> yaml) (acc d : dict string yaml) :
  Forall (λ kv, f kv.2 = kv.2) d ->
  foldl (λ acc kv, dict_set kv.1 (f kv.2) acc) acc d = foldl (λ acc kv, dict_set kv.1 kv.2 acc) acc d.
Proof.
  revert acc. induction d as [|[k v] d IH]; intros acc Hf; [done|].
  inversion Hf as [|? ? Hv Hd]; subst. cbn [foldl fst snd] in *. rewrite Hv. by apply IH.
Qed.

Lemma foldl_set_wf (f : yaml -> yaml) (acc d : dict string yaml) :
  yaml_wf (YDict acc) -> Forall (λ kv, yaml_wf (f kv.2)) d ->
  yaml_wf (YDict (foldl (λ acc kv, dict_set kv.1 (f kv.2) acc) acc d)).
Proof.
  revert acc. induction d as [|[k v] d IH]; intros acc Hacc Hd; [done|].
  inversion Hd; subst. apply IH; [|done]. apply yaml_wf_dict in Hacc as [Hn Hv].
  apply yaml_wf_dict. split; [by apply dict_set_wf|by apply dict_set_values].
Qed.

Lemma pwr_id v : yaml_wf v -> process_widget_references v = v.
Proof.
  induction v as [| | | |l IH|d IH] using yaml_nested_ind; intros Hwf; try done.
  - rewrite pwr_list. f_equal. apply yaml_wf_list in Hwf.
    induction IH as [|y l Hy Hl IHl]; [done|]. inversion Hwf; subst. cbn. f_equal; auto.
  - apply yaml_wf_dict in Hwf as [Hn Hv]. rewrite pwr_dict, foldl_set_ext.
    + pose proof (foldl_dict_set_fresh id [] d) as E. cbv [id] in E.
      rewrite E; [|split; [done|apply Forall_forall; set_solver]].
      cbn [app]. f_equal. clear. induction d as [|[k v] d IH]; [done|]. cbn. by rewrite IH.
    + apply Forall_forall. intros kv Hkv. rewrite Forall_forall in IH, Hv. auto.
Qed.

(** The rewriter's output has no repeated keys, at any depth. *)
Lemma pwr_wf v : yaml_wf (process_widget_references v).
Proof.
  induction v as [| | | |l IH|d IH] using yaml_nested_ind; try done.
  - rewrite pwr_list. apply yaml_wf_list. induction IH; constructor; auto.
  - rewrite pwr_dict. apply foldl_set_wf; [done|]. done.
Qed.

(** C17: on the values a YAML document can hold (dicts without repeated
    keys), [process_widget_references] is the identity: same keys in the
    same order, same lengths, same leaves. *)
Theorem process_widget_references_id v :
  yaml_wf v -> process_widget_references v = v.
Proof. apply pwr_id. Qed.

(** Whatever its input, [process_widget_references] returns a value
    without repeated keys, and applying it twice is applying it once. *)
Theorem process_widget_references_normal v :
  yaml_wf (process_widget_references v) ∧
  process_widget_references (process_widget_references v) = process_widget_references v.
Proof.
  split; [apply pwr_wf|]. apply pwr_id, pwr_wf.
Qed.

(** C20: a module that is in no search path is not an error: it is marked
    visited, a warning naming it is printed and nothing is merged. *)
Theorem process_module_missing fs n m st :
  m ∉ visited_modules st -> find_yaml_file fs (search_paths st) m = None ->
  process_module fs (S n) (YStr m) st =
    (Ok tt, upd st (widgets st) (data st) (app_config st) (visited_modules st ++ [m])
                [MsgNotFound m]).
Proof.
  intros Hv Hf. cbn [process_module]. unfold_M. cbn.
  rewrite decide_False by done. cbn. rewrite Hf. done.
Qed.

(** C29: a module file that does not parse is not fatal: [load_yaml]
    prints the error and returns [{}], so the module is marked visited,
    its file and the error are printed, and nothing is imported or merged;
    the run goes on with the next module. *)
Theorem process_module_unparsable fs n m st file :
  m ∉ visited_modules st -> find_yaml_file fs (search_paths st) m = Some file ->
  (∀ v, fs_lookup fs file ≠ Some (EFile (Parsed v))) ->
  process_module fs (S n) (YStr m) st =
    (Ok tt, upd st (widgets st) (data st) (app_config st) (visited_modules st ++ [m])
                [MsgProcessing file; MsgLoadError file]).
Proof.
  intros Hv Hf Hu. cbn [process_module]. unfold_M. cbn.
  rewrite decide_False by done. cbn. rewrite Hf.
  unfold load_yaml, aggregator_load_yaml.
  destruct (fs_lookup fs file) as [[|[v|]]|]; [|exfalso; by apply (Hu v)| |]; unfold_M;
    cbn; unfold upd; by rewrite <- app_assoc.
Qed.

(** ** Round trip *)

(** Every file holds a value [yaml.safe_load] can return. *)
Definition entry_wf (e : entry) : Prop :=
  match e with EFile (Parsed v) => yaml_wf v | _ => True end.

#[export] Instance entry_wf_dec e : Decision (entry_wf e).
Proof. destruct e as [|[]]; apply _. Defined.

Definition fs_wf (fs : filesystem) : Prop := Forall (λ kv, entry_wf kv.2) (fs_entries fs).

(** The widgets without their owners, as [aggregate] writes them. *)
Definition strip (W : dict string (string * yaml)) : dict string yaml :=
  (λ kv, (kv.1, kv.2.2)) <$> W.

Definition widgets_wf (W : dict string (string * yaml)) : Prop :=
  NoDup (dict_keys W) ∧ Forall (λ kv, yaml_wf kv.2.2) W.

Lemma dict_keys_fmap {B C} (g : B -> C) (d : dict string B) :
  dict_keys ((λ kv, (kv.1, g kv.2)) <$> d) = dict_keys d.
Proof. induction d as [|[k v] d IH]; [done|]. cbn. by f_equal. Qed.

Lemma widgets_wf_strip W : widgets_wf W ↔ yaml_wf (YDict (strip W)).
Proof.
  rewrite yaml_wf_dict. unfold widgets_wf, strip.
  rewrite (dict_keys_fmap (λ p, p.2)), Forall_fmap. done.
Qed.

Lemma load_wf fs file : fs_wf fs -> yaml_wf (aggregator_load_yaml fs file).
Proof.
  intros Hfs. unfold aggregator_load_yaml.
  destruct (fs_lookup fs file) as [[|[v|]]|] eqn:Hl; try done.
  destruct (truthy v); [|done]. apply dict_get_In in Hl. unfold fs_wf in Hfs. rewrite Forall_forall in Hfs.
  apply (Hfs _ Hl).
Qed.

Lemma agg_content_wf fs ps m c : fs_wf fs -> agg_content fs ps m = Some c -> yaml_wf c.
Proof.
  unfold agg_content. intros Hfs. destruct (find_yaml_file fs ps m); [|done].
  intros [= <-]. by apply load_wf.
Qed.

Lemma dict_get_wf (d : dict string yaml) k v :
  yaml_wf (YDict d) -> dict_get k d = Some v -> yaml_wf v.
Proof.
  intros [_ Hd]%yaml_wf_dict Hg%dict_get_In. rewrite Forall_forall in Hd. by apply (Hd (k, v)).
Qed.

Lemma section_items_wf c k : yaml_wf c -> yaml_wf (YDict (section_items c k)).
Proof.
  unfold section_items. destruct c as [| | | | |d]; try done. cbn.
  destruct (dict_get k d) as [v|] eqn:Hg; [|done]. intros Hc.
  destruct v; try done. by eapply dict_get_wf.
Qed.

Lemma app_entry_wf c a : yaml_wf c -> app_entry c = Some a -> yaml_wf a.
Proof. destruct c; try done. apply dict_get_wf. Qed.

Lemma widgets_merge_wf m W ws : widgets_wf W -> yaml_wf (YDict ws) -> widgets_wf (widgets_merge m W ws).
Proof.
  unfold widgets_merge. revert W. induction ws as [|[k v] ws IH]; intros W [HW HV] Hws; [done|].
  apply yaml_wf_dict in Hws as [Hn Hv]. inversion Hn; inversion Hv; subst. cbn [foldl].
  apply IH; [split|by apply yaml_wf_dict].
  - by apply dict_set_wf.
  - by apply (dict_set_values (λ p, yaml_wf p.2)).
Qed.

Lemma merged_wf fs ps P W D A :
  fs_wf fs -> widgets_wf W -> yaml_wf (YDict D) -> yaml_wf A ->
  widgets_wf (foldl (merge_module_widgets fs ps) W P) ∧
  yaml_wf (YDict (foldl (merge_module_data fs ps) D P)) ∧
  yaml_wf (foldl (merge_module_app fs ps) A P).
Proof.
  intros Hfs. revert W D A. induction P as [|m P IH]; intros W D A HW HD HA; [done|].
  cbn [foldl]. apply IH.
  - unfold merge_module_widgets. destruct (agg_content fs ps m) eqn:Hc; [|done].
    apply widgets_merge_wf; [done|]. by eapply section_items_wf, agg_content_wf.
  - unfold merge_module_data. destruct (agg_content fs ps m) eqn:Hc; [|done].
    apply (foldl_set_wf id); [done|]. apply yaml_wf_dict.
    by eapply section_items_wf, agg_content_wf.
  - rewrite merge_module_app_default. unfold module_app_block.
    destruct (agg_content fs ps m) eqn:Hc; [|done]. cbn.
    destruct (app_entry y) eqn:Ha; [|done]. by eapply app_entry_wf, Ha; eapply agg_content_wf.
Qed.

(** The items of the output document, once the rewriter is known to be
    the identity. *)
Definition result_items (W : dict string (string * yaml)) (D : dict string yaml) (a : yaml)
  : dict string yaml :=
  (if truthy a then [("app", a)] else []) ++
  (if dict_truthy W then [("widgets", YDict (strip W))] else []) ++
  (if dict_truthy D then [("data", YDict D)] else []).

Lemma dict_from_items_fresh (l : dict string yaml) :
  NoDup (dict_keys l) -> dict_from_items l = l.
Proof.
  intros Hn. unfold dict_from_items. pose proof (foldl_dict_set_fresh id [] l) as E.
  cbv [id] in E. rewrite E; [|split; [done|apply Forall_forall; set_solver]].
  cbn [app]. clear. induction l as [|[k v] l IH]; [done|]. cbn. by rewrite IH.
Qed.

Lemma build_result_wf st :
  widgets_wf (widgets st) -> yaml_wf (YDict (data st)) -> yaml_wf (app_config st) ->
  build_result st = YDict (result_items (widgets st) (data st) (app_config st)).
Proof.
  intros [HWn HWv] HD HA. unfold build_result, result_items. rewrite (pwr_id _ HA).
  assert (EW : dict_from_items ((λ kv, (kv.1, process_widget_references kv.2.2)) <$> widgets st)
               = strip (widgets st)).
  { rewrite dict_from_items_fresh.
    - unfold strip. apply list_fmap_ext. intros i [k [m d]] Hi. cbn. f_equal. apply pwr_id.
      rewrite Forall_forall in HWv. apply (HWv (k, (m, d))). by eapply list_elem_of_lookup_2.
    - by rewrite (dict_keys_fmap (λ p, process_widget_references p.2)). }
  assert (ED : dict_from_items ((λ kv, (kv.1, process_widget_references kv.2)) <$> data st)
               = data st).
  { apply yaml_wf_dict in HD as [Hn Hv]. rewrite dict_from_items_fresh.
    - clear Hn. induction (data st) as [|[k v] d IH]; [done|]. inversion Hv; subst. cbn.
      rewrite pwr_id by done. by rewrite IH.
    - by rewrite (dict_keys_fmap process_widget_references). }
  by rewrite EW, ED.
Qed.

(** One successful step at the head of a chain, computed forward: the
    steps that print or merge as an [upd] of the state, the others by
    evaluation. *)
Ltac run_step :=
  match goal with
  | |- context [(load_yaml ?f ?x ≫= ?k) ?s] =>
      let E := fresh in destruct (load_yaml_upd f x s) as [? E]; rewrite (bind_Ok _ k _ _ _ E);
      clear E
  | |- context [(merge_widgets_overwrite ?m ?ws ≫= ?k) ?s] =>
      let E := fresh in destruct (merge_widgets_overwrite_upd m ws s) as [? E];
      rewrite (bind_Ok _ k _ _ _ E); clear E
  | |- context [(merge_data_overwrite ?ds ≫= ?k) ?s] =>
      let E := fresh in destruct (merge_data_overwrite_upd ds s) as [? E];
      rewrite (bind_Ok _ k _ _ _ E); clear E
  | |- context [(emit ?msg ≫= ?k) ?s] => rewrite (bind_Ok _ k _ _ _ (emit_upd msg s))
  | |- context [(?c ≫= ?k) ?s] => erewrite (bind_Ok c k s) by reflexivity
  end; cbv beta.

(** A module without imports whose sections are dicts is merged alone. *)
Lemma process_module_leaf fs n m st file c ws ds :
  m ∉ visited_modules st -> find_yaml_file fs (search_paths st) m = Some file ->
  aggregator_load_yaml fs file = c -> import_list c = inr [] ->
  py_get c "widgets" (YDict []) = inr (YDict ws) -> py_get c "data" (YDict []) = inr (YDict ds) ->
  ∃ msgs, process_module fs (S n) (YStr m) st =
    (Ok tt, upd st (widgets_merge m (widgets st) ws) (data_merge (data st) ds)
                (default (app_config st) (app_entry c)) (visited_modules st ++ [m]) msgs).
Proof.
  intros Hv Hf Hc Hi Hw Hd. cbn [process_module]. do 2 run_step.
  rewrite decide_False by done. run_step. rewrite set_visited_as_upd, Hf.
  do 2 run_step. rewrite Hc, Hi. do 2 run_step. rewrite Hw. do 3 run_step. rewrite Hd.
  do 3 run_step. rewrite merge_app_last_upd. autorewrite with agg_upd. eexists. reflexivity.
Qed.

(** [aggregate] of a main module without imports merges that module
    alone. *)
Lemma aggregate_single fs m dir paths file c ws ds :
  find_yaml_file fs (search_paths (agg_new dir paths)) m = Some file ->
  aggregator_load_yaml fs file = c -> import_list c = inr [] ->
  py_get c "widgets" (YDict []) = inr (YDict ws) -> py_get c "data" (YDict []) = inr (YDict ds) ->
  ∃ msgs, let st2 := upd (agg_new dir paths) (widgets_merge m [] ws) (data_merge [] ds)
                        (default YNone (app_entry c)) [m] msgs in
    aggregate fs m (agg_new dir paths) = (Ok (build_result st2), st2).
Proof.
  intros Hf Hc Hi Hw Hd. unfold aggregate, aggregate_fuel, agg_fuel. run_step.
  destruct (process_module_leaf fs (length (agg_universe fs m)) m
              (upd (agg_new dir paths) [] [] YNone [] [MsgAggregating m]) file c ws ds)
    as [msgs E]; try done; [by intros ?%elem_of_nil|].
  rewrite (bind_Ok _ _ _ _ _ E). run_step. autorewrite with agg_upd.
  by exists ([MsgAggregating m] ++ msgs).
Qed.

Definition own (m : string) (W : dict string (string * yaml)) : dict string (string * yaml) :=
  (λ kv, (kv.1, (m, kv.2.2))) <$> W.

Lemma result_items_import W D a : dict_get "import" (result_items W D a) = None.
Proof. unfold result_items. by destruct (truthy a), (dict_truthy W), (dict_truthy D). Qed.

Lemma result_items_widgets W D a :
  py_get (YDict (result_items W D a)) "widgets" (YDict []) = inr (YDict (strip W)).
Proof.
  unfold result_items. rewrite py_get_dict.
  destruct W; by destruct (truthy a), (dict_truthy D).
Qed.

Lemma result_items_data W D a :
  py_get (YDict (result_items W D a)) "data" (YDict []) = inr (YDict D).
Proof.
  unfold result_items. rewrite py_get_dict.
  destruct D; by destruct (truthy a), (dict_truthy W).
Qed.

Lemma result_items_app W D a :
  app_entry (YDict (result_items W D a)) = if truthy a then Some a else None.
Proof. unfold result_items. by destruct (truthy a), (dict_truthy W), (dict_truthy D). Qed.

Lemma load_parsed_dict fs file d :
  fs_lookup fs file = Some (EFile (Parsed (YDict d))) -> aggregator_load_yaml fs file = YDict d.
Proof. unfold aggregator_load_yaml. intros ->. by destruct d. Qed.

Lemma widgets_merge_strip m W :
  NoDup (dict_keys W) -> widgets_merge m [] (strip W) = own m W.
Proof.
  intros Hn. unfold widgets_merge. rewrite (foldl_dict_set_fresh (λ d, (m, d))).
  - unfold strip, own. rewrite <- list_fmap_compose. done.
  - unfold strip. rewrite (dict_keys_fmap (λ p, p.2)). split; [done|].
    apply Forall_forall. set_solver.
Qed.

Lemma data_merge_fresh D : NoDup (dict_keys D) -> data_merge [] D = D.
Proof.
  intros Hn. unfold data_merge. pose proof (foldl_dict_set_fresh id [] D) as E. cbv [id] in E.
  rewrite E; [|split; [done|apply Forall_forall; set_solver]].
  cbn [app]. clear. induction D as [|[k v] D IH]; [done|]. cbn. by rewrite IH.
Qed.

Lemma result_items_own m W D a :
  result_items (own m W) D (if truthy a then a else YNone) = result_items W D a.
Proof.
  unfold result_items, own, strip. rewrite <- list_fmap_compose.
  destruct (truthy a) eqn:Ha; rewrite ?Ha; by destruct W.
Qed.

Lemma widgets_wf_own m W : widgets_wf W -> widgets_wf (own m W).
Proof.
  intros [Hn Hv]. split.
  - unfold own. by rewrite (dict_keys_fmap (λ p, (m, p.2))).
  - unfold own. apply Forall_fmap. done.
Qed.

(** The round trip of the output, shared by the round-trip theorems of
    the aggregator and of the command line. *)
Lemma aggregate_roundtrip_run fs mm dir paths out st' fs2 m2 dir2 paths2 file :
  fs_wf fs ->
  aggregate fs mm (agg_new dir paths) = (Ok out, st') ->
  find_yaml_file fs2 (search_paths (agg_new dir2 paths2)) m2 = Some file ->
  fs_lookup fs2 file = Some (EFile (Parsed out)) ->
  ∃ st2, aggregate fs2 m2 (agg_new dir2 paths2) = (Ok out, st2) ∧
    visited_modules st2 = [m2] ∧
    widgets st2 = (λ kv, (kv.1, (m2, kv.2.2))) <$> widgets st' ∧
    data st2 = data st' ∧
    app_config st2 = (if truthy (app_config st') then app_config st' else YNone).
Proof.
  intros Hfs Ha Hf Hl. destruct (aggregate_run _ _ _ _ _ _ Ha) as (P & _ & HW & HD & HA & Hout).
  destruct (merged_wf fs (search_paths (agg_new dir paths)) P [] [] YNone Hfs)
    as (HWf & HDf & HAf); [by split; constructor|done|done|].
  rewrite <- HW in HWf. rewrite <- HD in HDf. rewrite <- HA in HAf.
  rewrite (build_result_wf _ HWf HDf HAf) in Hout. subst out.
  set (W := widgets st') in *. set (D := data st') in *. set (A := app_config st') in *.
  destruct (aggregate_single fs2 m2 dir2 paths2 file _ (strip W) D Hf (load_parsed_dict _ _ _ Hl))
    as [msgs Hr]; [by unfold import_list; rewrite py_get_dict, result_items_import
                  |apply result_items_widgets|apply result_items_data|].
  cbv zeta in Hr. rewrite result_items_app in Hr.
  rewrite widgets_merge_strip, data_merge_fresh in Hr;
    [|by apply yaml_wf_dict in HDf as [? _]|by destruct HWf].
  assert (Hd : default YNone (if truthy A then Some A else None) = if truthy A then A else YNone)
    by (by destruct (truthy A)).
  rewrite Hd in Hr. eexists. split; [rewrite Hr; f_equal|done].
  rewrite build_result_wf; cbn [widgets data app_config upd].
  - by rewrite result_items_own.
  - by apply widgets_wf_own.
  - done.
  - by destruct (truthy A).
Qed.

(** C21: round trip.  When every file holds a YAML value, the document
    [aggregate] returns, stored as the only module of a new run (found as
    [m2] in its search paths), aggregates to the same document; the new
    run visits only [m2], has the same data and the same widget
    definitions (each now owned by [m2]), and the same app block when it
    was written (a falsy app block is not written). *)
Theorem aggregate_roundtrip fs mm dir paths out st' fs2 m2 dir2 paths2 file :
  fs_wf fs ->
  aggregate fs mm (agg_new dir paths) = (Ok out, st') ->
  find_yaml_file fs2 (search_paths (agg_new dir2 paths2)) m2 = Some file ->
  fs_lookup fs2 file = Some (EFile (Parsed out)) ->
  ∃ st2, aggregate fs2 m2 (agg_new dir2 paths2) = (Ok out, st2) ∧
    visited_modules st2 = [m2] ∧
    widgets st2 = (λ kv, (kv.1, (m2, kv.2.2))) <$> widgets st' ∧
    data st2 = data st' ∧
    app_config st2 = (if truthy (app_config st') then app_config st' else YNone).
Proof. apply aggregate_roundtrip_run. Qed.

(** ** The shape of the output document *)

Lemma foldl_set_dict_wf {B C} (g : B -> C) (acc : dict string C) (ws : dict string B) :
  dict_wf acc -> dict_wf (foldl (λ acc kv, dict_set kv.1 (g kv.2) acc) acc ws).
Proof.
  revert acc. induction ws as [|[k v] ws IH]; intros acc H; [done|].
  apply IH. by apply dict_set_wf.
Qed.

(** Merging keeps the keys of the widgets and of the data distinct,
    whatever the files hold. *)
Lemma merged_keys fs ps P W D :
  dict_wf W -> dict_wf D ->
  dict_wf (foldl (merge_module_widgets fs ps) W P) ∧ dict_wf (foldl (merge_module_data fs ps) D P).
Proof.
  revert W D. induction P as [|m P IH]; intros W D HW HD; [done|]. cbn [foldl].
  apply IH; unfold merge_module_widgets, merge_module_data; case_match; try done.
  - by apply (foldl_set_dict_wf (λ v, (m, v))).
  - by apply (foldl_set_dict_wf id).
Qed.

Lemma dict_from_items_keys {B} (g : B -> yaml) (W : dict string B) :
  dict_wf W -> dict_keys (dict_from_items ((λ kv, (kv.1, g kv.2)) <$> W)) = dict_keys W.
Proof.
  intros H. rewrite dict_from_items_fresh; [apply dict_keys_fmap|]. by rewrite dict_keys_fmap.
Qed.

Lemma dict_from_items_wf (l : dict string yaml) :
  Forall (λ kv, yaml_wf kv.2) l -> yaml_wf (YDict (dict_from_items l)).
Proof. apply (foldl_set_wf id). done. Qed.

Lemma pwr_items_wf {B} (g : B -> yaml) (W : dict string B) :
  yaml_wf (YDict (dict_from_items ((λ kv, (kv.1, process_widget_references (g kv.2))) <$> W))).
Proof.
  apply dict_from_items_wf, Forall_fmap, Forall_forall. intros. apply pwr_wf.
Qed.

(** Whatever the state, the document [build_result] writes has no
    repeated keys at any depth. *)
Lemma build_result_typed st : yaml_wf (build_result st).
Proof.
  unfold build_result. apply yaml_wf_dict. split.
  - destruct (truthy _), (dict_truthy (widgets st)), (dict_truthy (data st));
      cbn; repeat constructor; set_solver.
  - repeat apply Forall_app_2; case_match; repeat constructor; cbn;
      [apply pwr_wf|apply (pwr_items_wf (λ p, p.2))|apply (pwr_items_wf id)].
Qed.

(** C32: the type of the output document.  On every filesystem, the
    value [aggregate] returns is a dict without repeated keys at any
    depth whose top-level keys are, in this order, ["app"] when the app block is truthy, ["widgets"] when a widget
    was merged and ["data"] when a datum was; the two sections are dicts
    whose keys are the merged names in first-insertion order. *)
Theorem aggregate_output_shape fs mm dir paths out st' :
  aggregate fs mm (agg_new dir paths) = (Ok out, st') ->
  yaml_wf out ∧
  ∃ ws ds,
    out = YDict ((if truthy (app_config st')
                  then [("app", process_widget_references (app_config st'))] else []) ++
                 (if dict_truthy (widgets st') then [("widgets", YDict ws)] else []) ++
                 (if dict_truthy (data st') then [("data", YDict ds)] else [])) ∧
    dict_keys ws = dict_keys (widgets st') ∧ dict_keys ds = dict_keys (data st').
Proof.
  intros H. destruct (aggregate_run _ _ _ _ _ _ H) as (P & _ & HW & HD & _ & ->).
  split; [apply build_result_typed|].
  destruct (merged_keys fs (search_paths (agg_new dir paths)) P [] []) as [Hw Hd];
    [constructor..|].
  rewrite <- HW in Hw. rewrite <- HD in Hd.
  eexists _, _. split; [reflexivity|]. split;
    [apply (dict_from_items_keys (λ p, process_widget_references p.2))
    |apply (dict_from_items_keys process_widget_references)]; done.
Qed.

(** ** The fixture of the specification

    [main] imports [a] and [b]; [a] imports [c] (as a bare string); [b]
    and [c] both define the widget [x]; [c] imports [main] back. *)
Definition agg_dir : path := path_of_string "demo".

Definition agg_fs : filesystem := mk_fs [
  (agg_dir, EDir);
  (path_div agg_dir "main.yaml",
     EFile (Parsed (YDict [("import", YList [YStr "a"; YStr "b"]);
                           ("app", YDict [("title", YStr "demo")])])));
  (path_div agg_dir "a.yaml", EFile (Parsed (YDict [("import", YStr "c")])));
  (path_div agg_dir "b.yaml",
     EFile (Parsed (YDict [("widgets", YDict [("x", YDict [("label", YStr "b")])])])));
  (path_div agg_dir "c.yaml",
     EFile (Parsed (YDict [("import", YList [YStr "main"]);
                           ("widgets", YDict [("x", YDict [("label", YStr "c")])]);
                           ("data", YDict [("greeting", YStr "hi")])])))].

Definition agg_final : aggregator := (aggregate agg_fs "main" (agg_new agg_dir [])).2.

Lemma aggregate_resolves_witness :
  let ps := search_paths (agg_new agg_dir []) in
  ∃ P, wl_dfs (agg_edges agg_fs ps) (agg_fuel agg_fs "main") "main" ([], []) =
         Some (visited_modules agg_final, P) ∧
    NoDup (visited_modules agg_final) ∧
    (∀ n, n ∈ visited_modules agg_final ↔ reachable (agg_edges agg_fs ps) ["main"] n) ∧
    P ≡ₚ visited_modules agg_final ∧
    widgets agg_final = foldl (merge_module_widgets agg_fs ps) [] P ∧
    data agg_final = foldl (merge_module_data agg_fs ps) [] P ∧
    app_config agg_final = foldl (merge_module_app agg_fs ps) YNone P ∧
    build_result agg_final = build_result agg_final.
Proof.
  apply (aggregate_resolves agg_fs "main" agg_dir [] (build_result agg_final) agg_final).
  vm_compute. reflexivity.
Defined.

Lemma aggregate_output_shape_witness :
  yaml_wf (build_result agg_final) ∧
  ∃ ws ds,
    build_result agg_final =
      YDict ((if truthy (app_config agg_final)
              then [("app", process_widget_references (app_config agg_final))] else []) ++
             (if dict_truthy (widgets agg_final) then [("widgets", YDict ws)] else []) ++
             (if dict_truthy (data agg_final) then [("data", YDict ds)] else [])) ∧
    dict_keys ws = dict_keys (widgets agg_final) ∧ dict_keys ds = dict_keys (data agg_final).
Proof.
  apply (aggregate_output_shape agg_fs "main" agg_dir [] (build_result agg_final) agg_final).
  vm_compute. reflexivity.
Defined.

Lemma agg_final_visited : visited_modules agg_final = ["main"; "a"; "c"; "b"].
Proof. vm_compute. reflexivity. Qed.

Lemma aggregate_last_writer_wins_witness :
  let ps := search_paths (agg_new agg_dir []) in
  ∃ P, wl_dfs (agg_edges agg_fs ps) (agg_fuel agg_fs "main") "main" ([], []) =
         Some (visited_modules agg_final, P) ∧
    (∀ w m d, dict_get w (widgets agg_final) = Some (m, d) ↔
       ∃ P1 P2, P = P1 ++ m :: P2 ∧ module_widget agg_fs ps m w = Some d ∧
         Forall (λ m', module_widget agg_fs ps m' w = None) P2) ∧
    (∀ k d, dict_get k (data agg_final) = Some d ↔
       ∃ P1 m P2, P = P1 ++ m :: P2 ∧ module_datum agg_fs ps m k = Some d ∧
         Forall (λ m', module_datum agg_fs ps m' k = None) P2).
Proof.
  apply (aggregate_last_writer_wins agg_fs "main" agg_dir [] (build_result agg_final) agg_final).
  vm_compute. reflexivity.
Defined.

(** On the fixture, [x] is owned by [b], merged after [c]. *)
Lemma agg_final_owner :
  dict_get "x" (widgets agg_final) = Some ("b", YDict [("label", YStr "b")]) ∧
  module_widget agg_fs (search_paths (agg_new agg_dir [])) "c" "x" =
    Some (YDict [("label", YStr "c")]).
Proof. vm_compute. split; reflexivity. Qed.

Lemma aggregate_app_last_witness :
  let ps := search_paths (agg_new agg_dir []) in
  ∃ P, wl_dfs (agg_edges agg_fs ps) (agg_fuel agg_fs "main") "main" ([], []) =
         Some (visited_modules agg_final, P) ∧
    ((∃ P1 m P2, P = P1 ++ m :: P2 ∧ module_app_block agg_fs ps m = Some (app_config agg_final) ∧
        Forall (λ m', module_app_block agg_fs ps m' = None) P2) ∨
     (app_config agg_final = YNone ∧ Forall (λ m', module_app_block agg_fs ps m' = None) P)) ∧
    dict_get "app" (match build_result agg_final with YDict d => d | _ => [] end) =
      if truthy (app_config agg_final)
      then Some (process_widget_references (app_config agg_final)) else None.
Proof.
  apply (aggregate_app_last agg_fs "main" agg_dir [] (build_result agg_final) agg_final).
  vm_compute. reflexivity.
Defined.

Lemma process_widget_references_id_witness :
  process_widget_references (YDict [("x", YList [YDict [("label", YStr "b")]; YInt 3])]) =
    YDict [("x", YList [YDict [("label", YStr "b")]; YInt 3])].
Proof. apply process_widget_references_id. vm_compute. reflexivity. Defined.

Lemma process_module_missing_witness :
  process_module agg_fs 1 (YStr "widgets.none") (agg_new agg_dir []) =
    (Ok tt, upd (agg_new agg_dir []) [] [] YNone ["widgets.none"] [MsgNotFound "widgets.none"]).
Proof. apply process_module_missing; vm_compute; [intros H; inversion H|reflexivity]. Defined.

(** The output of the fixture, stored as the module [out]. *)
Definition rt_fs : filesystem := mk_fs [
  (agg_dir, EDir);
  (path_div agg_dir "out.yaml", EFile (Parsed (build_result agg_final)))].

Lemma aggregate_roundtrip_witness :
  ∃ st2, aggregate rt_fs "out" (agg_new agg_dir []) = (Ok (build_result agg_final), st2) ∧
    visited_modules st2 = ["out"] ∧
    widgets st2 = (λ kv, (kv.1, ("out", kv.2.2))) <$> widgets agg_final ∧
    data st2 = data agg_final ∧
    app_config st2 = (if truthy (app_config agg_final) then app_config agg_final else YNone).
Proof.
  apply (aggregate_roundtrip agg_fs "main" agg_dir [] (build_result agg_final) agg_final
           rt_fs "out" agg_dir [] (path_div agg_dir "out.yaml")).
  - apply (bool_decide_unpack _). vm_compute. reflexivity.
  - vm_compute. reflexivity.
  - vm_compute. reflexivity.
  - vm_compute. reflexivity.
Defined.

(** [main] imports [broken], whose file does not parse. *)
Definition broken_fs : filesystem := mk_fs [
  (agg_dir, EDir);
  (path_div agg_dir "main.yaml",
     EFile (Parsed (YDict [("import", YList [YStr "broken"]);
                           ("widgets", YDict [("btn", YStr "button")])])));
  (path_div agg_dir "broken.yaml", EFile Unparsable)].

Lemma process_module_unparsable_witness :
  process_module broken_fs 1 (YStr "broken") (agg_new agg_dir []) =
    (Ok tt, upd (agg_new agg_dir []) [] [] YNone ["broken"]
                [MsgProcessing (path_div agg_dir "broken.yaml");
                 MsgLoadError (path_div agg_dir "broken.yaml")]).
Proof.
  apply process_module_unparsable; [vm_compute; intros H; inversion H|vm_compute; reflexivity|].
  intros v. vm_compute. discriminate.
Defined.

End Aggregator.
