(* ===== verification/Cli.v ===== *)
(** * The command line of the aggregator: save and main

    [save] (aggregate_demo_yaml.py lines 141-152) prints the file it
    writes, creates the parent directories of the output
    ([mkdir(parents=True, exist_ok=True)]), opens the output for writing
    and writes the provenance header and the dump of the document.
    [main] (lines 155-193) checks the demo directory, builds the search
    paths and the output path, runs [aggregate], saves and prints a
    summary.  [yaml.dump] and [yaml.safe_load] of the written text are
    parameters: the serializer is external; the filesystem after the
    write holds what [yaml.safe_load] makes of the text. *)

From stdpp Require Import base list strings gmap sets.
From Stdlib Require Import Ascii.
From S2P Require Import Prelude PyDict PyValue Paths Graph Aggregator.
Import Aggregator.

Module Cli.

(** ** Saving and the command line *)

Definition newline : string := String "010"%char EmptyString.

(** The provenance header written before the document (lines 148-150). *)
Definition header (dir : path) : string :=
  "# Auto-generated aggregated YAML file" +:+ newline +:+
  "# Source: " +:+ path_to_string dir +:+ newline +:+
  "# Do not edit manually - generated by scripts/aggregate_demo_yaml.py" +:+ newline +:+ newline.

(** ** Creating the output file *)

(** [Path.mkdir(parents=True, exist_ok=True)] on the path whose components
    are [reverse rparts]: an existing directory is kept ([exist_ok]); an
    existing file raises [FileExistsError].  Otherwise [os.mkdir] is
    tried: a missing parent ([FileNotFoundError]) is made first, a parent
    that is a file makes it raise [NotADirectoryError]; making the parent
    covers the three cases.  The working directory and the root exist. *)
Fixpoint mkdir_go (fs : filesystem) (abs : bool) (rparts : list string) : pyexn + filesystem :=
  let p := mk_path abs (reverse rparts) in
  match fs_lookup fs p with
  | Some EDir => inr fs
  | Some (EFile _) => inl OSError
  | None =>
      match rparts with
      | [] => inr fs
      | _ :: rparent =>
          match mkdir_go fs abs rparent with
          | inl e => inl e
          | inr fs1 => inr (fs_set fs1 p EDir)
          end
      end
  end.

(** Line 144: [output_file.parent.mkdir(parents=True, exist_ok=True)]. *)
Definition mkdir_parents (fs : filesystem) (p : path) : pyexn + filesystem :=
  mkdir_go fs (p_abs p) (reverse (p_parts p)).

(** A directory [open] can create a file in: the working directory, the
    root, or a directory of the filesystem. *)
Definition dir_present (fs : filesystem) (p : path) : bool :=
  bool_decide (p_parts p = []) || path_is_dir fs p.

(** Line 146: [open(output_file, 'w')] creates or truncates the file,
    and raises when its parent is not a directory or the path is a
    directory ([IsADirectoryError], also for the working directory and the
    root); the file then holds [c]. *)
Definition write_file (fs : filesystem) (p : path) (c : file_content) : pyexn + filesystem :=
  if negb (dir_present fs (path_parent p)) then inl OSError
  else if dir_present fs p then inl OSError
  else inr (fs_set fs p (EFile c)).

Section cli.
(** [yaml.dump(content, default_flow_style=False, sort_keys=False)]. *)
Variable dump : yaml -> string.
(** What [yaml.safe_load] makes of a text, when the file is read again. *)
Variable safe_load : string -> file_content.

(** [save] (lines 141-152): the text written and the filesystem after the
    write. *)
Definition save (fs : filesystem) (output : path) (content : yaml) : AM (string * filesystem) :=
  emit (MsgWriting output);;
  fs1 ← lift_py (mkdir_parents fs (path_parent output));
  st ← get_st;
  let text := header (demo_dir st) +:+ dump content in
  fs2 ← lift_py (write_file fs1 output (safe_load text));
  mret (text, fs2).

Record cli_args := mk_args {
  arg_demo_dir : string;
  arg_output : option string;
  arg_main : string;
  arg_search_path : list string
}.

Inductive cli_result :=
  | CliExit (code : nat)
  | CliWrote (output : path) (text : string) (fs' : filesystem).

(** Lines 179-181: [args.output], or [docs/examples/<name of the demo
    directory>.yaml]. *)
Definition output_path (args : cli_args) (dir : path) : path :=
  match arg_output args with
  | Some o => path_of_string o
  | None => path_div (path_of_string "docs/examples") (path_name dir +:+ ".yaml")
  end.

(** [main] (lines 155-193): the exit status, or the file written with the
    filesystem after the write; with what was printed. *)
Definition main (fs : filesystem) (args : cli_args) : outcome Empty_set cli_result * list message :=
  let dir := path_of_string (arg_demo_dir args) in
  if negb (path_exists fs dir) then (Ok (CliExit 1), [MsgDemoMissing dir])
  else if negb (path_is_dir fs dir) then (Ok (CliExit 1), [MsgNotADirectory dir])
  else
    let paths := dir :: (path_of_string <$> arg_search_path args) in
    let output := output_path args dir in
    let run : AM cli_result :=
      aggregated ← aggregate fs (arg_main args);
      written ← save fs output aggregated;
      st ← get_st;
      emit (MsgSummary (length (visited_modules st)) (length (widgets st))
                       (length (data st)) output);;
      mret (CliWrote output written.1 written.2) in
    let (o, st) := run (agg_new dir paths) in (o, log st).
End cli.

(** ** What the write does to the filesystem *)

Lemma mkdir_go_keeps fs abs rparts fs' :
  mkdir_go fs abs rparts = inr fs' ->
  ∀ q e, fs_lookup fs q = Some e -> fs_lookup fs' q = Some e.
Proof.
  revert fs'. induction rparts as [|c r IH]; intros fs' H q e Hq; cbn [mkdir_go] in H;
    repeat case_match; simplify_eq; try done.
  rewrite fs_lookup_set. case_decide; subst; [congruence|eauto].
Qed.

Lemma mkdir_go_dir fs abs rparts fs' :
  mkdir_go fs abs rparts = inr fs' -> dir_present fs' (mk_path abs (reverse rparts)) = true.
Proof.
  unfold dir_present, path_is_dir. intros H.
  destruct rparts as [|c r]; cbn [mkdir_go] in H;
    destruct (fs_lookup fs _) as [[|]|] eqn:Hl; simplify_eq.
  - by rewrite Hl, orb_true_r.
  - by rewrite bool_decide_true.
  - by rewrite Hl, orb_true_r.
  - destruct (mkdir_go fs abs r); simplify_eq.
    by rewrite fs_lookup_set, decide_True, orb_true_r.
Qed.

Lemma mkdir_parents_ok fs p fs' :
  mkdir_parents fs p = inr fs' ->
  dir_present fs' p = true ∧ ∀ q e, fs_lookup fs q = Some e -> fs_lookup fs' q = Some e.
Proof.
  unfold mkdir_parents. intros H. split; [|by eapply mkdir_go_keeps].
  apply mkdir_go_dir in H. rewrite reverse_involutive in H. by destruct p.
Qed.

Lemma mkdir_go_ok fs abs rparts :
  (∀ k e, fs_lookup fs (mk_path abs (reverse (drop k rparts))) ≠ Some (EFile e)) ->
  ∃ fs', mkdir_go fs abs rparts = inr fs'.
Proof.
  induction rparts as [|c r IH]; intros Hf; cbn [mkdir_go];
    destruct (fs_lookup fs _) as [[|e]|] eqn:Hl; eauto; try (exfalso; by apply (Hf 0 e)).
  destruct IH as [fs1 ->]; [intros k; apply (Hf (S k))|]. eauto.
Qed.

(** [mkdir] only makes the directories on the way to its path. *)
Lemma mkdir_go_frame fs abs rparts fs' q :
  mkdir_go fs abs rparts = inr fs' -> (∀ k, q ≠ mk_path abs (reverse (drop k rparts))) ->
  fs_lookup fs' q = fs_lookup fs q.
Proof.
  revert fs'. induction rparts as [|c r IH]; intros fs' H Hq; cbn [mkdir_go] in H.
  - destruct (fs_lookup fs (mk_path abs _)) as [[|]|]; by simplify_eq.
  - destruct (fs_lookup fs (mk_path abs _)) as [[|]|]; simplify_eq; [done|].
    destruct (mkdir_go fs abs r) as [|fs1] eqn:Hm; simplify_eq.
    rewrite fs_lookup_set, decide_False by (intros Heq; apply (Hq 0); by rewrite <- Heq).
    eapply IH; [done|]. intros k. apply (Hq (S k)).
Qed.

Lemma reverse_drop_reverse (l : list string) k :
  reverse (drop k (reverse l)) = take (length l - k) l.
Proof. by rewrite drop_reverse, reverse_involutive. Qed.

Lemma removelast_shorter (l : list string) : l ≠ [] -> length (removelast l) < length l.
Proof.
  induction l as [|x [|y l] IH]; intros Hl; [done|simpl; lia|].
  cbn [removelast length] in *. specialize (IH ltac:(done)). lia.
Qed.

(** The parent of [p] is made unless one of its ancestors is a file, and
    making it leaves [p] itself as it was. *)
Lemma mkdir_parents_path fs p :
  (∀ k e, fs_lookup fs (mk_path (p_abs p) (take k (p_parts (path_parent p)))) ≠ Some (EFile e)) ->
  ∃ fs', mkdir_parents fs (path_parent p) = inr fs' ∧
    (p_parts p ≠ [] -> fs_lookup fs' p = fs_lookup fs p).
Proof.
  intros Hf. destruct (mkdir_go_ok fs (p_abs p) (reverse (p_parts (path_parent p)))) as [fs' Hm].
  { intros k e. rewrite reverse_drop_reverse. apply Hf. }
  exists fs'. split; [done|]. intros Hp. eapply mkdir_go_frame; [exact Hm|].
  intros k Heq. rewrite reverse_drop_reverse in Heq. destruct p as [abs parts].
  apply (f_equal (length ∘ p_parts)) in Heq. cbn in Heq. rewrite length_take in Heq.
  pose proof (removelast_shorter parts Hp). lia.
Qed.

Lemma write_file_ok fs p c fs' :
  write_file fs p c = inr fs' ->
  fs_lookup fs' p = Some (EFile c) ∧ ∀ q, q ≠ p -> fs_lookup fs' q = fs_lookup fs q.
Proof.
  unfold write_file. repeat case_match; intros; simplify_eq.
  all: split; [by rewrite fs_lookup_set, decide_True|].
  all: intros q Hq; rewrite fs_lookup_set; by rewrite decide_False.
Qed.

Lemma mkdir_go_err fs abs rparts e : mkdir_go fs abs rparts = inl e -> e = OSError.
Proof.
  induction rparts as [|c r IH]; cbn [mkdir_go];
    destruct (fs_lookup fs (mk_path abs _)) as [[|]|]; try by intros [=].
  destruct (mkdir_go fs abs r); [|done]. intros [= <-]. by apply IH.
Qed.

Lemma mkdir_parents_file fs p c : fs_lookup fs p = Some (EFile c) -> mkdir_parents fs p = inl OSError.
Proof.
  intros Hp. unfold mkdir_parents. destruct p as [abs parts].
  remember (reverse (p_parts (mk_path abs parts))) as rp eqn:Hrp.
  destruct rp as [|x r]; cbn [mkdir_go]; rewrite Hrp, reverse_involutive; cbn; by rewrite Hp.
Qed.

Lemma dir_present_keep fs fs' p :
  (∀ q e, fs_lookup fs q = Some e -> fs_lookup fs' q = Some e) ->
  dir_present fs p = true -> dir_present fs' p = true.
Proof.
  unfold dir_present, path_is_dir. intros Hk [Hd|Hd]%orb_true_iff; [by rewrite Hd|].
  destruct (fs_lookup fs p) as [[|]|] eqn:Hl; try done. by rewrite (Hk _ _ Hl), orb_true_r.
Qed.

Lemma write_file_dir fs p c : dir_present fs p = true -> write_file fs p c = inl OSError.
Proof. unfold write_file. intros ->. by destruct (negb _). Qed.

Lemma path_parent_ne p : p_parts p ≠ [] -> path_parent p ≠ p.
Proof.
  intros Hp Heq. apply (f_equal (length ∘ p_parts)) in Heq. cbn in Heq.
  pose proof (removelast_shorter _ Hp). lia.
Qed.

(** ** The command line *)

(** [main] on a path that is not a directory. *)
Lemma main_bad_dir dump safe_load fs args :
  let dir := path_of_string (arg_demo_dir args) in
  path_is_dir fs dir = false ->
  main dump safe_load fs args =
    (Ok (CliExit 1), [if path_exists fs dir then MsgNotADirectory dir else MsgDemoMissing dir]).
Proof.
  intros dir Hd. unfold main. fold dir. rewrite Hd. by destruct (path_exists fs dir).
Qed.

(** C18: [main] exits with status 1, after one error line, when the demo
    directory does not exist or is not a directory. *)
Theorem main_rejects_bad_dir dump safe_load fs args :
  let dir := path_of_string (arg_demo_dir args) in
  path_is_dir fs dir = false ->
  main dump safe_load fs args =
    (Ok (CliExit 1), [if path_exists fs dir then MsgNotADirectory dir else MsgDemoMissing dir]).
Proof. apply main_bad_dir. Qed.

(** One run of [main] on a directory whose aggregation returns. *)
Lemma main_run dump safe_load fs args out st :
  let dir := path_of_string (arg_demo_dir args) in
  let output := output_path args dir in
  let text := header dir +:+ dump out in
  path_is_dir fs dir = true ->
  aggregate fs (arg_main args) (agg_new dir (dir :: (path_of_string <$> arg_search_path args))) =
    (Ok out, st) ->
  main dump safe_load fs args =
    match mkdir_parents fs (path_parent output) with
    | inl e => (Raise e, log st ++ [MsgWriting output])
    | inr fs1 =>
        match write_file fs1 output (safe_load text) with
        | inl e => (Raise e, log st ++ [MsgWriting output])
        | inr fs2 =>
            (Ok (CliWrote output text fs2),
             log st ++ [MsgWriting output;
                        MsgSummary (length (visited_modules st)) (length (widgets st))
                                   (length (data st)) output])
        end
    end.
Proof.
  intros dir output text Hd Ha. unfold main. fold dir output.
  rewrite (path_is_dir_exists _ _ Hd), Hd. cbn [negb].
  destruct (aggregate_vis _ _ _ _ _ Ha) as [Hdir _].
  unfold mbind at 1, M_bind at 1. rewrite Ha. unfold save. unfold_M.
  destruct (mkdir_parents fs (path_parent output)) as [e|fs1]; cbn -[write_file]; [done|].
  rewrite Hdir. cbn [demo_dir agg_new]. fold text.
  destruct (write_file fs1 output (safe_load text)) as [e|fs2]; cbn; [done|].
  by rewrite <- app_assoc.
Qed.

(** C19: on a directory whose aggregation returns the document [out],
    [main] writes to [-o], or by default to [docs/examples/<name>.yaml].
    When no ancestor of the output is a file and the output is not a
    directory, it prints the file it writes and the summary, makes the
    missing parent directories, and the output then holds the provenance
    header followed by the dump of [out]; every other entry is kept.
    When the parent is a file or the output is a directory, the
    [OSError] escapes after the line announcing the write. *)
Theorem main_writes dump safe_load fs args out st :
  let dir := path_of_string (arg_demo_dir args) in
  let output := output_path args dir in
  let text := header dir +:+ dump out in
  path_is_dir fs dir = true ->
  aggregate fs (arg_main args) (agg_new dir (dir :: (path_of_string <$> arg_search_path args))) =
    (Ok out, st) ->
  ((∀ k e, fs_lookup fs (mk_path (p_abs output) (take k (p_parts (path_parent output)))) ≠
             Some (EFile e)) ->
   dir_present fs output = false ->
   ∃ fs', main dump safe_load fs args =
       (Ok (CliWrote output text fs'),
        log st ++ [MsgWriting output;
                   MsgSummary (length (visited_modules st)) (length (widgets st))
                              (length (data st)) output]) ∧
     dir_present fs' (path_parent output) = true ∧
     fs_lookup fs' output = Some (EFile (safe_load text)) ∧
     ∀ q e, q ≠ output -> fs_lookup fs q = Some e -> fs_lookup fs' q = Some e) ∧
  ((∃ c, fs_lookup fs (path_parent output) = Some (EFile c)) ∨ dir_present fs output = true ->
   main dump safe_load fs args = (Raise OSError, log st ++ [MsgWriting output])).
Proof.
  intros dir output text Hd Ha. rewrite (main_run dump safe_load fs args out st Hd Ha).
  fold dir output text. split.
  - intros Hf Hnd. destruct (mkdir_parents_path fs output Hf) as (fs1 & Hm & Hk1).
    rewrite Hm. apply mkdir_parents_ok in Hm as [Hpar Hkeep].
    assert (Hp : p_parts output ≠ []) by (intros Hp; unfold dir_present in Hnd; by rewrite Hp in Hnd).
    unfold write_file. rewrite Hpar. cbn [negb].
    assert (Hnd1 : dir_present fs1 output = false)
      by (unfold dir_present, path_is_dir in *; by rewrite Hk1).
    rewrite Hnd1. eexists. split; [done|]. split; [|split].
    + revert Hpar. unfold dir_present, path_is_dir.
      by rewrite fs_lookup_set, decide_False by (apply not_eq_sym, path_parent_ne, Hp).
    + by rewrite fs_lookup_set, decide_True.
    + intros q e Hq He. rewrite fs_lookup_set, decide_False by congruence. by apply Hkeep.
  - intros [[c Hc]|Hdo].
    + by rewrite (mkdir_parents_file _ _ _ Hc).
    + destruct (mkdir_parents fs (path_parent output)) as [e|fs1] eqn:Hm.
      * by rewrite (mkdir_go_err _ _ _ _ Hm).
      * apply mkdir_parents_ok in Hm as [_ Hkeep].
        by rewrite (write_file_dir _ _ _ (dir_present_keep _ _ _ Hkeep Hdo)).
Qed.

(** C34: the command line round trip.  When [main] writes its output,
    the file holds what [yaml.safe_load] makes of the text and every
    other entry of the filesystem is kept (only missing parent
    directories are added); the text is the provenance header followed by
    the dump of a document which, when the text reads back as that
    document, is what aggregating the written file again returns: run
    from a search path in which the written file is found, as the only
    module of a new aggregator. *)
Theorem main_roundtrip dump safe_load fs args output text fs' msgs m2 dir2 paths2 :
  fs_wf fs ->
  main dump safe_load fs args = (Ok (CliWrote output text fs'), msgs) ->
  find_yaml_file fs' (search_paths (agg_new dir2 paths2)) m2 = Some output ->
  fs_lookup fs' output = Some (EFile (safe_load text)) ∧
  (∀ q e, q ≠ output -> fs_lookup fs q = Some e -> fs_lookup fs' q = Some e) ∧
  ∃ out, text = header (path_of_string (arg_demo_dir args)) +:+ dump out ∧
    (safe_load text = Parsed out -> ∃ st2, aggregate fs' m2 (agg_new dir2 paths2) = (Ok out, st2)).
Proof.
  intros Hfs H Hf. set (dir := path_of_string (arg_demo_dir args)) in *.
  destruct (path_is_dir fs dir) eqn:Hd.
  2:{ rewrite main_bad_dir in H by done. by destruct (path_exists fs dir). }
  set (paths := dir :: (path_of_string <$> arg_search_path args)).
  destruct (aggregate fs (arg_main args) (agg_new dir paths)) as [[out|[]|x|] st] eqn:Ha.
  2-3: unfold main in H; fold dir paths in H; rewrite (path_is_dir_exists _ _ Hd), Hd in H;
       cbn [negb] in H; unfold mbind at 1, M_bind at 1 in H; by rewrite Ha in H.
  rewrite (main_run _ _ _ _ _ _ Hd Ha) in H.
  destruct (mkdir_parents fs _) as [e|fs1] eqn:Hm; [done|].
  destruct (write_file fs1 _ _) as [e|fs2] eqn:Hw; [done|]. injection H as <- <- <- _.
  apply mkdir_parents_ok in Hm as [_ Hkeep]. apply write_file_ok in Hw as [Hout Hother].
  split; [done|]. split; [intros q e Hq He; rewrite Hother by done; by apply Hkeep|].
  exists out. split; [done|]. intros Hp. rewrite Hp in Hout.
  destruct (aggregate_roundtrip_run _ _ _ _ _ _ fs2 m2 dir2 paths2 _ Hfs Ha Hf Hout)
    as (st2 & Hr & _). by exists st2.
Qed.

Definition demo_args (dir : string) : cli_args :=
  {| arg_demo_dir := dir; arg_output := None; arg_main := "main"; arg_search_path := [] |}.

Definition demo_dump (v : yaml) : string := if truthy v then "{...}" else "{}".

(** What the written text reads back as: the document of the fixture. *)
Definition cli_final : aggregator := (aggregate agg_fs "main" (agg_new agg_dir [agg_dir])).2.

Definition demo_text : string := header agg_dir +:+ demo_dump (build_result cli_final).

Definition demo_load (t : string) : file_content :=
  if bool_decide (t = demo_text) then Parsed (build_result cli_final) else Unparsable.

Lemma main_rejects_bad_dir_witness :
  main demo_dump demo_load agg_fs (demo_args "missing") =
    (Ok (CliExit 1), [if path_exists agg_fs (path_of_string "missing")
                      then MsgNotADirectory (path_of_string "missing")
                      else MsgDemoMissing (path_of_string "missing")]).
Proof.
  apply (main_rejects_bad_dir demo_dump demo_load agg_fs (demo_args "missing")).
  vm_compute. reflexivity.
Defined.

Lemma demo_output_path :
  output_path (demo_args "demo") agg_dir = path_of_string "docs/examples/demo.yaml".
Proof. vm_compute. reflexivity. Qed.

Lemma main_writes_witness :
  let output := output_path (demo_args "demo") agg_dir in
  ∃ fs', main demo_dump demo_load agg_fs (demo_args "demo") =
      (Ok (CliWrote output demo_text fs'),
       log cli_final ++ [MsgWriting output;
                         MsgSummary (length (visited_modules cli_final))
                           (length (widgets cli_final)) (length (data cli_final)) output]) ∧
    fs_lookup fs' output = Some (EFile (demo_load demo_text)).
Proof.
  destruct (proj1 (main_writes demo_dump demo_load agg_fs (demo_args "demo")
                     (build_result cli_final) cli_final
                     ltac:(vm_compute; reflexivity) ltac:(vm_compute; reflexivity)))
    as (fs' & Hm & _ & Hout & _).
  - intros [|[|[|k]]] e; vm_compute; discriminate.
  - vm_compute. reflexivity.
  - exists fs'. split; [exact Hm|exact Hout].
Defined.

(** The fixture written to [docs/examples/demo.yaml], read again as the
    module [demo] of [docs/examples]. *)
Lemma main_roundtrip_witness :
  let fs' := match (main demo_dump demo_load agg_fs (demo_args "demo")).1 with
             | Ok (CliWrote _ _ fs') => fs' | _ => agg_fs end in
  let output := path_of_string "docs/examples/demo.yaml" in
  fs_lookup fs' output = Some (EFile (demo_load demo_text)) ∧
  (∀ q e, q ≠ output -> fs_lookup agg_fs q = Some e -> fs_lookup fs' q = Some e) ∧
  ∃ out, demo_text = header (path_of_string (arg_demo_dir (demo_args "demo"))) +:+ demo_dump out ∧
    (demo_load demo_text = Parsed out ->
     ∃ st2, aggregate fs' "demo" (agg_new (path_of_string "docs/examples") []) = (Ok out, st2)).
Proof.
  intros fs' output.
  apply (main_roundtrip demo_dump demo_load agg_fs (demo_args "demo") output demo_text fs'
           (main demo_dump demo_load agg_fs (demo_args "demo")).2).
  - apply (bool_decide_unpack _). vm_compute. reflexivity.
  - vm_compute. reflexivity.
  - vm_compute. reflexivity.
Defined.

End Cli.
