(* ===== verification/Widgets.v ===== *)
(** * The widgets of src/src/imery/frontend/widgets

    [Listbox] (listbox.py) shows the [items] of its params in an imgui list
    box, preselects the item equal to [str] of the field [label] of its
    data node, and stores the item the user picks back into [label].
    [OpenPopup] and [CloseCurrentPopup] (popup-control.py) open the popup
    named by the [id] of their data bag and close the current popup.

    The widgets call a runtime that is not part of the repository (the
    [Widget] base class of [imery.frontend.widget] and the imgui bindings).
    The class [WidgetRuntime] states what the widgets use of it: the field
    values of the widget's data node, its data bag and [_handle_error];
    [WidgetRuntimeLaws] states the one law the theorems rely on (a value
    that was set is read back).  The imgui calls are recorded in order in
    the state; what [imgui.list_box] returns (the user's choice) is a
    parameter, and so is Python's [str] of a non-string value.  The
    instance [dict_runtime] implements the interface with Python dicts and
    discharges the law.  [listbox_index_bounds] bounds the index the list
    box opens on for every runtime. *)

From stdpp Require Import base list strings gmap pretty.
From Stdlib Require Import ZArith.
From S2P Require Import Prelude PyDict PyValue.

Module Widgets.

(** ** The runtime interface *)

Class WidgetRuntime (S : Type) := {
  (** [self._field_values.get(name)]: the value, or a failed [Result]. *)
  field_get : string -> S -> option yaml;
  (** [self._field_values.set(name, value)]: the new store, or a failed
      [Result]. *)
  field_set : string -> yaml -> S -> option S;
  (** [self._data_bag.get(key, default)] *)
  bag_get : string -> yaml -> S -> option yaml;
  (** [self._handle_error(result)] *)
  handle_error : option yaml -> option yaml
}.

Class WidgetRuntimeLaws (S : Type) `{!WidgetRuntime S} := {
  field_get_set k v s s' : field_set k v s = Some s' -> field_get k s' = Some v
}.

(** The imgui calls a widget makes. *)
Inductive imgui_call :=
  | ListBoxCall (id : string) (idx : Z) (items height : yaml)
  | OpenPopupCall (popup_id : yaml)
  | CloseCurrentPopupCall.

(** The [Result.error]s of the widgets. *)
Inductive widget_error :=
  | ListboxNoPath
  | ListboxGetFailed
  | ListboxParamsNotDict
  | ListboxSetFailed
  | OpenPopupNoId.

Record wstate (S : Type) := mk_wstate { store : S; calls : list imgui_call }.
Arguments mk_wstate {S}.
Arguments store {S}.
Arguments calls {S}.

(** ** Python operations on the [items] of a list box *)

(** [hay.index(needle)] on strings: the first position of [needle]. *)
Fixpoint string_index (hay needle : string) : option nat :=
  if String.prefix needle hay then Some 0
  else match hay with
       | EmptyString => None
       | String _ hay' => S <$> string_index hay' needle
       end.

(** [items.index(x)] for a string [x]: [None] is [ValueError]; only lists
    and strings have [.index]. *)
Definition py_index (items : yaml) (x : string) : pyexn + option nat :=
  match items with
  | YList l => inr (fst <$> list_find (λ y, str_of y = Some x) l)
  | YStr s => inr (string_index s x)
  | _ => inl AttributeError
  end.

(** [len(items)] of a list or a string. *)
Definition py_len (items : yaml) : Z :=
  match items with
  | YList l => Z.of_nat (length l)
  | YStr s => Z.of_nat (String.length s)
  | _ => 0
  end.

(** [items[i]] for [0 <= i < len(items)]. *)
Definition py_getitem (items : yaml) (i : Z) : yaml :=
  match items with
  | YList l => default YNone (l !! Z.to_nat i)
  | YStr s => match String.get (Z.to_nat i) s with Some c => YStr (String c EmptyString) | None => YNone end
  | _ => YNone
  end.

Section widgets.
Context {S : Type} `{!WidgetRuntime S}.
(** What [imgui.list_box(id, idx, items, height)] returns: whether the
    user changed the selection, and the selected index. *)
Variable list_box : string -> Z -> yaml -> yaml -> bool * Z.
(** Python's [str(value)]. *)
Variable py_str : yaml -> string.

Notation WM := (M (wstate S) widget_error).

Definition get_field (k : string) : WM (option yaml) :=
  st ← get_st; mret (field_get k (store st)).

Definition set_field (k : string) (v : yaml) : WM bool :=
  st ← get_st;
  match field_set k v (store st) with
  | Some s' => put_st (mk_wstate s' (calls st));; mret true
  | None => mret false
  end.

Definition call_imgui (c : imgui_call) : WM unit :=
  modify_st (λ st, mk_wstate (store st) (calls st ++ [c])).

Definition imgui_list_box (id : string) (idx : Z) (items height : yaml) : WM (bool * Z) :=
  call_imgui (ListBoxCall id idx items height);; mret (list_box id idx items height).

(** [Listbox]: its [uid], [_data_path] and [_params]. *)
Record listbox := mk_listbox { lb_uid : string; lb_data_path : yaml; lb_params : yaml }.

(** [Listbox._pre_render_head] (listbox.py lines 15-43). *)
Definition listbox_pre_render_head (w : listbox) : WM unit :=
  if negb (truthy (lb_data_path w)) then throw ListboxNoPath
  else
    value_res ← get_field "label";
    match value_res with
    | None => throw ListboxGetFailed
    | Some current_value =>
        match lb_params w with
        | YDict _ =>
            items ← lift_py (py_get (lb_params w) "items" (YList []));
            height ← lift_py (py_get (lb_params w) "height" (YInt 4));
            pos ← lift_py (py_index items (py_str current_value));
            let idx := match pos with Some i => Z.of_nat i | None => 0%Z end in
            sel ← imgui_list_box ("###" +:+ lb_uid w) idx items height;
            if sel.1 && bool_decide (0 <= sel.2 < py_len items)%Z then
              set_res ← set_field "label" (py_getitem items sel.2);
              if (set_res : bool) then mret tt else throw ListboxSetFailed
            else mret tt
        | _ => throw ListboxParamsNotDict
        end
    end.

(** [OpenPopup._prepare_render]: no data path is needed. *)
Definition popup_prepare_render : WM unit := mret tt.

(** [OpenPopup._pre_render_head] (popup-control.py lines 19-28). *)
Definition open_popup_pre_render_head : WM unit :=
  st ← get_st;
  let res := handle_error (S:=S) (bag_get "id" YNone (store st)) in
  let popup_id := match res with Some v => v | None => YNone end in
  if negb (truthy popup_id) then throw OpenPopupNoId
  else call_imgui (OpenPopupCall popup_id);; mret tt.

(** [CloseCurrentPopup._prepare_render]: no data path is needed. *)
Definition close_current_popup_prepare_render : WM unit := mret tt.

(** [CloseCurrentPopup._pre_render_head] (popup-control.py lines 39-41). *)
Definition close_current_popup_pre_render_head : WM unit :=
  call_imgui CloseCurrentPopupCall;; mret tt.

End widgets.

(** ** An implementation of the interface

    Field values and data bag as Python dicts: [set] always succeeds,
    [get] of a missing field fails, [_handle_error] passes its result
    through. *)
Record dict_store := mk_dict_store { ds_fields : dict string yaml; ds_bag : dict string yaml }.

#[export] Instance dict_runtime : WidgetRuntime dict_store := {|
  field_get k s := dict_get k (ds_fields s);
  field_set k v s := Some (mk_dict_store (dict_set k v (ds_fields s)) (ds_bag s));
  bag_get k d s := Some (default d (dict_get k (ds_bag s)));
  handle_error r := r
|}.

#[export] Instance dict_runtime_laws : WidgetRuntimeLaws dict_store.
Proof. constructor. intros k v s s' [= <-]. apply dict_get_set_eq. Qed.

(** ** The list box *)

Section listbox_props.
Context {S : Type} `{!WidgetRuntime S} `{!WidgetRuntimeLaws S}.
Variable list_box : string -> Z -> yaml -> yaml -> bool * Z.
Variable py_str : yaml -> string.

(** The index the list box opens on: the first item equal to [str] of the
    current value, or [0]. *)
Definition initial_index (l : list yaml) (v : yaml) : Z :=
  match list_find (λ y, str_of y = Some (py_str v)) l with Some (i, _) => Z.of_nat i | None => 0%Z end.

(** The call to [imgui.list_box] of a list box whose params are the dict
    [d] with the list [l] as items. *)
Definition list_box_call (w : listbox) (d : dict string yaml) (l : list yaml) (v : yaml) :=
  ListBoxCall ("###" +:+ lb_uid w) (initial_index l v) (YList l)
              (default (YInt 4) (dict_get "height" d)).

Lemma listbox_run w st v d l :
  truthy (lb_data_path w) = true -> field_get "label" (store st) = Some v ->
  lb_params w = YDict d -> dict_get "items" d = Some (YList l) ->
  listbox_pre_render_head list_box py_str w st =
    (let sel := list_box ("###" +:+ lb_uid w) (initial_index l v) (YList l)
                  (default (YInt 4) (dict_get "height" d)) in
     if sel.1 && bool_decide (0 <= sel.2 < Z.of_nat (length l))%Z then
       set_field "label" (default YNone (l !! Z.to_nat sel.2)) ≫=
         (λ set_res : bool, if set_res then mret tt else throw ListboxSetFailed)
     else mret tt) (mk_wstate (store st) (calls st ++ [list_box_call w d l v])).
Proof.
  intros Hp Hg Hd Hi. unfold listbox_pre_render_head. rewrite Hp. cbn [negb].
  unfold get_field. unfold_M. rewrite Hg, Hd. cbn. rewrite Hi. cbn.
  unfold initial_index, list_box_call, initial_index.
  destruct (list_find _ l) as [[i y]|]; reflexivity.
Qed.
(** C22: when the user picks the item [i] of a list box whose items are a
    list, the widget stores that item in the field [label] (read back from
    the runtime by its law) and succeeds; the list box was opened on the
    first item equal to [str] of the current value. *)
Theorem listbox_select w st v d l i x s' :
  truthy (lb_data_path w) = true -> field_get "label" (store st) = Some v ->
  lb_params w = YDict d -> dict_get "items" d = Some (YList l) ->
  list_box ("###" +:+ lb_uid w) (initial_index l v) (YList l)
           (default (YInt 4) (dict_get "height" d)) = (true, i) ->
  l !! Z.to_nat i = Some x -> (0 <= i)%Z ->
  field_set "label" x (store st) = Some s' ->
  listbox_pre_render_head list_box py_str w st =
    (Ok tt, mk_wstate s' (calls st ++ [list_box_call w d l v])) ∧
  field_get "label" s' = Some x.
Proof.
  intros Hp Hg Hd Hi Hsel Hx Hi0 Hs. split; [|by eapply field_get_set].
  rewrite (listbox_run w st v d l Hp Hg Hd Hi), Hsel. cbn [fst snd andb].
  apply lookup_lt_Some in Hx as Hlt. rewrite bool_decide_true by lia.
  rewrite Hx. cbn [default]. unfold set_field. unfold_M. cbn. rewrite Hs. done.
Qed.

(** C23: when the user changes nothing, or the index returned is out of
    range, the list box only makes its imgui call: the field values are
    unchanged. *)
Theorem listbox_keep w st v d l c i :
  truthy (lb_data_path w) = true -> field_get "label" (store st) = Some v ->
  lb_params w = YDict d -> dict_get "items" d = Some (YList l) ->
  list_box ("###" +:+ lb_uid w) (initial_index l v) (YList l)
           (default (YInt 4) (dict_get "height" d)) = (c, i) ->
  c = false ∨ ¬ (0 <= i < Z.of_nat (length l))%Z ->
  listbox_pre_render_head list_box py_str w st =
    (Ok tt, mk_wstate (store st) (calls st ++ [list_box_call w d l v])).
Proof.
  intros Hp Hg Hd Hi Hsel Hc.
  rewrite (listbox_run w st v d l Hp Hg Hd Hi), Hsel. cbn [fst snd].
  destruct Hc as [->|Hr]; [done|]. rewrite bool_decide_false by done.
  by rewrite andb_false_r.
Qed.

Lemma initial_index_no_str l v :
  Forall (λ y, str_of y = None) l -> initial_index l v = 0%Z.
Proof.
  intros Hl. unfold initial_index. rewrite (proj2 (list_find_None _ _)); [done|].
  eapply Forall_impl; [exact Hl|]. by intros y ->.
Qed.

(** C26: when no item is a string (integers, booleans, nested values),
    [items.index(str(current_value))] finds nothing, so the list box always
    opens on item 0, whatever the current value, also when the field holds
    another item of the list: the preselection only works for string items.
    The user's choice then changes no imgui call. *)
Theorem listbox_nonstr_items_open_at_zero w st v d l r st' :
  truthy (lb_data_path w) = true -> field_get "label" (store st) = Some v ->
  lb_params w = YDict d -> dict_get "items" d = Some (YList l) ->
  Forall (λ y, str_of y = None) l ->
  listbox_pre_render_head list_box py_str w st = (r, st') ->
  calls st' = calls st ++ [ListBoxCall ("###" +:+ lb_uid w) 0 (YList l)
                             (default (YInt 4) (dict_get "height" d))].
Proof.
  intros Hp Hg Hd Hi Hl. rewrite (listbox_run w st v d l Hp Hg Hd Hi).
  unfold list_box_call. rewrite initial_index_no_str by done. cbn zeta.
  case_match; [|by intros [= _ <-]].
  unfold set_field. unfold_M. cbn. destruct (field_set _ _ _); cbn; by intros [= _ <-].
Qed.

(** C24: the guards of [_pre_render_head], in order: no data path, a
    failed read of [label], params that are not a dict.  Each returns its
    error before any imgui call. *)
Theorem listbox_guards w st :
  (truthy (lb_data_path w) = false ->
     listbox_pre_render_head list_box py_str w st = (Err ListboxNoPath, st)) ∧
  (truthy (lb_data_path w) = true -> field_get "label" (store st) = None ->
     listbox_pre_render_head list_box py_str w st = (Err ListboxGetFailed, st)) ∧
  (∀ v, truthy (lb_data_path w) = true -> field_get "label" (store st) = Some v ->
     (∀ d, lb_params w ≠ YDict d) ->
     listbox_pre_render_head list_box py_str w st = (Err ListboxParamsNotDict, st)).
Proof.
  unfold listbox_pre_render_head, get_field. split; [|split].
  - by intros ->.
  - intros -> Hg. unfold_M. cbn [negb]. by rewrite Hg.
  - intros v -> Hg Hd. unfold_M. cbn [negb]. rewrite Hg.
    destruct (lb_params w); try done. by destruct (Hd d).
Qed.

(** ** The index the list box opens on *)

(** An imgui call whose list-box index lies in [[0, max(1, len(items)))]:
    a valid position of [items], or [0] for empty [items]. *)
Definition list_box_index_in_range (c : imgui_call) : Prop :=
  match c with
  | ListBoxCall _ idx items _ => (0 <= idx < Z.max 1 (py_len items))%Z
  | _ => True
  end.

Lemma string_index_bound hay needle i :
  needle ≠ "" -> string_index hay needle = Some i -> i < String.length hay.
Proof.
  intros Hn. revert i. induction hay as [|a hay IH]; intros i; cbn [string_index].
  - by destruct needle.
  - case_match; intros Hi; simplify_eq/=; [lia|].
    destruct (string_index hay needle) as [j|] eqn:Hj; simplify_eq/=.
    specialize (IH j eq_refl). lia.
Qed.

Lemma py_index_bound items x i :
  py_index items x = inr (Some i) -> (Z.of_nat i < Z.max 1 (py_len items))%Z.
Proof.
  destruct items as [| | |s|l|]; intros Hi; simplify_eq/=.
  - destruct (decide (x = "")) as [->|Hx].
    + destruct s; simplify_eq/=; lia.
    + apply string_index_bound in Hi; [lia|done].
  - apply fmap_Some in Hi as ([j y] & Hf & ->). apply list_find_Some in Hf as (Hj & _).
    apply lookup_lt_Some in Hj. simpl. lia.
Qed.

(** C31: bounds.  Whatever the runtime, the params and the user's choice,
    [_pre_render_head] only appends imgui calls to the record, and the
    index it passes to [imgui.list_box] is a valid position of the items
    (or [0] when there is none): [items.index] returns a position of a
    list or a string, and a missing value falls back to [0]. *)
Theorem listbox_index_bounds w st r st' :
  listbox_pre_render_head list_box py_str w st = (r, st') ->
  ∃ cs, calls st' = calls st ++ cs ∧ Forall list_box_index_in_range cs.
Proof.
  unfold listbox_pre_render_head, get_field, imgui_list_box, call_imgui, set_field.
  unfold_M. intros H. repeat (case_match; simplify_eq/=).
  all: try (exists []; rewrite app_nil_r; done).
  all: eexists; split; [reflexivity|]; apply Forall_singleton; cbn; try lia.
  all: match goal with Hp : py_index _ _ = inr (Some _) |- _ =>
         pose proof (py_index_bound _ _ _ Hp); lia end.
Qed.
End listbox_props.

(** ** The popups *)

(** C25: with the dict runtime, [OpenPopup] opens the popup its data bag
    names under [id] when that id is truthy, and otherwise fails without
    any imgui call; [CloseCurrentPopup] only closes the current popup. *)
Theorem popups_spec fields bag cs :
  let st := mk_wstate (mk_dict_store fields bag) cs in
  (∀ v, dict_get "id" bag = Some v -> truthy v = true ->
     open_popup_pre_render_head st = (Ok tt, mk_wstate (mk_dict_store fields bag) (cs ++ [OpenPopupCall v]))) ∧
  ((∀ v, dict_get "id" bag = Some v -> truthy v = false) ->
     open_popup_pre_render_head st = (Err OpenPopupNoId, st)) ∧
  close_current_popup_pre_render_head st =
    (Ok tt, mk_wstate (mk_dict_store fields bag) (cs ++ [CloseCurrentPopupCall])).
Proof.
  intros st. unfold open_popup_pre_render_head. unfold_M. cbn. split; [|split; [|done]].
  - intros v Hv Ht. rewrite Hv. cbn. by rewrite Ht.
  - intros Hf. destruct (dict_get "id" bag) as [v|]; cbn; [by rewrite Hf|done].
Qed.

(** ** Witnesses and the preselection of non-string items *)

(** [str] of the scalars the examples use. *)
Definition scalar_str (v : yaml) : string :=
  match v with YStr s => s | YInt z => pretty z | _ => "" end.

Definition pick (i : Z) : string -> Z -> yaml -> yaml -> bool * Z := λ _ _ _ _, (true, i).

Definition demo_listbox (items : list yaml) : listbox :=
  mk_listbox "lb" (YStr "/config/choice") (YDict [("items", YList items)]).

Definition demo_st (v : yaml) : wstate dict_store :=
  mk_wstate (mk_dict_store [("label", v)] []) [].

Lemma listbox_select_witness :
  listbox_pre_render_head (pick 1) scalar_str (demo_listbox [YStr "a"; YStr "b"]) (demo_st (YStr "a")) =
    (Ok tt, mk_wstate (mk_dict_store [("label", YStr "b")] [])
              (calls (demo_st (YStr "a")) ++
               [list_box_call scalar_str (demo_listbox [YStr "a"; YStr "b"])
                  [("items", YList [YStr "a"; YStr "b"])] [YStr "a"; YStr "b"] (YStr "a")])) ∧
  field_get "label" (mk_dict_store [("label", YStr "b")] []) = Some (YStr "b").
Proof.
  apply (listbox_select (pick 1) scalar_str (demo_listbox [YStr "a"; YStr "b"]) (demo_st (YStr "a"))
           (YStr "a") [("items", YList [YStr "a"; YStr "b"])] [YStr "a"; YStr "b"] 1 (YStr "b")).
  all: vm_compute; try reflexivity; discriminate.
Defined.

Lemma listbox_keep_witness :
  listbox_pre_render_head (pick 5) scalar_str (demo_listbox [YStr "a"; YStr "b"]) (demo_st (YStr "b")) =
    (Ok tt, mk_wstate (store (demo_st (YStr "b")))
              (calls (demo_st (YStr "b")) ++
               [list_box_call scalar_str (demo_listbox [YStr "a"; YStr "b"])
                  [("items", YList [YStr "a"; YStr "b"])] [YStr "a"; YStr "b"] (YStr "b")])).
Proof.
  apply (listbox_keep (pick 5) scalar_str (demo_listbox [YStr "a"; YStr "b"]) (demo_st (YStr "b"))
           (YStr "b") [("items", YList [YStr "a"; YStr "b"])] [YStr "a"; YStr "b"] true 5).
  1-5: vm_compute; reflexivity.
  right. simpl. lia.
Defined.

(** A list box without data path, a data node without [label], and
    params that are a list. *)
Definition nopath_listbox : listbox := mk_listbox "lb" YNone (YDict [("items", YList [])]).
Definition nolabel_st : wstate dict_store := mk_wstate (mk_dict_store [] []) [].
Definition listparams_listbox : listbox :=
  mk_listbox "lb" (YStr "/config/choice") (YList [YStr "a"]).

Lemma listbox_guards_witness :
  listbox_pre_render_head (pick 0) scalar_str nopath_listbox (demo_st (YStr "a")) =
    (Err ListboxNoPath, demo_st (YStr "a")) ∧
  listbox_pre_render_head (pick 0) scalar_str (demo_listbox [YStr "a"]) nolabel_st =
    (Err ListboxGetFailed, nolabel_st) ∧
  listbox_pre_render_head (pick 0) scalar_str listparams_listbox (demo_st (YStr "a")) =
    (Err ListboxParamsNotDict, demo_st (YStr "a")).
Proof.
  split; [|split].
  - apply (proj1 (listbox_guards (pick 0) scalar_str nopath_listbox (demo_st (YStr "a")))).
    reflexivity.
  - apply (proj1 (proj2 (listbox_guards (pick 0) scalar_str (demo_listbox [YStr "a"]) nolabel_st)));
      reflexivity.
  - apply (proj2 (proj2 (listbox_guards (pick 0) scalar_str listparams_listbox
                           (demo_st (YStr "a")))) (YStr "a")); [reflexivity|reflexivity|].
    intros d. discriminate.
Defined.

Lemma popups_spec_witness :
  let st := mk_wstate (mk_dict_store [] [("id", YStr "confirm")]) [] in
  (∀ v, dict_get "id" [("id", YStr "confirm")] = Some v -> truthy v = true ->
     open_popup_pre_render_head st =
       (Ok tt, mk_wstate (mk_dict_store [] [("id", YStr "confirm")]) ([] ++ [OpenPopupCall v]))) ∧
  ((∀ v, dict_get "id" [("id", YStr "confirm")] = Some v -> truthy v = false) ->
     open_popup_pre_render_head st = (Err OpenPopupNoId, st)) ∧
  close_current_popup_pre_render_head st =
    (Ok tt, mk_wstate (mk_dict_store [] [("id", YStr "confirm")]) ([] ++ [CloseCurrentPopupCall])).
Proof. apply popups_spec. Defined.

(** A list box whose items are the string ["abc"]: [items.index("c")] is
    the position [2] of the substring. *)
Definition demo_str_listbox : listbox :=
  mk_listbox "lb" (YStr "/config/choice") (YDict [("items", YStr "abc")]).

Lemma listbox_index_bounds_witness :
  ∃ cs, calls (listbox_pre_render_head (pick 7) scalar_str demo_str_listbox (demo_st (YStr "c"))).2 =
          calls (demo_st (YStr "c")) ++ cs ∧ Forall list_box_index_in_range cs.
Proof.
  apply (listbox_index_bounds (pick 7) scalar_str demo_str_listbox (demo_st (YStr "c"))
           (listbox_pre_render_head (pick 7) scalar_str demo_str_listbox (demo_st (YStr "c"))).1).
  vm_compute. reflexivity.
Defined.

(** The field holds the item [2] of the integer items [[1, 2]]: the
    list box opens on item 0. *)
Lemma listbox_nonstr_items_open_at_zero_witness :
  calls (listbox_pre_render_head (pick 1) scalar_str (demo_listbox [YInt 1; YInt 2])
           (demo_st (YInt 2))).2 =
    calls (demo_st (YInt 2)) ++ [ListBoxCall "###lb" 0 (YList [YInt 1; YInt 2]) (YInt 4)].
Proof.
  apply (listbox_nonstr_items_open_at_zero (pick 1) scalar_str (demo_listbox [YInt 1; YInt 2])
           (demo_st (YInt 2)) (YInt 2) [("items", YList [YInt 1; YInt 2])] [YInt 1; YInt 2]
           (listbox_pre_render_head (pick 1) scalar_str (demo_listbox [YInt 1; YInt 2])
              (demo_st (YInt 2))).1).
  all: vm_compute; try reflexivity. repeat constructor.
Defined.

End Widgets.
