(* ===== verification/LangMachine.v ===== *)
(** * The loop of [Lang.load_main_module] as a transition system

    The [while queue] loop of lang.py (lines 59-115) read as a small-step
    machine: a configuration is the loop test with the deque, the local
    [visited] set (in insertion order) and the object, or the end of the
    loop with what it returned.  [step] is one iteration of the body
    (pop, skip a visited module, or visit it: locate, load, merge, queue
    its imports) or the exit of the loop; an error of a visit or a value
    that is not a module name ends the loop at once.

    The machine is the fuelled [bfs] of [Lang] run without a bound: a run
    of [bfs] that does not exhaust its fuel is a run of the machine to a
    final configuration and back ([bfs_machine]).  From the start of
    [load_main_module] every run of the machine is finite and ends in a
    final configuration ([load_main_module_loop_halts]); every
    configuration it reaches satisfies the loop invariant [loop_inv]
    ([load_main_module_loop_invariant]), proved by induction on the
    steps. *)

From stdpp Require Import base list strings sets relations.
From S2P Require Import Prelude PyDict PyValue Paths Graph Lang.
Import Lang.

Module LangMachine.

(** A configuration of [load_main_module]'s loop. *)
Inductive config :=
  | Loop (queue : list yaml) (visited : list string) (st : lang)
  | Halt (r : outcome lang_error (list string)) (st : lang).

Section machine.
Context (fs : filesystem).

(** One iteration of the loop body, or the exit of the loop. *)
Inductive step : config -> config -> Prop :=
  | step_exit visited st :
      step (Loop [] visited st) (Halt (Ok visited) st)
  | step_not_name x rest visited st e :
      module_name_of x = inl e ->
      step (Loop (x :: rest) visited st) (Halt (Raise e) st)
  | step_skip x rest visited st m :
      module_name_of x = inr m -> m ∈ visited ->
      step (Loop (x :: rest) visited st) (Loop rest visited st)
  | step_visit x rest visited st m imports st' :
      module_name_of x = inr m -> m ∉ visited -> visit fs m st = (Ok imports, st') ->
      step (Loop (x :: rest) visited st) (Loop (rest ++ imports) (visited ++ [m]) st')
  | step_error x rest visited st m e st' :
      module_name_of x = inr m -> m ∉ visited -> visit fs m st = (Err e, st') ->
      step (Loop (x :: rest) visited st) (Halt (Err e) st')
  | step_raise x rest visited st m e st' :
      module_name_of x = inr m -> m ∉ visited -> visit fs m st = (Raise e, st') ->
      step (Loop (x :: rest) visited st) (Halt (Raise e) st').

#[local] Hint Constructors step : core.

Lemma step_det c c1 c2 : step c c1 -> step c c2 -> c1 = c2.
Proof. intros H1 H2. inversion H1; inversion H2; simplify_eq; congruence. Qed.

Lemma halt_nf r st : nf step (Halt r st).
Proof. intros [c Hc]. inversion Hc. Qed.

(** Every loop configuration steps: a visit returns a result or an error,
    never the exhaustion of a bound. *)
Lemma loop_red queue visited st : red step (Loop queue visited st).
Proof.
  destruct queue as [|x rest]; [eexists; constructor|].
  destruct (module_name_of x) as [e|m] eqn:Hx; [eexists; by constructor|].
  destruct (decide (m ∈ visited)); [eexists; by eapply step_skip|].
  destruct (visit fs m st) as [[l|e|e|] st'] eqn:Hv; eauto.
  by apply visit_fuel_free in Hv.
Qed.

(** The machine is [bfs] without a bound: a run of [bfs] that returns
    within its fuel is a run of the machine to the same final
    configuration, and every such run of the machine is a run of [bfs]
    with enough fuel. *)
Lemma bfs_rtc fuel queue visited st r st' :
  bfs fs fuel queue visited st = (r, st') -> r ≠ NoFuel ->
  rtc step (Loop queue visited st) (Halt r st').
Proof.
  revert queue visited st. induction fuel as [|fuel IH]; intros queue visited st H Hr;
    cbn [bfs] in H; unfold_M; [by injection H as <-|].
  destruct queue as [|x rest]; [injection H as <- <-; apply rtc_once; constructor|].
  destruct (module_name_of x) as [e|m] eqn:Hx;
    [injection H as <- <-; apply rtc_once; by constructor|].
  destruct (decide (m ∈ visited)).
  - eapply rtc_l; [by eapply step_skip|]. by apply IH.
  - destruct (visit fs m st) as [[l|e|e|] st1] eqn:Hv;
      try (injection H as <- <-; apply rtc_once; by eauto).
    eapply rtc_l; [by eapply step_visit|]. by apply IH.
Qed.

(** One iteration of [bfs] on a non-empty queue, when the value popped
    is a module name. *)
Lemma bfs_unfold fuel x rest visited st m :
  module_name_of x = inr m ->
  bfs fs (S fuel) (x :: rest) visited st =
    (if decide (m ∈ visited) then bfs fs fuel rest visited st
     else match visit fs m st with
          | (Ok l, st1) => bfs fs fuel (rest ++ l) (visited ++ [m]) st1
          | (Err e, st1) => (Err e, st1)
          | (Raise e, st1) => (Raise e, st1)
          | (NoFuel, st1) => (NoFuel, st1)
          end).
Proof.
  intros Hx. cbn [bfs]. unfold_M. rewrite Hx.
  case_decide; [done|]. by destruct (visit fs m st) as [[] ?].
Qed.

Lemma rtc_bfs queue visited st r st' :
  rtc step (Loop queue visited st) (Halt r st') ->
  ∃ fuel, bfs fs fuel queue visited st = (r, st').
Proof.
  remember (Loop queue visited st) as c eqn:Hc. remember (Halt r st') as h eqn:Hh.
  intros Hs. revert queue visited st Hc. induction Hs as [c|c c1 c2 Hstep Hs IH];
    intros queue visited st ->; [done|].
  inversion Hstep as [|? ? ? ? ? Hx|? ? ? ? ? Hx Hin|? ? ? ? ? ? ? Hx Hin Hv|? ? ? ? ? ? ? Hx Hin Hv
                     |? ? ? ? ? ? ? Hx Hin Hv]; subst;
    try (apply rtc_nf in Hs; [simplify_eq|apply halt_nf]).
  - by exists 1.
  - exists 1. cbn. unfold_M. by rewrite Hx.
  - destruct (IH eq_refl _ _ _ eq_refl) as [fuel Hf]. exists (S fuel).
    rewrite (bfs_unfold _ _ _ _ _ _ Hx). by rewrite decide_True.
  - destruct (IH eq_refl _ _ _ eq_refl) as [fuel Hf]. exists (S fuel).
    rewrite (bfs_unfold _ _ _ _ _ _ Hx). rewrite decide_False by done. by rewrite Hv.
  - exists 1. rewrite (bfs_unfold _ _ _ _ _ _ Hx). rewrite decide_False by done. by rewrite Hv.
  - exists 1. rewrite (bfs_unfold _ _ _ _ _ _ Hx). rewrite decide_False by done. by rewrite Hv.
Qed.

(** A configuration from which [bfs] returns within its fuel has no
    infinite run. *)
Lemma bfs_sn fuel queue visited st r st' :
  bfs fs fuel queue visited st = (r, st') -> r ≠ NoFuel -> sn step (Loop queue visited st).
Proof.
  revert queue visited st. induction fuel as [|fuel IH]; intros queue visited st H Hr;
    [by injection H as <-|].
  constructor. intros c Hc.
  inversion Hc as [|? ? ? ? ? Hx|? ? ? ? ? Hx Hin|? ? ? ? ? ? ? Hx Hin Hv|
                   ? ? ? ? ? ? ? Hx Hin Hv|? ? ? ? ? ? ? Hx Hin Hv]; subst;
    try apply nf_sn, halt_nf; rewrite (bfs_unfold _ _ _ _ _ _ Hx) in H.
  - rewrite decide_True in H by done. by eapply IH.
  - rewrite decide_False in H by done. rewrite Hv in H. by eapply IH.
Qed.
End machine.

Lemma step_not_fuel fs c c' s : step fs c c' -> c' ≠ Halt NoFuel s.
Proof. by inversion 1. Qed.

Lemma rtc_halt_not_fuel fs queue visited st0 r st :
  rtc (step fs) (Loop queue visited st0) (Halt r st) -> r ≠ NoFuel.
Proof.
  intros Hs%rtc_inv_r. destruct Hs as [[=]|(c & _ & Hstep)].
  intros ->. by apply (step_not_fuel _ _ _ st) in Hstep.
Qed.

(** ** The loop invariant *)

Lemma module_name_of_inr x m : module_name_of x = inr m -> x = YStr m.
Proof. destruct x; simpl; intros H; by simplify_eq. Qed.

Section invariant.
Context (fs : filesystem) (module_name : string) (st0 : lang).

Local Abbreviation dirs := (layouts_paths st0).
Local Abbreviation E := (lang_edges fs (layouts_paths st0)).

(** What holds at every test of [while queue]: the search paths are those
    of the start; the [visited] set holds each name once; visited and
    queued names are reachable from the seeds, and every import of a
    visited module is visited or queued (the worklist invariant); the
    widget and data definitions are those of the start followed by the
    contributions of the visited modules, in visit order, with new keys;
    at most one app block was found. *)
Record loop_inv (queue : list yaml) (visited : list string) (st : lang) : Prop := {
  mi_paths : layouts_paths st = dirs;
  mi_nodup : NoDup visited;
  mi_visited_reach : ∀ m, m ∈ visited -> reachable E (seeds module_name) m;
  mi_queue_reach : ∀ m, YStr m ∈ queue -> reachable E (seeds module_name) m;
  mi_closed : ∀ m m', m ∈ visited -> m' ∈ E m -> m' ∈ visited ∨ YStr m' ∈ queue;
  mi_seeds : ∀ m, m ∈ seeds module_name -> m ∈ visited ∨ YStr m ∈ queue;
  mi_widgets : widget_definitions st =
                 widget_definitions st0 ++ mjoin (module_widgets fs dirs <$> visited);
  mi_widgets_fresh : fresh_keys (dict_keys (mjoin (module_widgets fs dirs <$> visited)))
                                (dict_keys (widget_definitions st0));
  mi_data : data_definitions st = data_definitions st0 ++ mjoin (module_data fs dirs <$> visited);
  mi_data_fresh : fresh_keys (dict_keys (mjoin (module_data fs dirs <$> visited)))
                             (dict_keys (data_definitions st0));
  mi_app : omap not_none (app_config st0 :: (module_app fs dirs <$> visited)) =
             omap not_none [app_config st]
}.

Lemma loop_inv_init : loop_inv (YStr <$> seeds module_name) [] st0.
Proof.
  constructor; cbn [fmap list_fmap mjoin]; rewrite ?app_nil_r; auto using fresh_keys_nil.
  - constructor.
  - by intros m ?%elem_of_nil.
  - intros m Hm. apply reach_seed. by rewrite (list_elem_of_fmap_inj YStr) in Hm.
  - by intros m m' ?%elem_of_nil.
  - intros m Hm. right. by apply list_elem_of_fmap_2.
Qed.

Lemma loop_inv_skip x rest visited st m :
  loop_inv (x :: rest) visited st -> module_name_of x = inr m -> m ∈ visited ->
  loop_inv rest visited st.
Proof.
  intros [] Hx%module_name_of_inr Hm. subst x. constructor; auto.
  - intros m' Hm'. apply mi_queue_reach0. by right.
  - intros m1 m' H1 H2. destruct (mi_closed0 m1 m' H1 H2) as [?|[[= ->]|?]%elem_of_cons]; auto.
  - intros s Hs. destruct (mi_seeds0 s Hs) as [?|[[= ->]|?]%elem_of_cons]; auto.
Qed.

Lemma mjoin_snoc {A B} (f : A -> list B) (l : list A) a :
  mjoin (f <$> l ++ [a]) = mjoin (f <$> l) ++ f a.
Proof. by rewrite fmap_app, join_app; cbn; rewrite app_nil_r. Qed.

Lemma loop_inv_visit x rest visited st m l st' :
  loop_inv (x :: rest) visited st -> module_name_of x = inr m -> m ∉ visited ->
  visit fs m st = (Ok l, st') -> loop_inv (rest ++ l) (visited ++ [m]) st'.
Proof.
  intros [] Hx%module_name_of_inr Hm Hv. subst x.
  pose proof (visit_Ok_omap _ _ _ _ _ Hv) as Hl. rewrite mi_paths0 in Hl.
  destruct (visit_state _ _ _ _ _ Hv) as (Hfw & Hw & Hfd & Hd & Ha & Hp).
  rewrite mi_paths0 in Hfw, Hw, Hfd, Hd, Ha.
  assert (Hrm : reachable E (seeds module_name) m) by (apply mi_queue_reach0; by left).
  constructor.
  - congruence.
  - apply NoDup_app. split; [done|]. split; [|apply NoDup_singleton]. set_solver.
  - intros m' [?| ->%list_elem_of_singleton]%elem_of_app; auto.
  - intros m' [Hq|Hq]%elem_of_app; [apply mi_queue_reach0; by right|].
    apply reach_edge with m; [done|]. rewrite <- Hl. by apply str_of_elem.
  - intros m1 m' [H1| ->%list_elem_of_singleton]%elem_of_app H2.
    + destruct (mi_closed0 m1 m' H1 H2) as [?|[[= ->]|?]%elem_of_cons]; set_solver.
    + right. apply elem_of_app. right. apply str_of_elem_inv. by rewrite Hl.
  - intros s Hs. destruct (mi_seeds0 s Hs) as [?|[[= ->]|?]%elem_of_cons]; set_solver.
  - by rewrite Hw, mi_widgets0, mjoin_snoc, <- app_assoc.
  - rewrite mjoin_snoc, dict_keys_app, fresh_keys_app. split; [done|].
    by rewrite <- dict_keys_app, <- mi_widgets0.
  - by rewrite Hd, mi_data0, mjoin_snoc, <- app_assoc.
  - rewrite mjoin_snoc, dict_keys_app, fresh_keys_app. split; [done|].
    by rewrite <- dict_keys_app, <- mi_data0.
  - rewrite fmap_app, app_comm_cons, omap_app, mi_app0, <- omap_app. exact Ha.
Qed.
End invariant.

(** Liveness of the loop.  From the start of [load_main_module] (the
    deque [[module_name, "builtin"]], nothing visited), on any filesystem
    and whatever the import graph, the loop has no infinite run, some run
    reaches a normal form, and the only normal forms are the ends of the
    loop: every run of the loop ends. *)
Theorem load_main_module_loop_halts fs module_name st :
  let c0 := Loop (YStr <$> seeds module_name) [] st in
  sn (step fs) c0 ∧ wn (step fs) c0 ∧ (∀ c, nf (step fs) c -> ∃ r st', c = Halt r st').
Proof.
  intros c0.
  destruct (bfs fs (lang_fuel fs module_name) (YStr <$> seeds module_name) [] st)
    as [r st'] eqn:H.
  assert (Hr : r ≠ NoFuel) by (intros ->; by apply (bfs_seeds_no_fuel fs module_name st st')).
  split; [exact (bfs_sn fs _ _ _ _ _ _ H Hr)|]. split.
  - exists (Halt r st'). split; [exact (bfs_rtc fs _ _ _ _ _ _ H Hr)|apply halt_nf].
  - intros [queue visited s|r' s] Hnf; [|by eauto]. by destruct (Hnf (loop_red fs _ _ _)).
Qed.

(** C33: the loop invariant.  Every configuration of the loop reachable
    from the start of [load_main_module] satisfies [loop_inv]: the search
    paths are unchanged, [visited] holds each module once, every visited
    or queued name is reachable and every import of a visited module is
    visited or queued, and the object's widget and data definitions are
    exactly those it had followed by the contributions of the visited
    modules, with new keys, and at most one app block. *)
Theorem load_main_module_loop_invariant fs module_name st0 queue visited st :
  rtc (step fs) (Loop (YStr <$> seeds module_name) [] st0) (Loop queue visited st) ->
  loop_inv fs module_name st0 queue visited st.
Proof.
  intros Hs.
  refine (rtc_ind_r (λ c, match c with
                          | Loop q v s => loop_inv fs module_name st0 q v s
                          | Halt _ _ => True end) _ _ _ _ Hs); [apply loop_inv_init|].
  intros [q v s|] c' _ Hstep IH; [|inversion Hstep].
  inversion Hstep; subst; try done; [eapply loop_inv_skip|eapply loop_inv_visit]; eauto.
Qed.

(** The fuelled loop [bfs] of [Lang] and the machine agree: [bfs]
    returns [r] within some fuel exactly when the machine runs from the
    same configuration to the end of the loop with [r]. *)
Theorem bfs_machine fs queue visited st r st' :
  (∃ fuel, bfs fs fuel queue visited st = (r, st') ∧ r ≠ NoFuel) ↔
  rtc (step fs) (Loop queue visited st) (Halt r st').
Proof.
  split.
  - intros (fuel & H & Hr). by eapply bfs_rtc.
  - intros Hs. destruct (rtc_bfs _ _ _ _ _ _ Hs) as [fuel H].
    exists fuel. split; [done|]. by eapply rtc_halt_not_fuel.
Qed.

(** ** Witnesses on the scenario of the specification *)

(** After the visit of [root] the deque holds ["builtin"] and the import
    [leaf]. *)
Lemma load_main_module_loop_invariant_witness :
  loop_inv demo_fs "root" demo_lang ([YStr "builtin"] ++ [YStr "leaf"]) ([] ++ ["root"])
    (visit demo_fs "root" demo_lang).2.
Proof.
  apply (load_main_module_loop_invariant demo_fs "root" demo_lang).
  eapply rtc_l; [|apply rtc_refl].
  apply (step_visit demo_fs (YStr "root") [YStr "builtin"] [] demo_lang "root" [YStr "leaf"]).
  - reflexivity.
  - by intros ?%elem_of_nil.
  - vm_compute. reflexivity.
Defined.

Lemma bfs_machine_witness :
  rtc (step demo_fs) (Loop (YStr <$> seeds "root") [] demo_lang)
    (Halt (Ok ["root"; "builtin"; "leaf"]) demo_final).
Proof.
  apply (bfs_machine demo_fs (YStr <$> seeds "root") [] demo_lang).
  exists (lang_fuel demo_fs "root"). split; [vm_compute; reflexivity|discriminate].
Defined.

End LangMachine.
