(* ===== verification/Package.v ===== *)
(** * The package version (src/src/imery/__init__.py)

    [__version__] is read from the installed distribution's metadata with
    [importlib.metadata.version("imery")]; any exception (the
    distribution is not installed, [importlib.metadata] is missing) falls
    back to ["unknown"].  The metadata lookup is a library call: it is a
    parameter, [None] when it raises. *)

From stdpp Require Import base strings.
From S2P Require Import Prelude.

Module Package.

(** Lines 6-10. *)
Definition package_version (version : string -> option string) : string :=
  match version "imery" with Some v => v | None => "unknown" end.

(** Line 12. *)
Definition all_exports : list string := ["__version__"].

End Package.
